(** * libdhcore: hashing primitive and virtual file I/O layer

    A shallow embedding of [src/core/hash.c] and [src/core/file-io.c].

    Conventions used throughout:
    - a C [uint] is a [Z] in [0, 2^32); every assignment to a [uint]
      variable is followed by an explicit reduction [u32];
    - a byte is a [Byte.byte]; [byte_val] is its value as a C [uint8];
    - a byte buffer passed as (pointer, length) is a [list byte]. *)

From Stdlib Require Import ZArith Lia List Bool String Ascii.
From Stdlib.Strings Require Import Byte.
From stdpp Require Import base option list gmap strings.

Local Open Scope Z_scope.

(** ** Machine integers *)

Definition u32 (x : Z) : Z := x mod 2 ^ 32.

Definition byte_val (b : byte) : Z := Z.of_N (Byte.to_N b).

(** ** hash.c *)

Module Hash.

Definition HSEED : Z := 98424.
Definition HASH_M : Z := 0x5bd1e995.
Definition HASH_R : Z := 24.

(** [#define MMIX(h, k) { k *= HASH_M; k ^= k >> HASH_R; k *= HASH_M;
    h *= HASH_M; h ^= k; }] -- the macro assigns to both operands, so the
    embedding returns the new [h] and the new [k]. *)
Definition MMIX (h k : Z) : Z * Z :=
  let k := u32 (k * HASH_M) in
  let k := u32 (Z.lxor k (Z.shiftr k HASH_R)) in
  let k := u32 (k * HASH_M) in
  let h := u32 (h * HASH_M) in
  let h := u32 (Z.lxor h k) in
  (h, k).

(** [rotl32]: [(x << r) | (x >> (32 - r))] on a [uint]. *)
Definition rotl32 (x r : Z) : Z :=
  u32 (Z.lor (Z.shiftl x r) (Z.shiftr x (32 - r))).

(** [getblock32] reads one 32-bit word through a [const uint*]; on the
    little-endian targets of the library the word made of the bytes
    [b0 b1 b2 b3] (in address order) is the one below. *)
Definition getblock32 (b0 b1 b2 b3 : byte) : Z :=
  Z.lor (Z.lor (Z.lor (byte_val b0) (Z.shiftl (byte_val b1) 8))
               (Z.shiftl (byte_val b2) 16))
        (Z.shiftl (byte_val b3) 24).

Definition fmix32 (h : Z) : Z :=
  let h := u32 (Z.lxor h (Z.shiftr h 16)) in
  let h := u32 (h * 0x85ebca6b) in
  let h := u32 (Z.lxor h (Z.shiftr h 13)) in
  let h := u32 (h * 0xc2b2ae35) in
  let h := u32 (Z.lxor h (Z.shiftr h 16)) in
  h.

Definition c1 : Z := 0xcc9e2d51.
Definition c2 : Z := 0x1b873593.

(** The block loop of [hash_murmur32]: [nblocks = size_bytes / 4] whole
    words are mixed in address order; what is returned with the running
    hash is the tail, i.e. the last [size_bytes & 3] bytes.  (The cast
    of [nblocks] to [int] is the identity for keys below 2^33 bytes.) *)
Fixpoint murmur32_blocks (h1 : Z) (data : list byte) : Z * list byte :=
  match data with
  | b0 :: b1 :: b2 :: b3 :: rest =>
      let k1 := getblock32 b0 b1 b2 b3 in
      let k1 := u32 (k1 * c1) in
      let k1 := rotl32 k1 15 in
      let k1 := u32 (k1 * c2) in
      let h1 := u32 (Z.lxor h1 k1) in
      let h1 := rotl32 h1 13 in
      let h1 := u32 (h1 * 5 + 0xe6546b64) in
      murmur32_blocks h1 rest
  | _ => (h1, data)
  end.

(** The [switch (size_bytes & 3)] with its fall-through cases. *)
Definition murmur32_tail (h1 : Z) (tail : list byte) : Z :=
  let mix k1 :=
    let k1 := u32 (k1 * c1) in
    let k1 := rotl32 k1 15 in
    let k1 := u32 (k1 * c2) in
    u32 (Z.lxor h1 k1) in
  match tail with
  | [t0; t1; t2] =>
      let k1 := u32 (Z.lxor 0 (Z.shiftl (byte_val t2) 16)) in
      let k1 := u32 (Z.lxor k1 (Z.shiftl (byte_val t1) 8)) in
      let k1 := u32 (Z.lxor k1 (byte_val t0)) in
      mix k1
  | [t0; t1] =>
      let k1 := u32 (Z.lxor 0 (Z.shiftl (byte_val t1) 8)) in
      let k1 := u32 (Z.lxor k1 (byte_val t0)) in
      mix k1
  | [t0] =>
      let k1 := u32 (Z.lxor 0 (byte_val t0)) in
      mix k1
  | _ => h1
  end.

Definition hash_murmur32 (key : list byte) (seed : Z) : Z :=
  let size_bytes := Z.of_nat (length key) in
  let '(h1, tail) := murmur32_blocks (u32 seed) key in
  let h1 := murmur32_tail h1 tail in
  let h1 := u32 (Z.lxor h1 size_bytes) in
  fmix32 h1.

Definition hash_str (str : string) : Z :=
  hash_murmur32 (list_byte_of_string str) HSEED.

(** [struct hash_incr] is declared in [dhcore/hash.h]; its four fields
    are taken as [uint], as every expression over them in [hash.c] is. *)
Record hash_incr := mk_hash_incr
  { hash : Z; tail : Z; cnt : Z; size : Z }.

Definition hash_murmurincr_begin (seed : Z) : hash_incr :=
  {| hash := u32 seed; size := 0; tail := 0; cnt := 0 |}.

(** One turn of the [while] loop of [hash_mixtail]: the byte under
    [data] is or-ed into [h->tail], [h->cnt] is bumped, and a complete
    word is mixed into [h->hash]. *)
Definition mixtail_step (h : hash_incr) (b : byte) : hash_incr :=
  let tail' := u32 (Z.lor (tail h) (Z.shiftl (byte_val b) (cnt h * 8))) in
  let cnt' := u32 (cnt h + 1) in
  if cnt' =? 4 then
    let '(hash', _) := MMIX (hash h) tail' in
    {| hash := hash'; tail := 0; cnt := 0; size := size h |}
  else
    {| hash := hash h; tail := tail'; cnt := cnt'; size := size h |}.

(** [while (size && ((size<4) || h->cnt))]; the local [size] is a [uint]
    counting the bytes left under [data].  The list is never exhausted
    before the counter is, as the counter starts at most at its length. *)
Fixpoint mixtail_loop (h : hash_incr) (data : list byte) (sz : Z)
  : hash_incr * list byte * Z :=
  match data with
  | [] => (h, data, sz)
  | b :: data' =>
      if negb (sz =? 0) && ((sz <? 4) || negb (cnt h =? 0)) then
        mixtail_loop (mixtail_step h b) data' (u32 (sz - 1))
      else (h, data, sz)
  end.

(** [hash_mixtail(h, &data, &size)]: [uint size = (uint)*psize] on entry,
    [*pdata = data; *psize = size] on exit. *)
Definition hash_mixtail (h : hash_incr) (data : list byte) (psize : Z)
  : hash_incr * list byte * Z :=
  mixtail_loop h data (u32 psize).

(** [while (size >= 4)] of [hash_murmurincr_add]. *)
Fixpoint incr_blocks (h : hash_incr) (key : list byte) (sz : Z)
  : hash_incr * list byte * Z :=
  match key with
  | b0 :: b1 :: b2 :: b3 :: rest =>
      if 4 <=? sz then
        let k := getblock32 b0 b1 b2 b3 in
        let '(hash', _) := MMIX (hash h) k in
        incr_blocks {| hash := hash'; tail := tail h; cnt := cnt h;
                       size := size h |} rest (sz - 4)
      else (h, key, sz)
  | _ => (h, key, sz)
  end.

Definition hash_murmurincr_add (h : hash_incr) (data : list byte)
  : hash_incr :=
  let sz := Z.of_nat (length data) in
  let h := {| hash := hash h; tail := tail h; cnt := cnt h;
              size := u32 (size h + sz) |} in
  let '(h, key, sz) := hash_mixtail h data sz in
  let '(h, key, sz) := incr_blocks h key sz in
  let '(h, _, _) := hash_mixtail h key sz in
  h.

Definition hash_murmurincr_end (h : hash_incr) : Z :=
  let '(hash1, _) := MMIX (hash h) (tail h) in
  let '(hash2, _) := MMIX hash1 (size h) in
  let hash3 := u32 (Z.lxor hash2 (Z.shiftr hash2 13)) in
  let hash4 := u32 (hash3 * HASH_M) in
  u32 (Z.lxor hash4 (Z.shiftr hash4 15)).

(** The incremental interface used on a sequence of chunks: [begin],
    one [add] per chunk in order, [end]. *)
Definition hash_incremental (seed : Z) (chunks : list (list byte)) : Z :=
  hash_murmurincr_end
    (fold_left hash_murmurincr_add chunks (hash_murmurincr_begin seed)).

(** [hash_u64]: the six assignments to the [uint64] argument [n], and
    the cast [(uint)n] of the return statement. *)
Definition u64 (x : Z) : Z := x mod 2 ^ 64.

Definition hash_u64_mix (n : Z) : Z :=
  let n := u64 (u64 (Z.lnot n) + u64 (Z.shiftl n 18)) in
  let n := u64 (Z.lxor n (Z.shiftr n 31)) in
  let n := u64 (n * 21) in
  let n := u64 (Z.lxor n (Z.shiftr n 11)) in
  let n := u64 (n + u64 (Z.shiftl n 6)) in
  let n := u64 (Z.lxor n (Z.shiftr n 22)) in
  n.

Definition hash_u64 (n : Z) : Z := u32 (hash_u64_mix n).

(** *** Notions used to reason about the incremental interface *)

Definition with_size (h : hash_incr) (s : Z) : hash_incr :=
  {| hash := hash h; tail := tail h; cnt := cnt h; size := s |}.

(** Feeding bytes one at a time through the tail accumulator. *)
Definition feed (h : hash_incr) (bs : list byte) : hash_incr :=
  fold_left mixtail_step bs h.

(** Either no byte is pending and the accumulator is clear, or one to
    three bytes are pending. *)
Definition pending_ok (h : hash_incr) : Prop :=
  (cnt h = 0 /\ tail h = 0) \/ cnt h = 1 \/ cnt h = 2 \/ cnt h = 3.

End Hash.

(** ** file-io.c *)

Module FileIO.

(** *** Platform and build parameters

    What [file-io.c] takes from the platform, the build flags and the
    path helpers:
    - [size_bits]: the width of [size_t] (the library builds for 32 and
      for 64 bit targets); [szt] is the reduction every [size_t]
      expression goes through;
    - [assert_enabled]: whether [_ENABLEASSERT_] is defined, i.e. whether
      [ASSERT(e)] reports and traps when [e] is false or expands to
      nothing ([err.h]);
    - [path_join], [path_tounix]: the path helpers of [path.h]. *)
Class Platform := {
  size_bits : Z;
  size_bits_ok : size_bits = 32 \/ size_bits = 64;
  assert_enabled : bool;
  path_join : string -> string -> string;
  path_tounix : string -> string;
}.

Definition MEM_BLOCK_SIZE : Z := 4096.

Section WithPlatform.
Context {P : Platform}.

Definition szt (x : Z) : Z := x mod 2 ^ size_bits.

(** Modelled from the spec: [clampsz] of [numeric.h] (not in the
    sources): "Result is clamped into [0, size]", a saturating clamp of
    a [size_t] between two [size_t] bounds. *)
Definition clampsz (n min_n max_n : Z) : Z :=
  if n <? min_n then min_n else if max_n <? n then max_n else n.

(** *** Memory: the heap of byte blocks and the allocators

    A pointer to an allocated block is its address, [None] is [NULL]. *)

(** Modelled from the spec: [struct allocator] with the [A_ALLOC],
    [A_REALLOC] and [A_FREE] macros of [mem-mgr.h] (not in the sources).
    A request may fail ("Reallocation failure aborts the write"):
    [can_alloc] is the allocator's answer for a request of the given
    size in the given heap.  A successful reallocation moves the block
    "preserving existing bytes"; fresh bytes read as zero here. *)
Record allocator := { can_alloc : gmap N (list byte) -> Z -> bool }.

Definition A_ALLOC (a : allocator) (h : gmap N (list byte)) (sz : Z)
  : option (N * gmap N (list byte)) :=
  if can_alloc a h sz then
    let p := fresh (dom h) in
    Some (p, <[p := replicate (Z.to_nat sz) "000"%byte]> h)
  else None.

Definition A_REALLOC (a : allocator) (h : gmap N (list byte))
    (ptr : option N) (sz : Z) : option (N * gmap N (list byte)) :=
  if can_alloc a h sz then
    let old := match ptr with
               | Some p => default [] (h !! p)
               | None => []
               end in
    let h0 := match ptr with Some p => delete p h | None => h end in
    let p' := fresh (dom h0) in
    Some (p', <[p' := resize (Z.to_nat sz) "000"%byte old]> h0)
  else None.

Definition A_FREE (a : allocator) (h : gmap N (list byte)) (p : N)
  : gmap N (list byte) :=
  delete p h.

(** Modelled from the spec: [struct pool_alloc] with [mem_pool_alloc]
    and [mem_pool_free] of [mem-mgr.h] (not in the sources): a pool of
    fixed-size slots; "Exhausting a pool's fixed slab capacity is a
    recoverable out-of-memory condition".  [live] is the set of slots
    handed out. *)
Record pool_alloc := { live : gset N; slots_max : nat }.

Definition pool_room (p : pool_alloc) : Prop :=
  (size (live p) < slots_max p)%nat.

Definition mem_pool_alloc (p : pool_alloc) : option (N * pool_alloc) :=
  if decide (pool_room p) then
    let s := fresh (live p) in
    Some (s, {| live := {[s]} ∪ live p; slots_max := slots_max p |})
  else None.

Definition mem_pool_free (p : pool_alloc) (s : N) : pool_alloc :=
  {| live := live p ∖ {[s]}; slots_max := slots_max p |}.

(** The memory the file manager works on: the heap the buffer
    allocators serve, and [g_fio->memfile_alloc]. *)
Record sys := {
  heap : gmap N (list byte);
  memfile_alloc : pool_alloc;
}.

(** [fio_alloc_membuff] / [fio_free_membuff]: the pool call between
    lock and unlock of [g_fio->memfile_mtx]. *)
Definition fio_alloc_membuff (s : sys) : option (N * sys) :=
  match mem_pool_alloc (memfile_alloc s) with
  | Some (ptr, pool) => Some (ptr, {| heap := heap s; memfile_alloc := pool |})
  | None => None
  end.

Definition fio_free_membuff (s : sys) (buff : N) : sys :=
  {| heap := heap s; memfile_alloc := mem_pool_free (memfile_alloc s) buff |}.

(** *** Handles

    Only memory-backed handles ([FILE_TYPE_MEM]) are embedded: a disk
    handle forwards every operation to the C library.  Of each function
    that dispatches on [header->type] the embedding is the
    [FILE_TYPE_MEM] branch. *)

Inductive file_type := FILE_TYPE_MEM | FILE_TYPE_DSK.
Inductive file_mode := FILE_MODE_WRITE | FILE_MODE_READ.
Inductive seek_mode := SEEK_MODE_START | SEEK_MODE_END | SEEK_MODE_CUR.

(** The values a [read_fn] / [write_fn] pointer of a handle takes. *)
Inductive pfnio_file_read := READ_MEM | READ_DISK.
Inductive pfnio_file_write := WRITE_MEM | WRITE_DISK.

Record file_header := {
  type : file_type;
  path : string;
  size : Z;
  mode : file_mode;
  read_fn : option pfnio_file_read;
  write_fn : option pfnio_file_write;
}.

Record mem_file := {
  alloc : option allocator;
  buffer : option N;
  offset : Z;
  max_size : Z;
  mem_id : Z;
}.

(** A [file_t]: the pool slot it points to ([slot], the pointer value)
    and the two structures laid out in the slot. *)
Record file := {
  slot : N;
  header : file_header;
  fdata : mem_file;
}.

(** [memset(fdata, 0x00, sizeof(struct mem_file))] *)
Definition mem_file_zero : mem_file :=
  {| alloc := None; buffer := None; offset := 0; max_size := 0; mem_id := 0 |}.

(** [memcpy(block + off, src, n)] on a heap block; [None] when the copy
    would run outside the block or outside [src]. *)
Definition memcpy_to (block : list byte) (off : Z) (src : list byte) (n : Z)
  : option (list byte) :=
  if (n <=? Z.of_nat (length src)) && (off + n <=? Z.of_nat (length block))
  then Some (take (Z.to_nat off) block ++ take (Z.to_nat n) src
             ++ drop (Z.to_nat (off + n)) block)
  else None.

(** [memcpy(dst, block + off, n)]: the bytes that reach [dst]. *)
Definition memcpy_from (block : list byte) (off n : Z) : option (list byte) :=
  if off + n <=? Z.of_nat (length block)
  then Some (take (Z.to_nat n) (drop (Z.to_nat off) block))
  else None.

Definition fio_createmem (s : sys) (a : allocator) (name : string) (id : Z)
  : sys * option file :=
  match fio_alloc_membuff s with
  | None => (s, None)
  | Some (file_buf, s1) =>
      match A_ALLOC a (heap s1) MEM_BLOCK_SIZE with
      | None => (fio_free_membuff s1 file_buf, None)
      | Some (buf, h2) =>
          ({| heap := h2; memfile_alloc := memfile_alloc s1 |},
           Some {| slot := file_buf;
                   header := {| type := FILE_TYPE_MEM; path := name; size := 0;
                                mode := FILE_MODE_WRITE;
                                read_fn := Some READ_MEM;
                                write_fn := Some WRITE_MEM |};
                   fdata := {| alloc := Some a; buffer := Some buf;
                               offset := 0; max_size := MEM_BLOCK_SIZE;
                               mem_id := id |} |})
      end
  end.

Definition fio_attachmem (s : sys) (a : allocator) (buf : option N)
    (sz : Z) (name : string) (id : Z) : sys * option file :=
  match fio_alloc_membuff s with
  | None => (s, None)
  | Some (file_buf, s1) =>
      (s1, Some {| slot := file_buf;
                   header := {| type := FILE_TYPE_MEM; path := name;
                                size := sz; mode := FILE_MODE_READ;
                                read_fn := Some READ_MEM; write_fn := None |};
                   fdata := {| alloc := Some a; buffer := buf; offset := 0;
                               max_size := sz; mem_id := id |} |})
  end.

(** [fio_detachmem]: the returned pointer, what was stored through
    [outsize] ([None]: nothing was stored), what was stored through
    [palloc], and the handle afterwards. *)
Record detached := {
  det_buffer : option N;
  det_outsize : option Z;
  det_palloc : option (option allocator);
  det_file : file;
}.

Definition fio_detachmem (f : file) (want_alloc : bool) : detached :=
  match buffer (fdata f) with
  | None => {| det_buffer := None; det_outsize := None; det_palloc := None;
               det_file := f |}
  | Some buf =>
      {| det_buffer := Some buf;
         det_outsize := Some (size (header f));
         det_palloc := if want_alloc then Some (alloc (fdata f)) else None;
         det_file := {| slot := slot f; header := header f;
                        fdata := mem_file_zero |} |}
  end.

(** [fio_close], [FILE_TYPE_MEM] branch.  [None]: the free went through
    a null allocator pointer. *)
Definition fio_close (s : sys) (f : file) : option sys :=
  match buffer (fdata f) with
  | Some buf =>
      match alloc (fdata f) with
      | Some a =>
          Some (fio_free_membuff
                  {| heap := A_FREE a (heap s) buf;
                     memfile_alloc := memfile_alloc s |} (slot f))
      | None => None
      end
  | None => Some (fio_free_membuff s (slot f))
  end.

Definition set_offset (f : file) (off : Z) : file :=
  {| slot := slot f; header := header f;
     fdata := {| alloc := alloc (fdata f); buffer := buffer (fdata f);
                 offset := off; max_size := max_size (fdata f);
                 mem_id := mem_id (fdata f) |} |}.

(** The values of the C type [int], the type of the parameter
    [offset] of [fio_seek]: a call of the program passes such a value,
    and a position that is not one cannot be passed. *)
Definition INT_MIN : Z := - 2 ^ 31.
Definition INT_MAX : Z := 2 ^ 31 - 1.
Definition int_range (x : Z) : Prop := INT_MIN <= x <= INT_MAX.

(** [fio_seek], [FILE_TYPE_MEM] branch; [ofs] is the [int] argument
    (a value in [int_range]), converted to [size_t] where the code adds
    it to, stores it in or subtracts it from a [size_t].
    [None]: [ASSERT(offset > 0)] trapped. *)
Definition fio_seek (f : file) (seek : seek_mode) (ofs : Z) : option file :=
  let moved :=
    match seek with
    | SEEK_MODE_CUR => Some (szt (offset (fdata f) + ofs))
    | SEEK_MODE_START => Some (szt ofs)
    | SEEK_MODE_END =>
        if assert_enabled && negb (0 <? ofs) then None
        else Some (szt (size (header f) - ofs))
    end in
  match moved with
  | Some o => Some (set_offset f (clampsz o 0 (size (header f))))
  | None => None
  end.

(** [fio_readmem]: the handle afterwards, the bytes copied to the
    caller's buffer and the returned item count.  [None]: division by a
    zero [item_size], or a copy from outside the buffer. *)
Definition fio_readmem (s : sys) (f : file) (item_size items_cnt : Z)
  : option (file * list byte * Z) :=
  if item_size =? 0 then None else
  let read_sz := szt (item_size * items_cnt) in
  let read_sz :=
    if size (header f) <? szt (read_sz + offset (fdata f)) then
      let read_sz := szt (size (header f) - offset (fdata f)) in
      szt (read_sz - read_sz mod item_size)
    else read_sz in
  if read_sz =? 0 then Some (f, [], read_sz / item_size)
  else
    match buffer (fdata f) with
    | None => None
    | Some buf =>
        match heap s !! buf with
        | None => None
        | Some block =>
            match memcpy_from block (offset (fdata f)) read_sz with
            | None => None
            | Some out =>
                Some (set_offset f (szt (offset (fdata f) + read_sz)),
                      out, read_sz / item_size)
            end
        end
    end.

(** The statements of [fio_writemem] after the growth of the buffer:
    [header->size] follows the end of the write, the bytes are copied
    at [offset], [fdata->offset] advances, [items_cnt] is returned. *)
Definition writemem_copy (s : sys) (f : file) (data : list byte)
    (write_sz items_cnt : Z) : option (sys * file * Z) :=
  let ofs := offset (fdata f) in
  let new_size :=
    if size (header f) <? szt (ofs + write_sz)
    then szt (ofs + write_sz) else size (header f) in
  match buffer (fdata f) with
  | None => None
  | Some buf =>
      match heap s !! buf with
      | None => None
      | Some block =>
          match memcpy_to block ofs data write_sz with
          | None => None
          | Some block' =>
              Some ({| heap := <[buf := block']> (heap s);
                       memfile_alloc := memfile_alloc s |},
                    {| slot := slot f;
                       header := {| type := type (header f);
                                    path := path (header f);
                                    size := new_size;
                                    mode := mode (header f);
                                    read_fn := read_fn (header f);
                                    write_fn := write_fn (header f) |};
                       fdata := {| alloc := alloc (fdata f);
                                   buffer := Some buf;
                                   offset := szt (ofs + write_sz);
                                   max_size := max_size (fdata f);
                                   mem_id := mem_id (fdata f) |} |},
                    items_cnt)
          end
      end
  end.

Definition set_buffer (f : file) (buf : option N) (cap : Z) : file :=
  {| slot := slot f; header := header f;
     fdata := {| alloc := alloc (fdata f); buffer := buf;
                 offset := offset (fdata f); max_size := cap;
                 mem_id := mem_id (fdata f) |} |}.

(** [fio_writemem]: the memory and the handle afterwards and the
    returned item count.  [None]: a null allocator or buffer pointer was
    used, or the copy ran outside the buffer or the caller's data. *)
Definition fio_writemem (s : sys) (f : file) (data : list byte)
    (item_size items_cnt : Z) : option (sys * file * Z) :=
  let write_sz := szt (item_size * items_cnt) in
  let ofs := offset (fdata f) in
  if max_size (fdata f) <? szt (write_sz + ofs) then
    let grow_sz := szt (szt (write_sz + ofs) - max_size (fdata f)) in
    let expand_sz :=
      szt (szt (grow_sz / MEM_BLOCK_SIZE + 1) * MEM_BLOCK_SIZE) in
    match alloc (fdata f) with
    | None => None
    | Some a =>
        match A_REALLOC a (heap s) (buffer (fdata f))
                        (szt (expand_sz + max_size (fdata f))) with
        | None => Some (s, set_buffer f None (max_size (fdata f)), 0)
        | Some (buf, h1) =>
            writemem_copy
              {| heap := h1; memfile_alloc := memfile_alloc s |}
              (set_buffer f (Some buf) (szt (max_size (fdata f) + expand_sz)))
              data write_sz items_cnt
        end
    end
  else writemem_copy s f data write_sz items_cnt.

(** [fio_read] / [fio_write]: the call through [header->read_fn] /
    [header->write_fn]; [None] also for a null function pointer (and
    for the disk functions, which a memory-backed handle never holds). *)
Definition fio_read (s : sys) (f : file) (item_size items_cnt : Z)
  : option (file * list byte * Z) :=
  match read_fn (header f) with
  | Some READ_MEM => fio_readmem s f item_size items_cnt
  | _ => None
  end.

Definition fio_write (s : sys) (f : file) (data : list byte)
    (item_size items_cnt : Z) : option (sys * file * Z) :=
  match write_fn (header f) with
  | Some WRITE_MEM => fio_writemem s f data item_size items_cnt
  | _ => None
  end.

Definition fio_getsize (f : file) : Z := size (header f).
Definition fio_getpos (f : file) : Z := offset (fdata f).
Definition fio_isopen (f : file) : bool :=
  match buffer (fdata f) with Some _ => true | None => false end.

(** What the data model asks of the sizes of a memory-backed handle:
    the position is a [size_t] and the capacity covers the size. *)
Definition mem_inv (f : file) : Prop :=
  0 <= offset (fdata f) /\ size (header f) <= max_size (fdata f).

(** "the shortfall rounded up to a multiple of the fixed block size",
    in the words of the specification: the least multiple of [block]
    that is not below [x]. *)
Definition round_up_to_multiple (x block : Z) : Z :=
  (x + block - 1) / block * block.

(** A run of writes on one handle, each given as (data, item size,
    item count); it stops with [None] where a write does. *)
Fixpoint write_all (s : sys) (f : file) (ws : list (list byte * Z * Z))
  : option (sys * file) :=
  match ws with
  | [] => Some (s, f)
  | (data, item_size, items_cnt) :: ws' =>
      match fio_writemem s f data item_size items_cnt with
      | Some (s1, f1, _) => write_all s1 f1 ws'
      | None => None
      end
  end.

(** *** The file manager: archives, virtual directories, resolution *)

(** Modelled from the spec: a mounted archive, [struct pak_file] of
    [pak-file.h] (not in the sources): "archive module exposes
    locate(archive, path) -> id|not_found and extract(archive, id,
    allocator) -> Handle".  [pak_findfile] answers [None] for
    [INVALID_INDEX]. *)
Record pak_file := {
  pak_findfile : string -> option Z;
  pak_getfile : allocator -> Z -> Z -> sys -> sys * option file;
}.

(** [struct array] pointed to by [backbuff] / [frontbuff]: one of the
    two arrays embedded in the [vdir]. *)
Inductive arr_ref := REF_BACKARR | REF_FRONTARR.

Record vdir := {
  monitor : bool;
  vpath : string;
  backbuff : arr_ref;
  frontbuff : arr_ref;
  backarr : list string;
  frontarr : list string;
}.

Record mon_item := { fn : Z; hdl : Z; param1 : Z; param2 : Z }.

(** Modelled from the spec: [struct hashtable_open] of [hash-table.h]
    (not in the sources), "the monitor registry (hashed path -> callback
    descriptor)", with [hashtable_open_find] as map lookup. *)
Record file_mgr := {
  vdirs : list vdir;
  paks : list pak_file;
  mon_table : gmap Z mon_item;
}.

Definition arr_isempty {A} (arr : list A) : bool :=
  match arr with [] => true | _ => false end.

(** The file system as [fopen(path, "rb")] sees it: the contents of
    the file at a path, [None] when the open fails. *)
Definition filesystem := string -> option (list byte).

(** The loop over [g_fio->paks] in [fio_openmem]. *)
Fixpoint openmem_paks (pks : list pak_file) (filepath : string)
  : option (pak_file * Z) :=
  match pks with
  | [] => None
  | pk :: rest =>
      match pak_findfile pk filepath with
      | Some file_id => Some (pk, file_id)
      | None => openmem_paks rest filepath
      end
  end.

(** The loop of [open_resolvepath] over the virtual directories. *)
Fixpoint resolvepath_loop (fs : filesystem) (vds : list vdir)
    (filepath : string) : option (list byte) :=
  match vds with
  | [] => None
  | vd :: rest =>
      match fs (path_join (vpath vd) filepath) with
      | Some f => Some f
      | None => resolvepath_loop fs rest filepath
      end
  end.

Definition open_resolvepath (g : file_mgr) (fs : filesystem)
    (filepath : string) : option (list byte) :=
  resolvepath_loop fs (vdirs g) filepath.

(** [fio_openmem] from the point where the stream [ff] has been opened
    (or not) and the handle slot [file_buf] taken from the pool.  The
    buffer is allocated with [size + 1] bytes and [fread] stores the
    [size] bytes of the stream at its start: the byte after them is
    never written and stays what the allocator handed out. *)
Definition openmem_load (s1 : sys) (file_buf : N) (a : allocator)
    (filepath : string) (id : Z) (ff : option (list byte))
  : sys * option file :=
  match ff with
  | None => (fio_free_membuff s1 file_buf, None)
  | Some content =>
      let sz := szt (Z.of_nat (length content)) in
      match A_ALLOC a (heap s1) (szt (sz + 1)) with
      | None => (fio_free_membuff s1 file_buf, None)
      | Some (buf, h2) =>
          let fresh_block := default [] (h2 !! buf) in
          let block := take (Z.to_nat sz) content
                       ++ drop (Z.to_nat sz) fresh_block in
          ({| heap := <[buf := block]> h2; memfile_alloc := memfile_alloc s1 |},
           Some {| slot := file_buf;
                   header := {| type := FILE_TYPE_MEM; path := filepath;
                                size := sz; mode := FILE_MODE_READ;
                                read_fn := Some READ_MEM; write_fn := None |};
                   fdata := {| alloc := Some a; buffer := Some buf;
                               offset := 0; max_size := sz; mem_id := id |} |})
      end
  end.

(** The first test of [fio_openmem]: the archive that has the path
    and the index of the file in it, when archives are looked at. *)
Definition openmem_archive (g : file_mgr) (filepath : string)
    (ignore_vfs : bool) : option (pak_file * Z) :=
  if negb ignore_vfs && negb (arr_isempty (paks g))
  then openmem_paks (paks g) filepath else None.

(** The conditional expression that initialises [ff] in [fio_openmem]
    (and [f->file] in [fio_opendisk]). *)
Definition openmem_stream (g : file_mgr) (fs : filesystem)
    (filepath : string) (ignore_vfs : bool) : option (list byte) :=
  if negb ignore_vfs && negb (arr_isempty (vdirs g))
  then open_resolvepath g fs filepath
  else fs filepath.

Definition fio_openmem (g : file_mgr) (fs : filesystem) (s : sys)
    (a : allocator) (filepath : string) (ignore_vfs : bool) (id : Z)
  : sys * option file :=
  match openmem_archive g filepath ignore_vfs with
  | Some (pk, file_id) => pak_getfile pk a file_id id s
  | None =>
      match fio_alloc_membuff s with
      | None => (s, None)
      | Some (file_buf, s1) =>
          openmem_load s1 file_buf a filepath id
            (openmem_stream g fs filepath ignore_vfs)
      end
  end.

(** [fio_loadtext]: the memory afterwards, the returned pointer and
    what was stored through [size] ([None]: nothing).  The outer [None]
    stands for a run that traps: [s] read while [fio_detachmem] left it
    unset, a null allocator in [fio_close], [data[s]] outside the block. *)
Definition fio_loadtext (g : file_mgr) (fs : filesystem) (s : sys)
    (a : allocator) (filepath : string) (ignore_vfs : bool) (id : Z)
    (want_size : bool) : option (sys * option N * option Z) :=
  match fio_openmem g fs s a filepath ignore_vfs id with
  | (s1, None) => Some (s1, None, None)
  | (s1, Some f) =>
      let d := fio_detachmem f false in
      match fio_close s1 (det_file d) with
      | None => None
      | Some s2 =>
          match det_outsize d with
          | None => None
          | Some sz =>
              if sz =? 0 then
                match det_buffer d with
                | Some data =>
                    Some ({| heap := A_FREE a (heap s2) data;
                             memfile_alloc := memfile_alloc s2 |}, None, None)
                | None => Some (s2, None, None)
                end
              else
                match det_buffer d with
                | None => None
                | Some data =>
                    match heap s2 !! data with
                    | None => None
                    | Some block =>
                        if sz <? Z.of_nat (length block) then
                          Some ({| heap := <[data := <[Z.to_nat sz := "000"%byte]> block]>
                                             (heap s2);
                                   memfile_alloc := memfile_alloc s2 |},
                                Some data,
                                if want_size then Some sz else None)
                        else None
                    end
                end
          end
      end
  end.

(** *** Change monitoring *)

Inductive efsw_action := EFSW_ADD | EFSW_DELETE | EFSW_MODIFIED | EFSW_MOVED.

Definition arr_deref (vd : vdir) (r : arr_ref) : list string :=
  match r with REF_BACKARR => backarr vd | REF_FRONTARR => frontarr vd end.

Definition arr_store (vd : vdir) (r : arr_ref) (l : list string) : vdir :=
  match r with
  | REF_BACKARR =>
      {| monitor := monitor vd; vpath := vpath vd; backbuff := backbuff vd;
         frontbuff := frontbuff vd; backarr := l; frontarr := frontarr vd |}
  | REF_FRONTARR =>
      {| monitor := monitor vd; vpath := vpath vd; backbuff := backbuff vd;
         frontbuff := frontbuff vd; backarr := backarr vd; frontarr := l |}
  end.

(** [fio_vdir_initmon]: both arrays created empty, [frontbuff] and
    [backbuff] pointing to [frontarr] and [backarr]. *)
Definition fio_vdir_initmon (dir : string) : vdir :=
  {| monitor := true; vpath := dir; backbuff := REF_BACKARR;
     frontbuff := REF_FRONTARR; backarr := []; frontarr := [] |}.

(** [str_isequal] of [str.h] is string equality. *)
Fixpoint fio_find_file (files : list string) (filepath : string) : bool :=
  match files with
  | [] => false
  | f :: rest =>
      if String.eqb f filepath then true else fio_find_file rest filepath
  end.

(** [fio_mon_callback], the body between lock and unlock of [vd->mtx];
    [arr_add] is taken to succeed. *)
Definition fio_mon_callback (vd : vdir) (action : efsw_action)
    (filename : string) : vdir :=
  match action with
  | EFSW_MODIFIED | EFSW_MOVED =>
      let arr := arr_deref vd (backbuff vd) in
      let filepath_unix := path_tounix filename in
      if negb (fio_find_file arr filepath_unix)
      then arr_store vd (backbuff vd) (arr ++ [filepath_unix])
      else vd
  | _ => vd
  end.

(** [swapptr(&vd->backbuff, &vd->frontbuff)] *)
Definition mon_swap (vd : vdir) : vdir :=
  {| monitor := monitor vd; vpath := vpath vd; backbuff := frontbuff vd;
     frontbuff := backbuff vd; backarr := backarr vd;
     frontarr := frontarr vd |}.

(** A call [mitem->fn(filepath, mitem->hdl, mitem->param1, mitem->param2)]. *)
Record mon_call := { call_path : string; call_item : mon_item }.

(** One turn of the dispatch loop of [fio_mon_update]. *)
Definition mon_dispatch (tbl : gmap Z mon_item) (filepath : string)
  : list mon_call :=
  match tbl !! Hash.hash_str filepath with
  | Some mitem => [{| call_path := filepath; call_item := mitem |}]
  | None => []
  end.

(** The body of the loop of [fio_mon_update] for one directory: the
    directory afterwards and the calls made, in order. *)
Definition mon_update_vdir (tbl : gmap Z mon_item) (vd : vdir)
  : vdir * list mon_call :=
  if negb (monitor vd) then (vd, [])
  else
    let vd := mon_swap vd in
    let arr := arr_deref vd (frontbuff vd) in
    (arr_store vd (frontbuff vd) [], flat_map (mon_dispatch tbl) arr).

Fixpoint mon_update_loop (tbl : gmap Z mon_item) (vds : list vdir)
  : list vdir * list mon_call :=
  match vds with
  | [] => ([], [])
  | vd :: rest =>
      let '(vd', calls) := mon_update_vdir tbl vd in
      let '(rest', calls') := mon_update_loop tbl rest in
      (vd' :: rest', calls ++ calls')
  end.

Definition fio_mon_update (g : file_mgr) : file_mgr * list mon_call :=
  let '(vds, calls) := mon_update_loop (mon_table g) (vdirs g) in
  ({| vdirs := vds; paks := paks g; mon_table := mon_table g |}, calls).

(** *** The watcher thread against the polling thread

    The watcher runs [fio_mon_callback] and the poller runs the body of
    [fio_mon_update] on the same monitored directory.  The mutex
    [vd->mtx] makes the callback body and the pointer swap atomic; the
    poller's loop over the front array and its [arr_clear] run outside
    the mutex, one array access at a time.  An interleaving is a list
    of [sched_event]s: a watcher event, or the next step of the poller,
    whose position in [fio_mon_update] is [poll_pc]. *)

Inductive poll_pc :=
| POLL_IDLE                (* between two calls of [fio_mon_update] *)
| POLL_LOOP (c : nat).     (* in the dispatch loop, at index [c] *)

Record mon_state := {
  mvd : vdir;
  pc : poll_pc;
  calls : list mon_call;   (* callbacks invoked so far, in order *)
}.

Inductive sched_event :=
| EV_WATCH (action : efsw_action) (filename : string)
| EV_POLL.

Definition poll_step (tbl : gmap Z mon_item) (st : mon_state) : mon_state :=
  match pc st with
  | POLL_IDLE =>
      {| mvd := mon_swap (mvd st); pc := POLL_LOOP 0; calls := calls st |}
  | POLL_LOOP c =>
      let arr := arr_deref (mvd st) (frontbuff (mvd st)) in
      match arr !! c with
      | Some filepath =>
          {| mvd := mvd st; pc := POLL_LOOP (S c);
             calls := calls st ++ mon_dispatch tbl filepath |}
      | None =>
          {| mvd := arr_store (mvd st) (frontbuff (mvd st)) [];
             pc := POLL_IDLE; calls := calls st |}
      end
  end.

Definition sched_step (tbl : gmap Z mon_item) (st : mon_state)
    (ev : sched_event) : mon_state :=
  match ev with
  | EV_WATCH action filename =>
      {| mvd := fio_mon_callback (mvd st) action filename; pc := pc st;
         calls := calls st |}
  | EV_POLL => poll_step tbl st
  end.

Definition sched_run (tbl : gmap Z mon_item) (st : mon_state)
    (evs : list sched_event) : mon_state :=
  fold_left (sched_step tbl) evs st.

Definition mon_init (dir : string) : mon_state :=
  {| mvd := fio_vdir_initmon dir; pc := POLL_IDLE; calls := [] |}.

(** The list the watcher appends to and the list the poller drains. *)
Definition back_list (vd : vdir) : list string := arr_deref vd (backbuff vd).
Definition front_list (vd : vdir) : list string := arr_deref vd (frontbuff vd).

(** The paths the watcher events of an interleaving ask to append, in
    order: those of the [EFSW_MODIFIED] and [EFSW_MOVED] events. *)
Definition watched_paths (evs : list sched_event) : list string :=
  flat_map (fun ev =>
              match ev with
              | EV_WATCH EFSW_MODIFIED filename
              | EV_WATCH EFSW_MOVED filename => [path_tounix filename]
              | _ => []
              end) evs.

(** The paths appended and not yet handed to the dispatch loop: what is
    left of the front list from the poller's index on, then the back
    list. *)
Definition pending (st : mon_state) : list string :=
  match pc st with
  | POLL_IDLE => front_list (mvd st)
  | POLL_LOOP c => drop c (front_list (mvd st))
  end ++ back_list (mvd st).

(** The paths the callbacks have been invoked with, in order. *)
Definition dispatched (st : mon_state) : list string :=
  map call_path (calls st).

(** A call made through the registry entry of the hash of its path. *)
Definition call_registered (tbl : gmap Z mon_item) (c : mon_call) : Prop :=
  tbl !! Hash.hash_str (call_path c) = Some (call_item c).

(** The protocol invariant: the two pointers name different arrays, the
    front list is empty between two polls, and the back list has no
    duplicate. *)
Definition mon_inv (st : mon_state) : Prop :=
  backbuff (mvd st) <> frontbuff (mvd st)
  /\ (pc st = POLL_IDLE -> front_list (mvd st) = [])
  /\ NoDup (back_list (mvd st)).


End WithPlatform.
End FileIO.

(** ** file-io.c, continued: the manager's registration functions and
    the callers of the handle functions in [zip.c] and [json.c] *)

Module FileIOExt.
Import FileIO.

(** What the functions below take from outside [file-io.c]:
    [path_norm] ([path.h]), [util_pathisdir] ([util.h]) and
    [pak_isopen] ([pak-file.h]); whether [arr_add] finds room for one
    more item of [g_fio->vdirs] ([array.h]: a pointer other than
    [NULL]); and the watcher of [efsw.h] as [fio_vdir_initmon] uses
    it: whether [g_fio->watcher] is set or [efsw_create] returns one,
    and whether [efsw_addwatch] on a path returns a watch id other
    than -1. *)
Class DirEnv := {
  path_norm : string -> string;
  util_pathisdir : string -> bool;
  pak_isopen : pak_file -> bool;
  arr_add_ok : list vdir -> bool;
  watcher_ready : bool;
  efsw_addwatch : string -> bool;
}.

(** The miniz reader as [zip_getfile] uses it: [mz_zip_reader_locate_file]
    ([None] for -1), the [m_uncomp_size] of [mz_zip_reader_file_stat] and
    [mz_zip_reader_extract_to_mem] ([None] when it returns false, else
    the bytes it stored). *)
Record mz_zip_archive := {
  mz_locate_file : string -> option Z;
  mz_uncomp_size : Z -> Z;
  mz_extract_to_mem : Z -> option (list byte);
}.

Section WithPlatform.
Context {P : Platform} {D : DirEnv}.

(** *** What a handle denotes *)

(** The block [fdata->buffer] points to. *)
Definition file_block (s : sys) (f : file) : option (list byte) :=
  match buffer (fdata f) with
  | Some p => heap s !! p
  | None => None
  end.

(** The bytes of the file: the first [header->size] bytes of the block. *)
Definition file_contents (s : sys) (f : file) : option (list byte) :=
  match file_block s f with
  | Some block => Some (take (Z.to_nat (size (header f))) block)
  | None => None
  end.

(** A handle in order: its buffer is an allocated block, the position
    is inside the file, the capacity covers the size and the block
    covers the capacity. *)
Definition handle_ok (s : sys) (f : file) : Prop :=
  exists block,
    file_block s f = Some block
    /\ 0 <= offset (fdata f) <= size (header f)
    /\ size (header f) <= max_size (fdata f)
    /\ max_size (fdata f) <= Z.of_nat (length block).

(** *** zip.c: [zip_getfile] *)

Definition zip_getfile (s : sys) (zip : mz_zip_archive) (filepath : string)
    (a : allocator) : sys * option file :=
  match mz_locate_file zip filepath with
  | None => (s, None)
  | Some idx =>
      let sz := szt (mz_uncomp_size zip idx) in
      match A_ALLOC a (heap s) sz with
      | None => (s, None)
      | Some (buff, h1) =>
          match mz_extract_to_mem zip idx with
          | None =>
              ({| heap := A_FREE a h1 buff;
                  memfile_alloc := memfile_alloc s |}, None)
          | Some bytes =>
              fio_attachmem
                {| heap := <[buff := resize (Z.to_nat sz) "000"%byte bytes]> h1;
                   memfile_alloc := memfile_alloc s |}
                a (Some buff) sz filepath 0
          end
      end
  end.

(** *** json.c: [json_parsefilef] *)

(** The C string that starts a buffer: its bytes up to the first NUL. *)
Fixpoint c_string (buf : list byte) : list byte :=
  match buf with
  | [] => []
  | b :: rest => if Byte.eqb b "000"%byte then [] else b :: c_string rest
  end.

(** [json_parsefilef], with [cJSON_Parse] as a function of the string it
    is given ([None] for a null result); [g_json] is taken as
    initialised.  The result: the memory and the handle afterwards and
    the returned tree; the outer [None] as for [fio_read]. *)
Definition json_parsefilef {J : Type} (cJSON_Parse : list byte -> option J)
    (s : sys) (f : file) (tmp_alloc : allocator)
  : option (sys * file * option J) :=
  let sz := fio_getsize f in
  if sz =? 0 then Some (s, f, None)
  else
    match A_ALLOC tmp_alloc (heap s) (szt (sz + 1)) with
    | None => Some (s, f, None)
    | Some (buff, h1) =>
        let s1 := {| heap := h1; memfile_alloc := memfile_alloc s |} in
        match fio_read s1 f sz 1 with
        | None => None
        | Some (f', out, _) =>
            match h1 !! buff with
            | None => None
            | Some block =>
                if sz <? Z.of_nat (length block) then
                  let text := <[Z.to_nat sz := "000"%byte]>
                                (out ++ drop (length out) block) in
                  Some ({| heap := A_FREE tmp_alloc h1 buff;
                           memfile_alloc := memfile_alloc s |},
                        f', cJSON_Parse (c_string text))
                else None
            end
        end
    end.

(** *** Registration of directories and archives *)

(** How a call of [fio_addvdir] ends. *)
Inductive addvdir_result :=
| ADDVDIR_ASSERT
    (* [ASSERT(directory[0] != 0)] trapped *)
| ADDVDIR_RET (ret : bool) (g : file_mgr)
    (* it returned [ret], the manager being [g] *)
| ADDVDIR_NOWATCHER (g : file_mgr) (dir : string).
    (* it returned [FALSE] out of [fio_vdir_initmon] before the arrays
       were created: [dir] is appended after the directories of [g]
       with its monitor flag set and both buffer pointers [NULL], a
       directory that [vdir] has no value for *)

(** [fio_addvdir], in a build with [_FILEMON_] (the build
    [fio_mon_update] above is taken from).  A directory that is not
    monitored keeps the zeroes of [memset]: its buffer pointers are
    never read.  For a monitored one [fio_vdir_initmon] runs on the
    item [arr_add] returned, after [vd->monitor] and [vd->path] are
    set: it gives up when there is no watcher, else it creates the
    arrays and returns what [efsw_addwatch] allows, the directory
    staying in the array in either case. *)
Definition fio_addvdir (g : file_mgr) (directory : string) (mon : bool)
  : addvdir_result :=
  if assert_enabled && String.eqb directory "" then ADDVDIR_ASSERT
  else
    let dir := path_norm directory in
    if negb (util_pathisdir dir) then ADDVDIR_RET false g
    else if negb (arr_add_ok (vdirs g)) then ADDVDIR_RET false g
    else
      let vd_path := path_norm dir in
      if mon then
        if negb watcher_ready then ADDVDIR_NOWATCHER g vd_path
        else
          ADDVDIR_RET (efsw_addwatch vd_path)
            {| vdirs := vdirs g ++ [fio_vdir_initmon vd_path];
               paks := paks g; mon_table := mon_table g |}
      else
        ADDVDIR_RET true
          {| vdirs := vdirs g
                      ++ [{| monitor := false; vpath := vd_path;
                             backbuff := REF_BACKARR;
                             frontbuff := REF_FRONTARR;
                             backarr := []; frontarr := [] |}];
             paks := paks g; mon_table := mon_table g |}.

Definition fio_clearvdirs (g : file_mgr) : file_mgr :=
  {| vdirs := []; paks := paks g; mon_table := mon_table g |}.


Definition fio_clearpaks (g : file_mgr) : file_mgr :=
  {| vdirs := vdirs g; paks := []; mon_table := mon_table g |}.

(** *** The monitor registry *)

(** [fio_mon_reg] / [fio_mon_unreg], with [hashtable_open_add] and
    [hashtable_open_remove] as insertion into and deletion from the
    registry map (for a hash that is not yet in the table, and for the
    entry [hashtable_open_find] returns); the [ALLOC] of the item is
    taken to succeed. *)
Definition fio_mon_reg (g : file_mgr) (filepath : string)
    (fn' hdl' param1' param2' : Z) : file_mgr :=
  {| vdirs := vdirs g; paks := paks g;
     mon_table :=
       <[Hash.hash_str filepath :=
           {| fn := fn'; hdl := hdl'; param1 := param1'; param2 := param2' |}]>
         (mon_table g) |}.

Definition fio_mon_unreg (g : file_mgr) (filepath : string) : file_mgr :=
  match mon_table g !! Hash.hash_str filepath with
  | Some _ =>
      {| vdirs := vdirs g; paks := paks g;
         mon_table := delete (Hash.hash_str filepath) (mon_table g) |}
  | None => g
  end.

(** The watcher calling [fio_mon_callback] with the [i]-th directory of
    the manager as its [param]. *)
Definition mon_notify (g : file_mgr) (i : nat) (action : efsw_action)
    (filename : string) : file_mgr :=
  {| vdirs := alter (fun vd => fio_mon_callback vd action filename) i
                (vdirs g);
     paks := paks g; mon_table := mon_table g |}.

(** A directory between two polls: its two pointers name different
    arrays and its front list is empty. *)
Definition vdir_idle (vd : vdir) : Prop :=
  backbuff vd <> frontbuff vd /\ front_list vd = [].

(** The calls one poll owes a directory: those of the dispatch loop
    over the paths of its back list, none when it is not monitored. *)
Definition vdir_calls (tbl : gmap Z mon_item) (vd : vdir) : list mon_call :=
  if monitor vd then flat_map (mon_dispatch tbl) (back_list vd) else [].

(** A run of writes of byte strings, each as one item. *)
Definition byte_writes (ds : list (list byte)) : list (list byte * Z * Z) :=
  map (fun d => (d, 1, Z.of_nat (length d))) ds.

End WithPlatform.
End FileIOExt.

(** ** Concrete platforms, allocators and file systems

    Instances on which the functions above are evaluated. *)

Module Examples.
Import FileIO.

(** A 64 bit build with assertions compiled in, [path_join] putting a
    slash between its arguments and [path_tounix] leaving a path that
    has no backslash as it is. *)
Definition lp64_debug : Platform :=
  {| size_bits := 64;
     size_bits_ok := or_intror eq_refl;
     assert_enabled := true;
     path_join := fun a b => (a ++ "/" ++ b)%string;
     path_tounix := fun p => p |}.

(** An allocator that serves every request, one that serves none, and
    one that serves requests up to a limit. *)
Definition heap_alloc : allocator := {| can_alloc := fun _ _ => true |}.
Definition null_alloc : allocator := {| can_alloc := fun _ _ => false |}.
Definition small_alloc (limit : Z) : allocator :=
  {| can_alloc := fun _ sz => sz <=? limit |}.

Definition sys0 : sys :=
  {| heap := ∅; memfile_alloc := {| live := ∅; slots_max := 32 |} |}.

(** The memory and the handle [fio_attachmem] makes over a four-byte
    buffer at address 5, the handle being in slot 0. *)
Definition attached_sys : sys :=
  {| heap := {[ 5%N := ["p"; "q"; "r"; "s"]%byte ]};
     memfile_alloc := {| live := {[ 0%N ]}; slots_max := 32 |} |}.

Definition attached_file : file :=
  {| slot := 0%N;
     header := {| type := FILE_TYPE_MEM; path := "blob"; size := 4;
                  mode := FILE_MODE_READ; read_fn := Some READ_MEM;
                  write_fn := None |};
     fdata := {| alloc := Some heap_alloc; buffer := Some 5%N;
                 offset := 0; max_size := 4; mem_id := 0 |} |}.

(** A fresh memory file over an allocator that serves nothing beyond
    one block: any growth of its buffer fails. *)
Definition created_tight : sys * option file :=
  fio_createmem sys0 (small_alloc MEM_BLOCK_SIZE) "log" 0.

(** A fresh memory file over an allocator that never fails. *)
Definition created_roomy : sys * option file :=
  fio_createmem sys0 heap_alloc "log" 0.

(** A file system with a loose file next to the working directory and
    two files under the directory [data], one of them empty; a file
    manager with [data] registered as its only virtual directory and no
    archive mounted. *)
Definition demo_fs : filesystem := fun p =>
  if String.eqb p "a.txt" then Some ["r"; "a"; "w"]%byte
  else if String.eqb p "data/b.txt" then Some ["v"; "d"]%byte
  else if String.eqb p "data/empty.txt" then Some []
  else None.

Definition demo_vdir : vdir :=
  {| monitor := false; vpath := "data"; backbuff := REF_BACKARR;
     frontbuff := REF_FRONTARR; backarr := []; frontarr := [] |}.

Definition demo_mgr : file_mgr :=
  {| vdirs := [demo_vdir]; paks := []; mon_table := ∅ |}.

(** A registry with two watched paths, and an interleaving in which
    the watcher reports both (and an [EFSW_ADD] that is ignored) around
    steps of the poller. *)
Definition demo_table : gmap Z mon_item :=
  <[Hash.hash_str "tex/a.dds" :=
      {| fn := 1; hdl := 10; param1 := 0; param2 := 0 |}]>
  (<[Hash.hash_str "fx/b.glsl" :=
      {| fn := 2; hdl := 20; param1 := 0; param2 := 0 |}]> ∅).

Definition demo_schedule : list sched_event :=
  [EV_WATCH EFSW_MODIFIED "tex/a.dds"; EV_POLL;
   EV_WATCH EFSW_MOVED "fx/b.glsl"; EV_POLL;
   EV_WATCH EFSW_ADD "new.txt"].


(** Paths that are normalised already, the directories [data],
    [mods] and [tmp] on disk, archives that are open, an array of
    directories that can grow, and a watcher that is up and watches
    every path but [tmp]. *)
Definition demo_dirs : FileIOExt.DirEnv :=
  {| FileIOExt.path_norm := fun p => p;
     FileIOExt.util_pathisdir :=
       fun p => String.eqb p "data" || String.eqb p "mods"
                || String.eqb p "tmp";
     FileIOExt.pak_isopen := fun _ => true;
     FileIOExt.arr_add_ok := fun _ => true;
     FileIOExt.watcher_ready := true;
     FileIOExt.efsw_addwatch := fun p => negb (String.eqb p "tmp") |}.

(** The same with no watcher to be had. *)
Definition unwatched_dirs : FileIOExt.DirEnv :=
  {| FileIOExt.path_norm := fun p => p;
     FileIOExt.util_pathisdir :=
       fun p => String.eqb p "data" || String.eqb p "mods"
                || String.eqb p "tmp";
     FileIOExt.pak_isopen := fun _ => true;
     FileIOExt.arr_add_ok := fun _ => true;
     FileIOExt.watcher_ready := false;
     FileIOExt.efsw_addwatch := fun _ => false |}.

(** A zip archive with one entry, of two bytes. *)
Definition demo_zip : FileIOExt.mz_zip_archive :=
  {| FileIOExt.mz_locate_file :=
       fun p => if String.eqb p "cfg.json" then Some 0 else None;
     FileIOExt.mz_uncomp_size := fun _ => 2;
     FileIOExt.mz_extract_to_mem :=
       fun idx => if idx =? 0 then Some ["{"; "}"]%byte else None |}.


(** A manager over [demo_table] whose first directory is monitored
    and has three reported paths, one of them not registered. *)
Definition reported_mgr : file_mgr :=
  {| vdirs := [arr_store (fio_vdir_initmon "data") REF_BACKARR
                 ["tex/a.dds"; "notes.txt"; "fx/b.glsl"]%string;
               demo_vdir];
     paks := []; mon_table := demo_table |}.

(** A manager with an empty registry whose second directory is
    monitored, with nothing reported. *)
Definition quiet_mgr : file_mgr :=
  {| vdirs := [demo_vdir; fio_vdir_initmon "data"]; paks := [];
     mon_table := ∅ |}.

End Examples.

(** * Properties *)

(** ** Machine-integer facts *)

Lemma u32_range (x : Z) : 0 <= u32 x < 2 ^ 32.
Proof. unfold u32. apply Z.mod_pos_bound. lia. Qed.

Lemma u32_small (x : Z) : 0 <= x < 2 ^ 32 -> u32 x = x.
Proof. intros Hx. unfold u32. apply Z.mod_small. exact Hx. Qed.

Lemma u32_idem (x : Z) : u32 (u32 x) = u32 x.
Proof. apply u32_small, u32_range. Qed.

Lemma u32_lor (a b : Z) : u32 (Z.lor a b) = Z.lor (u32 a) (u32 b).
Proof.
  unfold u32. rewrite <- !Z.land_ones by lia.
  apply Z.land_lor_distr_l.
Qed.

Lemma u32_add_l (a b : Z) : u32 (u32 a + b) = u32 (a + b).
Proof. unfold u32. apply Zplus_mod_idemp_l. Qed.

Lemma byte_val_range (b : byte) : 0 <= byte_val b < 256.
Proof.
  unfold byte_val. pose proof (Byte.to_N_bounded b) as Hb. lia.
Qed.

Lemma byte_shift_u32 (b : byte) (k : Z) :
  0 <= k <= 24 -> u32 (Z.shiftl (byte_val b) k) = Z.shiftl (byte_val b) k.
Proof.
  intros Hk. apply u32_small. rewrite Z.shiftl_mul_pow2 by lia.
  pose proof (byte_val_range b) as Hb.
  assert (H24 : 2 ^ k <= 2 ^ 24) by (apply Z.pow_le_mono_r; lia).
  assert (0 < 2 ^ k) by (apply Z.pow_pos_nonneg; lia).
  change (2 ^ 32) with (256 * 2 ^ 24). nia.
Qed.

(** ** The incremental hash as a byte-at-a-time fold *)

Module HashFacts.
Import Hash.

Lemma begin_pending_ok seed : pending_ok (hash_murmurincr_begin seed).
Proof. left. split; reflexivity. Qed.

Lemma with_size_pending_ok h s : pending_ok h -> pending_ok (with_size h s).
Proof. intros H. exact H. Qed.

Lemma mixtail_step_pending_ok h b :
  pending_ok h -> pending_ok (mixtail_step h b).
Proof.
  unfold pending_ok, mixtail_step.
  intros [[Hc _] | [Hc | [Hc | Hc]]]; rewrite Hc; cbn.
  - right. left. reflexivity.
  - right. right. left. reflexivity.
  - right. right. right. reflexivity.
  - left. split; reflexivity.
Qed.

Lemma mixtail_step_size h b : size (mixtail_step h b) = size h.
Proof.
  unfold mixtail_step, MMIX. destruct (_ =? 4); reflexivity.
Qed.

Lemma mixtail_step_with_size h b s :
  mixtail_step (with_size h s) b = with_size (mixtail_step h b) s.
Proof.
  unfold mixtail_step, with_size, MMIX; cbn.
  destruct (_ =? 4); reflexivity.
Qed.

Lemma feed_app h xs ys : feed h (xs ++ ys) = feed (feed h xs) ys.
Proof. unfold feed. apply fold_left_app. Qed.

Lemma feed_pending_ok bs : forall h, pending_ok h -> pending_ok (feed h bs).
Proof.
  induction bs as [|b bs IH]; intros h Hh; cbn; [exact Hh|].
  apply IH, mixtail_step_pending_ok, Hh.
Qed.

Lemma feed_size bs : forall h, size (feed h bs) = size h.
Proof.
  induction bs as [|b bs IH]; intros h; cbn; [reflexivity|].
  change (size (feed (mixtail_step h b) bs) = size h).
  rewrite IH. apply mixtail_step_size.
Qed.

Lemma feed_with_size bs : forall h s,
  feed (with_size h s) bs = with_size (feed h bs) s.
Proof.
  induction bs as [|b bs IH]; intros h s; cbn; [reflexivity|].
  rewrite mixtail_step_with_size. apply IH.
Qed.

(** Four bytes fed into a clear accumulator assemble the same word as
    the aligned read of the block loop. *)
Lemma feed_word h b0 b1 b2 b3 :
  cnt h = 0 -> tail h = 0 ->
  feed h [b0; b1; b2; b3] =
  {| hash := fst (MMIX (hash h) (getblock32 b0 b1 b2 b3));
     tail := 0; cnt := 0; size := size h |}.
Proof.
  intros Hc Ht. unfold feed; cbn [fold_left].
  unfold mixtail_step at 4. rewrite Hc, Ht. cbn [hash tail cnt size Z.eqb u32 Z.add Z.modulo].
  change (u32 (0 + 1) =? 4) with false. cbv iota.
  unfold mixtail_step at 3. cbn [hash tail cnt size].
  change (u32 (u32 (0 + 1) + 1) =? 4) with false. cbv iota.
  unfold mixtail_step at 2. cbn [hash tail cnt size].
  change (u32 (u32 (u32 (0 + 1) + 1) + 1) =? 4) with false. cbv iota.
  unfold mixtail_step. cbn [hash tail cnt size].
  change (u32 (u32 (u32 (u32 (0 + 1) + 1) + 1) + 1) =? 4) with true. cbv iota.
  change (u32 (0 + 1) * 8) with 8.
  change (u32 (u32 (0 + 1) + 1) * 8) with 16.
  change (u32 (u32 (u32 (0 + 1) + 1) + 1) * 8) with 24.
  change (0 * 8) with 0.
  rewrite !u32_lor, !u32_idem, !byte_shift_u32 by lia.
  rewrite Z.lor_0_l, Z.shiftl_0_r.
  unfold getblock32, MMIX. reflexivity.
Qed.

Lemma mixtail_loop_short data : forall h,
  (length data < 4)%nat ->
  mixtail_loop h data (Z.of_nat (length data)) = (feed h data, [], 0).
Proof.
  induction data as [|b data IH]; intros h Hlen; [reflexivity|].
  cbn [mixtail_loop]. cbn [length] in Hlen |- *.
  rewrite Nat2Z.inj_succ.
  destruct (Z.eqb_spec (Z.succ (Z.of_nat (length data))) 0) as [E|_]; [lia|].
  destruct (Z.ltb_spec (Z.succ (Z.of_nat (length data))) 4) as [_|E]; [|lia].
  cbn [negb andb orb].
  replace (u32 (Z.succ (Z.of_nat (length data)) - 1))
    with (Z.of_nat (length data)) by (rewrite u32_small; lia).
  rewrite IH by lia. reflexivity.
Qed.

Lemma mixtail_loop_feed data : forall h,
  pending_ok h -> Z.of_nat (length data) < 2 ^ 32 ->
  exists h' rest,
    mixtail_loop h data (Z.of_nat (length data))
      = (h', rest, Z.of_nat (length rest))
    /\ feed h data = feed h' rest
    /\ pending_ok h'
    /\ (rest = [] \/ (cnt h' = 0 /\ tail h' = 0)).
Proof.
  induction data as [|b data IH]; intros h Hok Hlen.
  - exists h, []. cbn. split; [reflexivity|]. split; [reflexivity|].
    split; [exact Hok|]. left. reflexivity.
  - cbn [mixtail_loop]. cbn [length] in Hlen |- *.
    rewrite Nat2Z.inj_succ in *.
    destruct (Z.eqb_spec (Z.succ (Z.of_nat (length data))) 0) as [E|_]; [lia|].
    cbn [negb andb].
    destruct ((Z.succ (Z.of_nat (length data)) <? 4) || negb (cnt h =? 0))
      eqn:Hcond.
    + replace (u32 (Z.succ (Z.of_nat (length data)) - 1))
        with (Z.of_nat (length data)) by (rewrite u32_small; lia).
      destruct (IH (mixtail_step h b)) as (h' & rest & E1 & E2 & E3 & E4).
      { apply mixtail_step_pending_ok, Hok. }
      { lia. }
      exists h', rest. repeat split; assumption.
    + exists h, (b :: data). cbn [length]. rewrite Nat2Z.inj_succ.
      split; [reflexivity|]. split; [reflexivity|]. split; [exact Hok|].
      right. apply orb_false_iff in Hcond as [_ Hc].
      apply negb_false_iff, Z.eqb_eq in Hc.
      destruct Hok as [[_ Ht] | Hn]; [split; assumption | lia].
Qed.

Lemma incr_blocks_feed (n : nat) : forall data h,
  (length data <= n)%nat -> cnt h = 0 -> tail h = 0 ->
  exists h' rest,
    incr_blocks h data (Z.of_nat (length data))
      = (h', rest, Z.of_nat (length rest))
    /\ feed h data = feed h' rest
    /\ cnt h' = 0 /\ tail h' = 0
    /\ (length rest < 4)%nat.
Proof.
  induction n as [|n IH]; intros data h Hn Hc Ht.
  - destruct data; [|cbn in Hn; lia].
    exists h, []. cbn. repeat split; try assumption; lia.
  - destruct data as [|b0 [|b1 [|b2 [|b3 rest]]]];
      try (eexists h, _; cbn [incr_blocks];
           repeat split; try eassumption; try reflexivity; cbn; lia).
    cbn [incr_blocks]. cbn [length] in Hn |- *.
    rewrite !Nat2Z.inj_succ.
    destruct (Z.leb_spec 4
      (Z.succ (Z.succ (Z.succ (Z.succ (Z.of_nat (length rest))))))) as [_|E];
      [|lia].
    replace (Z.succ (Z.succ (Z.succ (Z.succ (Z.of_nat (length rest))))) - 4)
      with (Z.of_nat (length rest)) by lia.
    change (feed h (b0 :: b1 :: b2 :: b3 :: rest))
      with (feed h ([b0; b1; b2; b3] ++ rest)).
    rewrite feed_app, (feed_word h b0 b1 b2 b3 Hc Ht).
    unfold MMIX at 1. cbv zeta. cbv iota. rewrite Ht, Hc.
    match goal with
    | |- context [incr_blocks ?h1 rest _] =>
        destruct (IH rest h1) as (h' & rest' & E1 & E2 & E3 & E4 & E5);
          [lia | reflexivity | reflexivity |]
    end.
    exists h', rest'. rewrite E1. split; [reflexivity|].
    split; [|repeat split; assumption].
    rewrite <- E2. unfold MMIX. reflexivity.
Qed.

(** [hash_murmurincr_add] consumes its chunk exactly as the
    byte-at-a-time fold does, whatever the pending state. *)
Lemma add_feed h data :
  pending_ok h -> Z.of_nat (length data) < 2 ^ 32 ->
  hash_murmurincr_add h data
  = feed (with_size h (u32 (size h + Z.of_nat (length data)))) data.
Proof.
  intros Hok Hlen. unfold hash_murmurincr_add, hash_mixtail.
  fold (with_size h (u32 (size h + Z.of_nat (length data)))).
  set (h0 := with_size h _).
  assert (Hok0 : pending_ok h0) by exact Hok.
  rewrite (u32_small (Z.of_nat (length data))) by lia.
  destruct (mixtail_loop_feed data h0 Hok0 Hlen)
    as (h1 & rest1 & E1 & F1 & Hok1 & Hrest1).
  rewrite E1, F1.
  destruct Hrest1 as [-> | [Hc1 Ht1]].
  - cbn. reflexivity.
  - destruct (incr_blocks_feed (length rest1) rest1 h1 (le_n _) Hc1 Ht1)
      as (h2 & rest2 & E2 & F2 & Hc2 & Ht2 & Hlen2).
    rewrite E2, F2.
    rewrite (u32_small (Z.of_nat (length rest2))) by lia.
    rewrite mixtail_loop_short by exact Hlen2. reflexivity.
Qed.

Lemma add_pending_ok h data :
  pending_ok h -> Z.of_nat (length data) < 2 ^ 32 ->
  pending_ok (hash_murmurincr_add h data).
Proof.
  intros Hok Hlen. rewrite add_feed by assumption.
  apply feed_pending_ok. exact Hok.
Qed.

Lemma with_size_with_size h s1 s2 :
  with_size (with_size h s1) s2 = with_size h s2.
Proof. reflexivity. Qed.

(** Adding the chunks one after the other is feeding their
    concatenation, with the byte counter advanced by the total length. *)
Lemma fold_add_feed chunks : forall h,
  pending_ok h -> 0 <= size h < 2 ^ 32 ->
  Forall (fun c => Z.of_nat (length c) < 2 ^ 32) chunks ->
  fold_left hash_murmurincr_add chunks h
  = feed (with_size h (u32 (size h + Z.of_nat (length (concat chunks)))))
         (concat chunks).
Proof.
  induction chunks as [|c chunks IH]; intros h Hok Hsz Hall.
  - cbn. rewrite Z.add_0_r, u32_small by exact Hsz.
    destruct h; reflexivity.
  - apply Forall_cons in Hall as [Hc Hall].
    cbn [fold_left concat].
    rewrite IH; [| apply add_pending_ok; assumption | | exact Hall ].
    + rewrite add_feed by assumption.
      rewrite feed_size. cbn [size with_size].
      rewrite length_app, Nat2Z.inj_add, feed_app.
      rewrite <- feed_with_size, with_size_with_size.
      rewrite u32_add_l, Z.add_assoc. reflexivity.
    + rewrite add_feed by assumption. rewrite feed_size. apply u32_range.
Qed.

End HashFacts.

(** ** Hashing: one call against the incremental interface *)

Module HashProps.
Import Hash.

(** The one-call function on the reference vectors of MurmurHash3
    (x86, 32 bit): the empty key with seeds 0 and 1, "abc" and "hello"
    with seed 0. *)
Example hash_murmur32_vectors :
  hash_murmur32 [] 0 = 0
  /\ hash_murmur32 [] 1 = 0x514E28B7
  /\ hash_murmur32 ["a"; "b"; "c"]%byte 0 = 0xB3DD93FA
  /\ hash_murmur32 (list_byte_of_string "hello") 0 = 0x248BFA47.
Proof. vm_compute. repeat split. Qed.

(** C1, as the code has it: however a byte string is cut into chunks,
    [begin]; [add] of each chunk in order; [end] gives the value that
    [begin]; one [add] of the whole string; [end] gives (each chunk and
    the whole string being shorter than 2^32 bytes, the range of the
    [uint] byte counters). *)
Theorem incremental_hash_split_invariant
  (seed : Z) (chunks : list (list byte)) :
  Forall (fun c => Z.of_nat (length c) < 2 ^ 32) chunks ->
  Z.of_nat (length (concat chunks)) < 2 ^ 32 ->
  hash_incremental seed chunks = hash_incremental seed [concat chunks].
Proof.
  intros Hall Hlen. unfold hash_incremental. f_equal.
  rewrite !HashFacts.fold_add_feed;
    try apply HashFacts.begin_pending_ok; try (cbn; lia); try assumption.
  - cbn [concat]. rewrite app_nil_r. reflexivity.
  - repeat constructor. exact Hlen.
Qed.

Lemma incremental_hash_split_invariant_witness :
  hash_incremental HSEED [["a"; "b"]; []; ["c"; "d"; "e"; "f"; "g"]]%byte
  = hash_incremental HSEED [["a"; "b"; "c"; "d"; "e"; "f"; "g"]]%byte.
Proof.
  apply (incremental_hash_split_invariant HSEED
           [["a"; "b"]; []; ["c"; "d"; "e"; "f"; "g"]]%byte).
  - repeat constructor; cbn; lia.
  - cbn; lia.
Defined.

(** C1, as the specification words it, fails: the one-call function is
    MurmurHash3 (x86, 32 bit) while the incremental interface is the
    MurmurHash2A mix, and the two disagree already on a five-byte
    string cut in two. *)
Lemma incremental_hash_differs_from_murmur32 :
  hash_incremental HSEED [["a"; "b"]; ["c"; "d"; "e"]]%byte
  <> hash_murmur32 ["a"; "b"; "c"; "d"; "e"]%byte HSEED.
Proof. vm_compute. discriminate. Qed.

End HashProps.

(** ** Change monitoring: watcher against poller *)

Module MonitorProps.
Import FileIO Examples.

Section WithPlatform.
Context {P : Platform}.

Lemma fio_find_file_spec files filepath :
  fio_find_file files filepath = true <-> filepath ∈ files.
Proof.
  induction files as [|f rest IH]; cbn.
  - split; [discriminate | intros H; inversion H].
  - destruct (String.eqb_spec f filepath) as [->|Hne].
    + split; [intros _; apply list_elem_of_here | reflexivity].
    + rewrite IH. split.
      * apply list_elem_of_further.
      * intros Hin. apply elem_of_cons in Hin as [Heq|Hin];
          [congruence | exact Hin].
Qed.

Lemma arr_deref_store_eq vd r l : arr_deref (arr_store vd r l) r = l.
Proof. destruct r; reflexivity. Qed.

Lemma arr_deref_store_ne vd r r' l :
  r <> r' -> arr_deref (arr_store vd r l) r' = arr_deref vd r'.
Proof. destruct r, r'; intros Hne; try reflexivity; contradiction. Qed.

Lemma arr_store_backbuff vd r l : backbuff (arr_store vd r l) = backbuff vd.
Proof. destruct r; reflexivity. Qed.

Lemma arr_store_frontbuff vd r l : frontbuff (arr_store vd r l) = frontbuff vd.
Proof. destruct r; reflexivity. Qed.

Lemma mon_swap_back vd : back_list (mon_swap vd) = front_list vd.
Proof. unfold back_list, front_list. cbn. destruct (frontbuff vd); reflexivity. Qed.

Lemma mon_swap_front vd : front_list (mon_swap vd) = back_list vd.
Proof. unfold back_list, front_list. cbn. destruct (backbuff vd); reflexivity. Qed.

(** What the watcher callback does to the two lists. *)
Lemma callback_lists vd action filename :
  backbuff vd <> frontbuff vd ->
  backbuff (fio_mon_callback vd action filename) = backbuff vd
  /\ frontbuff (fio_mon_callback vd action filename) = frontbuff vd
  /\ front_list (fio_mon_callback vd action filename) = front_list vd
  /\ back_list (fio_mon_callback vd action filename) =
     match action with
     | EFSW_MODIFIED | EFSW_MOVED =>
         if fio_find_file (back_list vd) (path_tounix filename)
         then back_list vd
         else back_list vd ++ [path_tounix filename]
     | _ => back_list vd
     end.
Proof.
  intros Hne. unfold fio_mon_callback, back_list, front_list.
  destruct action; try (repeat split; reflexivity);
    destruct (fio_find_file _ _); cbn [negb];
    rewrite ?arr_store_backbuff, ?arr_store_frontbuff,
            ?arr_deref_store_eq, ?arr_deref_store_ne by exact Hne;
    repeat split; reflexivity.
Qed.

Lemma mon_init_inv dir : mon_inv (mon_init dir).
Proof.
  unfold mon_inv, mon_init, back_list, front_list; cbn.
  split; [discriminate|]. split; [reflexivity | constructor].
Qed.

Lemma sched_step_inv tbl st ev : mon_inv st -> mon_inv (sched_step tbl st ev).
Proof.
  intros (Hne & Hidle & Hnodup). destruct ev as [action filename|].
  - destruct (callback_lists (mvd st) action filename Hne)
      as (Hb & Hf & Hfl & Hbl).
    unfold mon_inv. cbn [sched_step mvd pc].
    rewrite Hb, Hf, Hfl, Hbl. split; [exact Hne|]. split; [exact Hidle|].
    destruct action; try exact Hnodup;
      destruct (fio_find_file _ _) eqn:Hfind; try exact Hnodup;
      apply NoDup_app; (split; [exact Hnodup|]);
      (split; [|apply NoDup_singleton]);
      intros x Hx Hx'; apply list_elem_of_singleton in Hx' as ->;
      apply fio_find_file_spec in Hx; congruence.
  - unfold sched_step, poll_step.
    destruct (pc st) as [|c] eqn:Hpc.
    + unfold mon_inv. cbn [mvd pc]. rewrite mon_swap_back.
      split; [cbn; congruence|]. split; [discriminate|].
      rewrite (Hidle eq_refl). constructor.
    + fold (front_list (mvd st)).
      destruct (front_list (mvd st) !! c) as [filepath|].
      * unfold mon_inv; cbn.
        split; [exact Hne|]. split; [discriminate | exact Hnodup].
      * unfold mon_inv, back_list, front_list; cbn.
        rewrite arr_store_backbuff, arr_store_frontbuff,
                arr_deref_store_eq, arr_deref_store_ne by congruence.
        split; [exact Hne|]. split; [reflexivity | exact Hnodup].
Qed.

Lemma sched_run_inv tbl evs : forall st,
  mon_inv st -> mon_inv (sched_run tbl st evs).
Proof.
  induction evs as [|ev evs IH]; intros st Hinv; [exact Hinv|].
  apply IH, sched_step_inv, Hinv.
Qed.

(** C8: a watcher event appends the changed path (made a unix path) to
    the back list only when it is [EFSW_MODIFIED] or [EFSW_MOVED] and
    the path is not yet in that list; and whatever the interleaving of
    watcher events and poller steps after [fio_vdir_initmon], the back
    list holds no path twice. *)
Theorem back_list_never_has_duplicates
  (tbl : gmap Z mon_item) (dir : string) (evs : list sched_event)
  (action : efsw_action) (filename : string) :
  let st := sched_run tbl (mon_init dir) evs in
  NoDup (back_list (mvd st))
  /\ back_list (mvd (sched_step tbl st (EV_WATCH action filename))) =
     (if match action with
         | EFSW_MODIFIED | EFSW_MOVED =>
             negb (bool_decide (path_tounix filename ∈ back_list (mvd st)))
         | _ => false
         end
      then back_list (mvd st) ++ [path_tounix filename]
      else back_list (mvd st))
  /\ NoDup (back_list (mvd (sched_step tbl st (EV_WATCH action filename)))).
Proof.
  intros st.
  assert (Hinv : mon_inv st) by apply sched_run_inv, mon_init_inv.
  split; [apply Hinv|]. split; [|apply (sched_step_inv tbl st _ Hinv)].
  destruct Hinv as (Hne & _ & _).
  destruct (callback_lists (mvd st) action filename Hne) as (_ & _ & _ & Hbl).
  cbn [sched_step mvd]. rewrite Hbl.
  destruct action; try reflexivity;
    destruct (fio_find_file _ _) eqn:Hfind;
    case_bool_decide as Hin; cbn [negb]; try reflexivity;
    exfalso.
  all: try (apply fio_find_file_spec in Hfind; contradiction).
  all: apply fio_find_file_spec in Hin; congruence.
Qed.

(** *** Nothing lost, nothing dispatched twice *)

Lemma watched_paths_app evs1 evs2 :
  watched_paths (evs1 ++ evs2) = watched_paths evs1 ++ watched_paths evs2.
Proof. unfold watched_paths. apply flat_map_app. Qed.

Lemma watched_paths_polls n : watched_paths (repeat EV_POLL n) = [].
Proof. induction n as [|n IH]; [reflexivity | exact IH]. Qed.

Lemma sched_run_app tbl st evs1 evs2 :
  sched_run tbl st (evs1 ++ evs2)
  = sched_run tbl (sched_run tbl st evs1) evs2.
Proof. unfold sched_run. apply fold_left_app. Qed.

Lemma mon_dispatch_registered tbl filepath :
  is_Some (tbl !! Hash.hash_str filepath) ->
  map call_path (mon_dispatch tbl filepath) = [filepath]
  /\ Forall (call_registered tbl) (mon_dispatch tbl filepath).
Proof.
  intros [mitem Hitem]. unfold mon_dispatch. rewrite Hitem.
  split; [reflexivity|]. repeat constructor. exact Hitem.
Qed.

(** The accounting invariant, relative to the paths [W] the watcher has
    asked to append so far. *)
Lemma sched_step_accounts tbl st ev W :
  NoDup (W ++ watched_paths [ev]) ->
  (forall p, p ∈ W -> is_Some (tbl !! Hash.hash_str p)) ->
  mon_inv st ->
  dispatched st ++ pending st = W ->
  Forall (call_registered tbl) (calls st) ->
  dispatched (sched_step tbl st ev) ++ pending (sched_step tbl st ev)
    = W ++ watched_paths [ev]
  /\ Forall (call_registered tbl) (calls (sched_step tbl st ev)).
Proof.
  intros Hnodup Hreg (Hne & Hidle & _) Hacc Hcalls.
  destruct ev as [action filename|].
  - destruct (callback_lists (mvd st) action filename Hne)
      as (_ & _ & Hfl & Hbl).
    split; [|exact Hcalls].
    unfold dispatched, pending in *. cbn [sched_step mvd pc calls].
    rewrite Hfl, Hbl.
    assert (Hfresh : forall p, NoDup (W ++ [p]) ->
              fio_find_file (back_list (mvd st)) p = false).
    { intros p Hnd. apply NoDup_app in Hnd as (_ & Hdisj & _).
      destruct (fio_find_file _ p) eqn:Hfind; [|reflexivity].
      apply fio_find_file_spec in Hfind. exfalso.
      apply (Hdisj p); [|apply list_elem_of_here].
      rewrite <- Hacc. rewrite !elem_of_app. right. right. exact Hfind. }
    destruct action; cbn [watched_paths flat_map app] in *;
      rewrite ?app_nil_r in *; try exact Hacc;
      rewrite (Hfresh _ Hnodup), <- Hacc, <- !app_assoc; reflexivity.
  - cbn [watched_paths flat_map]. rewrite app_nil_r.
    unfold dispatched, pending in *. cbn [sched_step]. unfold poll_step.
    destruct (pc st) as [|c] eqn:Hpc.
    + cbn [mvd pc calls]. rewrite mon_swap_back, mon_swap_front.
      rewrite (Hidle eq_refl) in *. cbn [drop app] in *.
      rewrite app_nil_r. split; [exact Hacc | exact Hcalls].
    + fold (front_list (mvd st)).
      destruct (front_list (mvd st) !! c) as [filepath|] eqn:Hlook.
      * cbn [mvd pc calls].
        rewrite (drop_S _ _ _ Hlook) in Hacc.
        assert (Hin : filepath ∈ W).
        { rewrite <- Hacc. rewrite !elem_of_app. right. left.
          apply list_elem_of_here. }
        destruct (mon_dispatch_registered tbl filepath (Hreg _ Hin))
          as [Hpath Hok].
        rewrite map_app, Hpath. split.
        -- rewrite <- Hacc, <- !app_assoc. reflexivity.
        -- apply Forall_app. split; assumption.
      * cbn [mvd pc calls]. split; [|exact Hcalls].
        unfold front_list, back_list.
        rewrite arr_store_backbuff, arr_store_frontbuff,
                arr_deref_store_eq, arr_deref_store_ne by congruence.
        fold (back_list (mvd st)).
        apply lookup_ge_None in Hlook.
        rewrite (drop_ge _ _ Hlook) in Hacc. exact Hacc.
Qed.

Lemma sched_run_accounts tbl evs : forall st W,
  NoDup (W ++ watched_paths evs) ->
  (forall p, p ∈ W ++ watched_paths evs ->
     is_Some (tbl !! Hash.hash_str p)) ->
  mon_inv st ->
  dispatched st ++ pending st = W ->
  Forall (call_registered tbl) (calls st) ->
  dispatched (sched_run tbl st evs) ++ pending (sched_run tbl st evs)
    = W ++ watched_paths evs
  /\ Forall (call_registered tbl) (calls (sched_run tbl st evs)).
Proof.
  induction evs as [|ev evs IH]; intros st W Hnodup Hreg Hinv Hacc Hcalls.
  - cbn. rewrite app_nil_r. split; assumption.
  - change (ev :: evs) with ([ev] ++ evs) in *.
    rewrite watched_paths_app, app_assoc in *.
    destruct (sched_step_accounts tbl st ev W) as [Hacc1 Hcalls1];
      try assumption.
    { apply NoDup_app in Hnodup as (Hnd & _ & _). exact Hnd. }
    { intros p Hp. apply Hreg. rewrite elem_of_app. left.
      rewrite elem_of_app. left. exact Hp. }
    apply (IH (sched_step tbl st ev)); try assumption.
    apply sched_step_inv, Hinv.
Qed.

(** Left alone, the poller reaches the end of its dispatch loop: it
    has then called the callbacks of what was left of the front list,
    in order, and cleared that list. *)
Lemma poller_finishes_loop_state tbl (k : nat) : forall st c,
  pc st = POLL_LOOP c ->
  (length (front_list (mvd st)) <= c + k)%nat ->
  exists n,
    sched_run tbl st (repeat EV_POLL n)
    = {| mvd := arr_store (mvd st) (frontbuff (mvd st)) [];
         pc := POLL_IDLE;
         calls := calls st
                  ++ flat_map (mon_dispatch tbl)
                       (drop c (front_list (mvd st))) |}.
Proof.
  induction k as [|k IH]; intros st c Hpc Hlen.
  - exists 1%nat. cbn. unfold poll_step. rewrite Hpc.
    fold (front_list (mvd st)).
    rewrite (proj2 (lookup_ge_None _ _)) by lia.
    rewrite drop_ge by lia. cbn. rewrite app_nil_r. reflexivity.
  - destruct (front_list (mvd st) !! c) as [filepath|] eqn:Hlook.
    + destruct (IH {| mvd := mvd st; pc := POLL_LOOP (S c);
                      calls := calls st ++ mon_dispatch tbl filepath |}
                   (S c)) as (n & Hrun); [reflexivity | cbn; lia |].
      exists (S n).
      change (repeat EV_POLL (S n)) with ([EV_POLL] ++ repeat EV_POLL n).
      rewrite sched_run_app.
      replace (sched_run tbl st [EV_POLL])
        with {| mvd := mvd st; pc := POLL_LOOP (S c);
                calls := calls st ++ mon_dispatch tbl filepath |}.
      * rewrite Hrun. cbn [mvd calls].
        rewrite (drop_S _ _ _ Hlook). cbn [flat_map].
        rewrite <- app_assoc. reflexivity.
      * cbn. unfold poll_step. rewrite Hpc.
        fold (front_list (mvd st)). rewrite Hlook. reflexivity.
    + exists 1%nat. cbn. unfold poll_step. rewrite Hpc.
      fold (front_list (mvd st)). rewrite Hlook.
      apply lookup_ge_None in Hlook. rewrite drop_ge by exact Hlook.
      cbn. rewrite app_nil_r. reflexivity.
Qed.

Lemma poller_finishes_loop tbl (k : nat) st c :
  pc st = POLL_LOOP c ->
  (length (front_list (mvd st)) <= c + k)%nat ->
  backbuff (mvd st) <> frontbuff (mvd st) ->
  exists n,
    pc (sched_run tbl st (repeat EV_POLL n)) = POLL_IDLE
    /\ back_list (mvd (sched_run tbl st (repeat EV_POLL n)))
       = back_list (mvd st).
Proof.
  intros Hpc Hlen Hne.
  destruct (poller_finishes_loop_state tbl k st c Hpc Hlen) as (n & Hrun).
  exists n. rewrite Hrun. cbn. split; [reflexivity|]. unfold back_list.
  rewrite arr_store_backbuff, arr_deref_store_ne by congruence.
  reflexivity.
Qed.

(** The poller's steps, run without a watcher event in between, are
    the body of the loop of [fio_mon_update] for the directory. *)
Lemma poller_steps_are_mon_update tbl vd cs :
  monitor vd = true ->
  exists n,
    sched_run tbl {| mvd := vd; pc := POLL_IDLE; calls := cs |}
      (repeat EV_POLL n)
    = {| mvd := fst (mon_update_vdir tbl vd); pc := POLL_IDLE;
         calls := cs ++ snd (mon_update_vdir tbl vd) |}.
Proof.
  intros Hmon.
  destruct (poller_finishes_loop_state tbl
              (length (front_list (mon_swap vd)))
              {| mvd := mon_swap vd; pc := POLL_LOOP 0; calls := cs |} 0)
    as (n & Hrun); [reflexivity | cbn; lia |].
  exists (S n).
  change (repeat EV_POLL (S n)) with ([EV_POLL] ++ repeat EV_POLL n).
  rewrite sched_run_app.
  change (sched_run tbl {| mvd := vd; pc := POLL_IDLE; calls := cs |}
            [EV_POLL])
    with {| mvd := mon_swap vd; pc := POLL_LOOP 0; calls := cs |}.
  rewrite Hrun. unfold mon_update_vdir. rewrite Hmon. reflexivity.
Qed.

Lemma poller_drains tbl st :
  mon_inv st ->
  exists n, pending (sched_run tbl st (repeat EV_POLL n)) = [].
Proof.
  assert (Hfrom_idle : forall st0, mon_inv st0 -> pc st0 = POLL_IDLE ->
            exists n, pending (sched_run tbl st0 (repeat EV_POLL n)) = []).
  { intros st0 Hinv0 Hpc0.
    pose proof Hinv0 as (Hne0 & Hidle0 & _).
    set (st1 := sched_step tbl st0 EV_POLL).
    assert (Hinv1 : mon_inv st1) by apply sched_step_inv, Hinv0.
    assert (Hpc1 : pc st1 = POLL_LOOP 0).
    { unfold st1. cbn. unfold poll_step. rewrite Hpc0. reflexivity. }
    assert (Hback1 : back_list (mvd st1) = []).
    { unfold st1. cbn. unfold poll_step. rewrite Hpc0. cbn [mvd].
      rewrite mon_swap_back. apply Hidle0, Hpc0. }
    destruct (poller_finishes_loop tbl (length (front_list (mvd st1))) st1 0)
      as (n & Hidle2 & Hback2); [exact Hpc1 | lia | apply Hinv1 |].
    exists (S n). change (repeat EV_POLL (S n)) with ([EV_POLL] ++ repeat EV_POLL n).
    rewrite sched_run_app. change (sched_run tbl st0 [EV_POLL]) with st1.
    assert (Hinv2 : mon_inv (sched_run tbl st1 (repeat EV_POLL n)))
      by apply sched_run_inv, Hinv1.
    unfold pending. rewrite Hidle2, Hback2, Hback1.
    destruct Hinv2 as (_ & Hfront2 & _). rewrite (Hfront2 Hidle2).
    reflexivity. }
  intros Hinv. destruct (pc st) as [|c] eqn:Hpc.
  - apply Hfrom_idle; assumption.
  - destruct (poller_finishes_loop tbl (length (front_list (mvd st))) st c)
      as (n1 & Hidle1 & _); [exact Hpc | lia | apply Hinv |].
    destruct (Hfrom_idle (sched_run tbl st (repeat EV_POLL n1)))
      as (n2 & Hdone); [apply sched_run_inv, Hinv | exact Hidle1 |].
    exists (n1 + n2)%nat. rewrite repeat_app, sched_run_app. exact Hdone.
Qed.

(** C4: take any interleaving of watcher events and poller steps on a
    monitored directory, starting after [fio_vdir_initmon], in which
    the watcher reports distinct paths, all of them registered.  Then
    the paths dispatched so far followed by the paths still pending (in
    what is left of the front list, then in the back list) are exactly
    the reported paths, each once: none is lost and none is dispatched
    twice; every call went through the registry entry of its path; and
    letting the poller run on, all the reported paths end up
    dispatched, each exactly once. *)
Theorem monitor_dispatches_each_path_once
  (tbl : gmap Z mon_item) (dir : string) (evs : list sched_event) :
  NoDup (watched_paths evs) ->
  (forall p, p ∈ watched_paths evs -> is_Some (tbl !! Hash.hash_str p)) ->
  let st := sched_run tbl (mon_init dir) evs in
  dispatched st ++ pending st = watched_paths evs
  /\ NoDup (dispatched st)
  /\ Forall (call_registered tbl) (calls st)
  /\ exists n,
       dispatched (sched_run tbl st (repeat EV_POLL n)) = watched_paths evs
       /\ pending (sched_run tbl st (repeat EV_POLL n)) = [].
Proof.
  intros Hnodup Hreg st.
  destruct (sched_run_accounts tbl evs (mon_init dir) [])
    as [Hacc Hcalls]; try assumption.
  { apply mon_init_inv. }
  { reflexivity. }
  { constructor. }
  cbn [app] in Hacc. fold st in Hacc, Hcalls.
  split; [exact Hacc|].
  split.
  { rewrite <- Hacc in Hnodup. apply NoDup_app in Hnodup as (Hnd & _ & _).
    exact Hnd. }
  split; [exact Hcalls|].
  assert (Hinv : mon_inv st) by apply sched_run_inv, mon_init_inv.
  destruct (poller_drains tbl st Hinv) as (n & Hdone).
  exists n. split; [|exact Hdone].
  destruct (sched_run_accounts tbl (repeat EV_POLL n) st (watched_paths evs))
    as [Hacc' _]; try assumption;
    rewrite ?watched_paths_polls, ?app_nil_r; try assumption.
  rewrite watched_paths_polls, app_nil_r, Hdone, app_nil_r in Hacc'.
  exact Hacc'.
Qed.

End WithPlatform.
Lemma monitor_dispatches_each_path_once_witness :
  let st := sched_run (P:=lp64_debug) demo_table (mon_init "data")
              demo_schedule in
  dispatched st ++ pending st = ["tex/a.dds"; "fx/b.glsl"]%string
  /\ exists n,
       dispatched (sched_run (P:=lp64_debug) demo_table st (repeat EV_POLL n))
       = ["tex/a.dds"; "fx/b.glsl"]%string.
Proof.
  destruct (monitor_dispatches_each_path_once (P:=lp64_debug)
              demo_table "data" demo_schedule)
    as (Hacc & _ & _ & n & Hall & _).
  - vm_compute. apply NoDup_cons. split.
    + intros Hin. apply list_elem_of_singleton in Hin. discriminate Hin.
    + apply NoDup_singleton.
  - intros p Hin. vm_compute in Hin.
    apply elem_of_cons in Hin as [-> | Hin];
      [|apply list_elem_of_singleton in Hin as ->];
      vm_compute; eexists; reflexivity.
  - split; [exact Hacc|]. exists n. exact Hall.
Defined.

End MonitorProps.

(** ** Memory-backed files *)

Module FileIOProps.
Import FileIO Examples.

Section WithPlatform.
Context {P : Platform}.

Lemma size_mod_ge : 2 ^ 32 <= 2 ^ size_bits.
Proof. destruct size_bits_ok as [-> | ->]; lia. Qed.

Lemma szt_range (x : Z) : 0 <= szt x < 2 ^ size_bits.
Proof. unfold szt. apply Z.mod_pos_bound. pose proof size_mod_ge. lia. Qed.

Lemma szt_small (x : Z) : 0 <= x < 2 ^ size_bits -> szt x = x.
Proof. intros Hx. unfold szt. apply Z.mod_small. exact Hx. Qed.

Lemma szt_le (x : Z) : 0 <= x -> szt x <= x.
Proof.
  intros Hx. unfold szt. apply Z.mod_le; [exact Hx|].
  pose proof size_mod_ge. lia.
Qed.



Lemma realloc_block a (h : gmap N (list byte)) ptr sz p h1 :
  A_REALLOC a h ptr sz = Some (p, h1) ->
  exists block, h1 !! p = Some block /\ length block = Z.to_nat sz.
Proof.
  unfold A_REALLOC. destruct (can_alloc a h sz); [|discriminate].
  intros [= <- <-]. eexists. split; [apply lookup_insert_eq|].
  apply length_resize.
Qed.

Lemma writemem_copy_bounds s f data write_sz items_cnt s' f' n :
  0 <= offset (fdata f) -> 0 <= write_sz ->
  writemem_copy s f data write_sz items_cnt = Some (s', f', n) ->
  exists buf block,
    buffer (fdata f) = Some buf /\ heap s !! buf = Some block
    /\ offset (fdata f) + write_sz <= Z.of_nat (length block)
    /\ max_size (fdata f') = max_size (fdata f)
    /\ offset (fdata f') = szt (offset (fdata f) + write_sz)
    /\ size (header f') =
       (if size (header f) <? szt (offset (fdata f) + write_sz)
        then szt (offset (fdata f) + write_sz) else size (header f))
    /\ buffer (fdata f') = Some buf
    /\ n = items_cnt.
Proof.
  intros Hofs Hw. unfold writemem_copy.
  destruct (buffer (fdata f)) as [buf|]; [|discriminate].
  destruct (heap s !! buf) as [block|] eqn:Hblock; [|discriminate].
  unfold memcpy_to.
  destruct (_ && _) eqn:Hfit; [|discriminate].
  intros [= <- <- <-]. apply andb_true_iff in Hfit as [_ Hfit].
  apply Z.leb_le in Hfit.
  exists buf, block. cbn. repeat split; try reflexivity; assumption.
Qed.

(** What a failed growth does: nothing is copied and 0 is returned, but
    the result of the failed [A_REALLOC] has already been stored in
    [fdata->buffer]. *)
Lemma writemem_realloc_failure s f a data item_size items_cnt :
  (max_size (fdata f)
     <? szt (szt (item_size * items_cnt) + offset (fdata f))) = true ->
  alloc (fdata f) = Some a ->
  (forall sz, A_REALLOC a (heap s) (buffer (fdata f)) sz = None) ->
  fio_writemem s f data item_size items_cnt
  = Some (s, set_buffer f None (max_size (fdata f)), 0).
Proof.
  intros Hgrow Halloc Hfail. unfold fio_writemem.
  rewrite Hgrow, Halloc, Hfail. reflexivity.
Qed.

(** One write keeps the sizes of the handle in order. *)
Lemma writemem_step s f data item_size items_cnt s' f' n :
  mem_inv f ->
  fio_writemem s f data item_size items_cnt = Some (s', f', n) ->
  mem_inv f' /\ max_size (fdata f) <= max_size (fdata f').
Proof.
  intros [Hofs Hcap]. unfold fio_writemem.
  set (write_sz := szt (item_size * items_cnt)).
  assert (Hw : 0 <= write_sz) by apply szt_range.
  destruct (Z.ltb_spec (max_size (fdata f)) (szt (write_sz + offset (fdata f))))
    as [Hgrow|Hfit].
  - destruct (alloc (fdata f)) as [a|]; [|discriminate].
    destruct (A_REALLOC _ _ _ _) as [[buf h1]|] eqn:Hre.
    + intros Hcopy.
      apply realloc_block in Hre as (block & Hblock & Hlen).
      apply writemem_copy_bounds in Hcopy
        as (buf' & block' & Hb & Hh & Hbound & Hmax & Hoff & Hsz & _ & _);
        [|exact Hofs|exact Hw].
      cbn in Hb, Hh, Hbound, Hmax, Hoff, Hsz.
      injection Hb as <-. rewrite Hblock in Hh. injection Hh as <-.
      rewrite Hlen, Z2Nat.id in Hbound by apply szt_range.
      rewrite (Z.add_comm _ (max_size (fdata f))) in Hbound.
      pose proof (szt_le (write_sz + offset (fdata f)) ltac:(lia)) as Hle.
      pose proof (szt_le (offset (fdata f) + write_sz) ltac:(lia)) as Hle'.
      unfold mem_inv. rewrite Hmax, Hoff, Hsz.
      split; [split; [apply szt_range|]|lia].
      destruct (_ <? _); lia.
    + intros [= <- <- <-]. unfold mem_inv. cbn. lia.
  - intros Hcopy.
    apply writemem_copy_bounds in Hcopy
      as (buf' & block' & _ & _ & _ & Hmax & Hoff & Hsz & _ & _);
      [|exact Hofs|exact Hw].
    unfold mem_inv. rewrite Hmax, Hoff, Hsz.
    split; [split; [apply szt_range|]|lia].
    rewrite (Z.add_comm (offset (fdata f))).
    destruct (Z.ltb_spec (size (header f)) (szt (write_sz + offset (fdata f))));
      lia.
Qed.

Lemma write_all_inv ws : forall s f s' f',
  mem_inv f ->
  write_all s f ws = Some (s', f') ->
  mem_inv f' /\ max_size (fdata f) <= max_size (fdata f').
Proof.
  induction ws as [|[[data isz] cnt] ws IH]; intros s f s' f' Hinv; cbn.
  - intros [= <- <-]. split; [exact Hinv|lia].
  - destruct (fio_writemem s f data isz cnt) as [[[s1 f1] n]|] eqn:Hw;
      [|discriminate].
    intros Hrest.
    destruct (writemem_step _ _ _ _ _ _ _ _ Hinv Hw) as [Hinv1 Hmono1].
    destruct (IH _ _ _ _ Hinv1 Hrest) as [Hinv' Hmono'].
    split; [exact Hinv'|lia].
Qed.

(** The capacity after a growth, when the sizes at hand stay clear of
    the top of [size_t]. *)
Lemma writemem_growth s f data item_size items_cnt s' f' n :
  0 <= offset (fdata f) -> 0 <= max_size (fdata f) ->
  0 <= item_size * items_cnt ->
  offset (fdata f) + item_size * items_cnt + MEM_BLOCK_SIZE < 2 ^ size_bits ->
  max_size (fdata f) < offset (fdata f) + item_size * items_cnt ->
  fio_writemem s f data item_size items_cnt = Some (s', f', n) ->
  buffer (fdata f') <> None ->
  max_size (fdata f') =
    max_size (fdata f)
    + ((offset (fdata f) + item_size * items_cnt - max_size (fdata f))
         / MEM_BLOCK_SIZE + 1) * MEM_BLOCK_SIZE.
Proof.
  intros Hofs Hmax Hw Hfit Hover. unfold fio_writemem.
  unfold MEM_BLOCK_SIZE in *.
  rewrite (szt_small (item_size * items_cnt)) by lia.
  rewrite (szt_small (item_size * items_cnt + offset (fdata f))) by lia.
  destruct (Z.ltb_spec (max_size (fdata f))
              (item_size * items_cnt + offset (fdata f))) as [_|?]; [|lia].
  destruct (alloc (fdata f)) as [a|]; [|discriminate].
  set (g := item_size * items_cnt + offset (fdata f) - max_size (fdata f)).
  assert (Hg : 0 < g) by (unfold g; lia).
  assert (Hdiv : 0 <= g / 4096 /\ 4096 * (g / 4096) <= g).
  { split; [apply Z.div_pos; lia|]. apply Z.mul_div_le. lia. }
  rewrite (szt_small g) by (unfold g; lia).
  rewrite (szt_small (g / 4096 + 1)) by (unfold g in *; lia).
  rewrite (szt_small ((g / 4096 + 1) * 4096)) by (unfold g in *; lia).
  destruct (A_REALLOC _ _ _ _) as [[buf h1]|].
  - intros Hcopy _.
    apply writemem_copy_bounds in Hcopy
      as (_ & _ & _ & _ & _ & Hmax' & _); [|exact Hofs|lia].
    rewrite Hmax'. cbn [set_buffer fdata max_size].
    rewrite szt_small by (unfold g in *; lia).
    replace (offset (fdata f) + item_size * items_cnt - max_size (fdata f))
      with g by (unfold g; lia).
    reflexivity.
  - intros [= <- <- <-] Hbuf. cbn in Hbuf. congruence.
Qed.

(** C6, as the code has it: along any run of writes on a
    memory-backed file whose capacity covers its size, before and after
    each write [w] of the run the capacity has not decreased and covers
    the size; and when [w] overflows the capacity and its reallocation
    succeeds, the new capacity is the old one plus
    [(shortfall / MEM_BLOCK_SIZE + 1) * MEM_BLOCK_SIZE], the least
    multiple of the block size strictly above the shortfall. *)
Theorem write_capacity_growth
  (s : sys) (f : file) (ws : list (list byte * Z * Z))
  (data : list byte) (item_size items_cnt : Z)
  (s1 : sys) (f1 : file) (s2 : sys) (f2 : file) :
  mem_inv f ->
  write_all s f ws = Some (s1, f1) ->
  write_all s1 f1 [(data, item_size, items_cnt)] = Some (s2, f2) ->
  (max_size (fdata f) <= max_size (fdata f1)
   /\ max_size (fdata f1) <= max_size (fdata f2))
  /\ (size (header f1) <= max_size (fdata f1)
      /\ size (header f2) <= max_size (fdata f2))
  /\ (0 <= max_size (fdata f1) -> 0 <= item_size * items_cnt ->
      offset (fdata f1) + item_size * items_cnt + MEM_BLOCK_SIZE
        < 2 ^ size_bits ->
      max_size (fdata f1) < offset (fdata f1) + item_size * items_cnt ->
      buffer (fdata f2) <> None ->
      max_size (fdata f2) =
        max_size (fdata f1)
        + ((offset (fdata f1) + item_size * items_cnt - max_size (fdata f1))
             / MEM_BLOCK_SIZE + 1) * MEM_BLOCK_SIZE).
Proof.
  intros Hinv Hrun Hlast.
  destruct (write_all_inv _ _ _ _ _ Hinv Hrun) as [Hinv1 Hmono1].
  destruct (write_all_inv _ _ _ _ _ Hinv1 Hlast) as [Hinv2 Hmono2].
  split; [split; assumption|].
  split; [split; [apply Hinv1 | apply Hinv2]|].
  intros Hmax Hw Hfit Hover Hbuf.
  cbn in Hlast.
  destruct (fio_writemem s1 f1 data item_size items_cnt)
    as [[[s2' f2'] n]|] eqn:Hwrite; [|discriminate].
  injection Hlast as <- <-.
  eapply writemem_growth; try eassumption. apply Hinv1.
Qed.

(** *** Write, rewind, read *)

Lemma createmem_ok (s : sys) a name id :
  pool_room (memfile_alloc s) ->
  can_alloc a (heap s) MEM_BLOCK_SIZE = true ->
  exists file_buf buf pool,
    fio_createmem s a name id =
      ({| heap := <[buf := replicate (Z.to_nat MEM_BLOCK_SIZE) "000"%byte]>
                    (heap s);
          memfile_alloc := pool |},
       Some {| slot := file_buf;
               header := {| type := FILE_TYPE_MEM; path := name; size := 0;
                            mode := FILE_MODE_WRITE;
                            read_fn := Some READ_MEM;
                            write_fn := Some WRITE_MEM |};
               fdata := {| alloc := Some a; buffer := Some buf; offset := 0;
                           max_size := MEM_BLOCK_SIZE; mem_id := id |} |}).
Proof.
  intros Hroom Hcan. unfold fio_createmem, fio_alloc_membuff, mem_pool_alloc.
  destruct (decide _) as [_|Hno]; [|contradiction].
  unfold A_ALLOC. cbn [heap]. rewrite Hcan.
  do 3 eexists. reflexivity.
Qed.

Lemma writemem_copy_at_start s f (data : list byte) buf block :
  buffer (fdata f) = Some buf ->
  heap s !! buf = Some block ->
  offset (fdata f) = 0 ->
  (length data <= length block)%nat ->
  Z.of_nat (length data) < 2 ^ size_bits ->
  exists s' f',
    writemem_copy s f data (Z.of_nat (length data)) (Z.of_nat (length data))
      = Some (s', f', Z.of_nat (length data))
    /\ heap s' !! buf = Some (data ++ drop (length data) block)
    /\ buffer (fdata f') = Some buf
    /\ offset (fdata f') = Z.of_nat (length data)
    /\ size (header f') =
       (if size (header f) <? Z.of_nat (length data)
        then Z.of_nat (length data) else size (header f))
    /\ read_fn (header f') = read_fn (header f).
Proof.
  intros Hbuf Hblock Hofs Hlen Hfit. unfold writemem_copy, memcpy_to.
  rewrite Hbuf, Hblock, Hofs, !Z.add_0_l.
  rewrite (szt_small (Z.of_nat (length data))) by lia.
  destruct (Z.leb_spec (Z.of_nat (length data)) (Z.of_nat (length data)));
    [|lia].
  destruct (Z.leb_spec (Z.of_nat (length data)) (Z.of_nat (length block)));
    [|lia].
  cbn [andb]. do 2 eexists. split; [reflexivity|]. cbn.
  rewrite lookup_insert_eq, Nat2Z.id, take_0, firstn_all.
  repeat split; reflexivity.
Qed.

Lemma readmem_from_start s f (data rest : list byte) buf :
  buffer (fdata f) = Some buf ->
  heap s !! buf = Some (data ++ rest) ->
  offset (fdata f) = 0 ->
  size (header f) = Z.of_nat (length data) ->
  Z.of_nat (length data) < 2 ^ size_bits ->
  exists f',
    fio_readmem s f 1 (Z.of_nat (length data))
      = Some (f', data, Z.of_nat (length data)).
Proof.
  intros Hbuf Hblock Hofs Hsize Hfit. unfold fio_readmem, memcpy_from.
  rewrite Hbuf, Hblock, Hofs, Hsize. cbn [Z.eqb].
  rewrite Z.mul_1_l, Z.add_0_r, Z.add_0_l, Z.div_1_r.
  rewrite !(szt_small (Z.of_nat (length data))) by lia.
  rewrite Z.ltb_irrefl.
  destruct (Z.eqb_spec (Z.of_nat (length data)) 0) as [Hz|Hnz].
  - destruct data; [|cbn in Hz; lia]. eexists. reflexivity.
  - rewrite length_app, Nat2Z.inj_add.
    destruct (Z.leb_spec (Z.of_nat (length data))
                (Z.of_nat (length data) + Z.of_nat (length rest))); [|lia].
    eexists. rewrite Nat2Z.id. change (Z.to_nat 0) with 0%nat.
    rewrite drop_0, take_app_length. reflexivity.
Qed.

(** C7: on a platform where the allocator and the pool serve the
    requests, writing any [N] bytes ([N] below the top of [size_t] by
    one block) to a fresh memory file, seeking to [SEEK_MODE_START]
    with offset 0 and reading [N] items of size one returns the bytes
    written and the count [N]; every step returns. *)
Theorem memfile_write_seek_read_roundtrip
  (s : sys) (a : allocator) (name : string) (id : Z) (data : list byte) :
  (forall h sz, can_alloc a h sz = true) ->
  pool_room (memfile_alloc s) ->
  Z.of_nat (length data) + MEM_BLOCK_SIZE < 2 ^ size_bits ->
  exists s1 f1 s2 f2 f3 f4,
    fio_createmem s a name id = (s1, Some f1)
    /\ fio_write s1 f1 data 1 (Z.of_nat (length data))
       = Some (s2, f2, Z.of_nat (length data))
    /\ fio_seek f2 SEEK_MODE_START 0 = Some f3
    /\ fio_read s2 f3 1 (Z.of_nat (length data))
       = Some (f4, data, Z.of_nat (length data)).
Proof.
  intros Hcan Hroom Hfit. unfold MEM_BLOCK_SIZE in Hfit.
  destruct (createmem_ok s a name id Hroom (Hcan _ _))
    as (file_buf & buf & pool & Hcreate).
  rewrite Hcreate. do 2 eexists.
  set (s1 := {| heap := _; memfile_alloc := pool |}).
  set (f1 := {| slot := file_buf; header := _; fdata := _ |}).
  set (N := Z.of_nat (length data)) in *.
  assert (Hwrite : exists s2 f2 buf2 rest,
    fio_writemem s1 f1 data 1 N = Some (s2, f2, N)
    /\ heap s2 !! buf2 = Some (data ++ rest)
    /\ buffer (fdata f2) = Some buf2
    /\ offset (fdata f2) = N
    /\ size (header f2) = N
    /\ read_fn (header f2) = Some READ_MEM).
  { unfold fio_writemem. cbn [f1 fdata header max_size offset alloc buffer].
    rewrite Z.mul_1_l, Z.add_0_r, !(szt_small N) by (unfold N; lia).
    unfold MEM_BLOCK_SIZE.
    destruct (Z.ltb_spec 4096 N) as [Hgrow|Hsmall].
    - set (g := N - 4096).
      assert (Hdiv : 0 <= g / 4096 /\ 4096 * (g / 4096) <= g
                     /\ g < 4096 * (g / 4096) + 4096).
      { split; [apply Z.div_pos; unfold g; lia|].
        split; [apply Z.mul_div_le; lia|].
        pose proof (Z.mul_succ_div_gt g 4096 ltac:(lia)). lia. }
      rewrite (szt_small g) by (unfold g, N in *; lia).
      rewrite (szt_small (g / 4096 + 1)) by (unfold g, N in *; lia).
      rewrite (szt_small ((g / 4096 + 1) * 4096)) by (unfold g, N in *; lia).
      rewrite (szt_small ((g / 4096 + 1) * 4096 + 4096))
        by (unfold g, N in *; lia).
      unfold A_REALLOC. rewrite Hcan.
      set (cap := (g / 4096 + 1) * 4096 + 4096).
      set (old := default [] (heap s1 !! buf)).
      set (h0 := delete buf (heap s1)).
      set (block := resize (Z.to_nat cap) "000"%byte old).
      edestruct (writemem_copy_at_start
                  {| heap := <[fresh (dom h0) := block]> h0;
                     memfile_alloc := memfile_alloc s1 |}
                  (set_buffer f1 (Some (fresh (dom h0)))
                     (szt (4096 + (g / 4096 + 1) * 4096)))
                  data (fresh (dom h0)) block)
        as (s2 & f2 & Hcopy & Hheap & Hb & Ho & Hs & Hr).
      + reflexivity.
      + cbn [heap]. apply lookup_insert_eq.
      + reflexivity.
      + unfold block. rewrite length_resize. unfold cap, g, N in *. lia.
      + unfold N in *. lia.
      + fold N in Hcopy, Ho, Hs. exists s2, f2, (fresh (dom h0)). eexists.
        split; [exact Hcopy|]. split; [exact Hheap|]. split; [exact Hb|].
        split; [exact Ho|]. split; [|exact Hr].
        rewrite Hs. cbn.
        destruct (Z.ltb_spec 0 N); [reflexivity | unfold N in *; lia].
    - edestruct (writemem_copy_at_start s1 f1 data buf
                   (replicate (Z.to_nat 4096) "000"%byte))
        as (s2 & f2 & Hcopy & Hheap & Hb & Ho & Hs & Hr).
      + reflexivity.
      + cbn [s1 heap]. apply lookup_insert_eq.
      + reflexivity.
      + rewrite length_replicate. unfold N in *. lia.
      + unfold N in *. lia.
      + fold N in Hcopy, Ho, Hs. exists s2, f2, buf. eexists.
        split; [exact Hcopy|]. split; [exact Hheap|]. split; [exact Hb|].
        split; [exact Ho|]. split; [|exact Hr].
        rewrite Hs. cbn.
        destruct (Z.ltb_spec 0 N); [reflexivity | unfold N in *; lia]. }
  destruct Hwrite as (s2 & f2 & buf2 & rest & Hw & Hheap & Hb & Ho & Hs & Hr).
  exists s2, f2. eexists (set_offset f2 0).
  destruct (readmem_from_start s2 (set_offset f2 0) data rest buf2)
    as (f4 & Hread); try assumption; try reflexivity.
  { unfold N in *. lia. }
  exists f4.
  split; [reflexivity|].
  split; [unfold fio_write; cbn [f1 header write_fn]; exact Hw|].
  split.
  - unfold fio_seek. rewrite Hs. unfold clampsz, szt.
    rewrite Z.mod_0_l by (pose proof size_mod_ge; lia).
    cbn [Z.ltb Z.compare].
    destruct (Z.ltb_spec N 0); [unfold N in *; lia|reflexivity].
  - unfold fio_read. cbn [set_offset header]. rewrite Hr. exact Hread.
Qed.

(** *** Detach, close, load *)

Lemma pool_alloc_free_live (p : pool_alloc) x p1 :
  mem_pool_alloc p = Some (x, p1) ->
  live (mem_pool_free p1 x) = live p /\ slots_max (mem_pool_free p1 x) = slots_max p.
Proof.
  unfold mem_pool_alloc. destruct (decide _); [|discriminate].
  intros [= <- <-]. cbn. split; [|reflexivity].
  apply set_eq. intros y.
  rewrite elem_of_difference, elem_of_union, elem_of_singleton. split.
  - intros [[-> | Hy] Hn]; [congruence | exact Hy].
  - intros Hy. split; [right; exact Hy|].
    intros ->. apply (is_fresh (live p)), Hy.
Qed.

Lemma alloc_free_heap a (h : gmap N (list byte)) sz p h1 block :
  A_ALLOC a h sz = Some (p, h1) ->
  A_FREE a (<[p := block]> h1) p = h.
Proof.
  unfold A_ALLOC, A_FREE. destruct (can_alloc a h sz); [|discriminate].
  intros [= <- <-]. rewrite insert_insert_eq, delete_insert_eq.
  apply delete_id, not_elem_of_dom, is_fresh.
Qed.

(** C9: detaching a memory-backed file whose buffer pointer is not
    null returns that pointer and the size of the file, clears the
    payload of the handle (so that it no longer reads as open), and the
    close that follows only gives the slot back to the pool: the heap,
    the detached block included, is as before. *)
Theorem detach_then_close_keeps_buffer
  (s : sys) (f : file) (buf : N) (want_alloc : bool) :
  buffer (fdata f) = Some buf ->
  det_buffer (fio_detachmem f want_alloc) = Some buf
  /\ det_outsize (fio_detachmem f want_alloc) = Some (fio_getsize f)
  /\ fdata (det_file (fio_detachmem f want_alloc)) = mem_file_zero
  /\ fio_isopen (det_file (fio_detachmem f want_alloc)) = false
  /\ exists s',
       fio_close s (det_file (fio_detachmem f want_alloc)) = Some s'
       /\ heap s' = heap s
       /\ memfile_alloc s' = mem_pool_free (memfile_alloc s) (slot f)
       /\ slot f ∉ live (memfile_alloc s').
Proof.
  intros Hbuf. unfold fio_detachmem. rewrite Hbuf. cbn.
  repeat (split; [reflexivity|]).
  unfold fio_close. cbn. eexists. split; [reflexivity|]. cbn.
  split; [reflexivity|]. split; [reflexivity|].
  rewrite elem_of_difference, elem_of_singleton. intros [_ Hn]. congruence.
Qed.

(** C10: when the path opens as a file of 0 bytes (with a buffer, as
    every handle [fio_openmem] itself builds has), [fio_loadtext] frees
    that buffer, returns a null pointer and stores nothing through
    [size].  For a path that no archive serves and whose stream has 0
    bytes this is what happens, and the memory is then as before the
    call: the one-byte buffer and the handle slot are given back.  A
    failed open -- path not resolved, no pool slot, no buffer -- gets
    the very same answer. *)
Theorem loadtext_empty_file_returns_null
  (g : file_mgr) (fs : filesystem) (s : sys) (a : allocator)
  (filepath : string) (ignore_vfs : bool) (id : Z) (want_size : bool) :
  (forall s1 f buf,
     fio_openmem g fs s a filepath ignore_vfs id = (s1, Some f) ->
     fio_getsize f = 0 ->
     buffer (fdata f) = Some buf ->
     fio_loadtext g fs s a filepath ignore_vfs id want_size
     = Some ({| heap := A_FREE a (heap s1) buf;
                memfile_alloc := mem_pool_free (memfile_alloc s1) (slot f) |},
             None, None))
  /\ (openmem_archive g filepath ignore_vfs = None ->
      openmem_stream g fs filepath ignore_vfs = Some [] ->
      pool_room (memfile_alloc s) ->
      can_alloc a (heap s) 1 = true ->
      exists s',
        fio_loadtext g fs s a filepath ignore_vfs id want_size
          = Some (s', None, None)
        /\ heap s' = heap s
        /\ live (memfile_alloc s') = live (memfile_alloc s))
  /\ (snd (fio_openmem g fs s a filepath ignore_vfs id) = None ->
      exists s'',
        fio_loadtext g fs s a filepath ignore_vfs id want_size
          = Some (s'', None, None)).
Proof.
  split; [|split].
  - intros s1 f buf Hopen Hsize Hbuf. unfold fio_loadtext.
    rewrite Hopen. unfold fio_detachmem, fio_close. rewrite Hbuf.
    cbn [det_file det_outsize det_buffer fdata mem_file_zero buffer slot].
    unfold fio_getsize in Hsize. rewrite Hsize. reflexivity.
  - intros Harch Hstream Hroom Hcan.
    unfold fio_loadtext, fio_openmem, fio_alloc_membuff. rewrite Harch.
    destruct (mem_pool_alloc (memfile_alloc s)) as [[file_buf pool]|] eqn:Hpool.
    2: { unfold mem_pool_alloc in Hpool.
         destruct (decide _); [discriminate|contradiction]. }
    rewrite Hstream. unfold openmem_load. cbn [length Z.of_nat heap].
    assert (H0 : szt 0 = 0) by (apply szt_small; pose proof size_mod_ge; lia).
    assert (H1 : szt 1 = 1) by (apply szt_small; pose proof size_mod_ge; lia).
    change (Z.of_nat 0) with 0. rewrite H0. change (0 + 1) with 1. rewrite H1.
    destruct (A_ALLOC a (heap s) 1) as [[buf h2]|] eqn:Halloc.
    2: { unfold A_ALLOC in Halloc. rewrite Hcan in Halloc. discriminate. }
    cbn. eexists. split; [reflexivity|]. cbn.
    split.
    + eapply alloc_free_heap. exact Halloc.
    + apply (pool_alloc_free_live _ _ _ Hpool).
  - intros Hnone. unfold fio_loadtext.
    destruct (fio_openmem g fs s a filepath ignore_vfs id) as [s1 [f|]];
      [discriminate Hnone|].
    eexists. reflexivity.
Qed.

(** *** The resolution chain *)

Lemma openmem_paks_first pks filepath : forall (i : nat) pk file_id,
  pks !! i = Some pk ->
  pak_findfile pk filepath = Some file_id ->
  (forall (j : nat) pk', (j < i)%nat -> pks !! j = Some pk' ->
     pak_findfile pk' filepath = None) ->
  openmem_paks pks filepath = Some (pk, file_id).
Proof.
  induction pks as [|pk0 rest IH]; intros i pk file_id Hi Hfind Hbefore.
  - discriminate Hi.
  - destruct i as [|i]; cbn in Hi |- *.
    + injection Hi as ->. rewrite Hfind. reflexivity.
    + rewrite (Hbefore 0%nat pk0 ltac:(lia) eq_refl).
      apply (IH i); [exact Hi | exact Hfind |].
      intros j pk' Hj Hlook. apply (Hbefore (S j) pk'); [lia | exact Hlook].
Qed.

Lemma openmem_paks_none pks filepath :
  (forall pk, pk ∈ pks -> pak_findfile pk filepath = None) ->
  openmem_paks pks filepath = None.
Proof.
  induction pks as [|pk0 rest IH]; intros Hall; [reflexivity|].
  cbn. rewrite (Hall pk0) by apply list_elem_of_here.
  apply IH. intros pk Hin. apply Hall, list_elem_of_further, Hin.
Qed.

Lemma resolvepath_first (fs : filesystem) vds filepath :
  forall (i : nat) vd content,
  vds !! i = Some vd ->
  fs (path_join (vpath vd) filepath) = Some content ->
  (forall (j : nat) vd', (j < i)%nat -> vds !! j = Some vd' ->
     fs (path_join (vpath vd') filepath) = None) ->
  resolvepath_loop fs vds filepath = Some content.
Proof.
  induction vds as [|vd0 rest IH]; intros i vd content Hi Hopen Hbefore.
  - discriminate Hi.
  - destruct i as [|i]; cbn in Hi |- *.
    + injection Hi as ->. rewrite Hopen. reflexivity.
    + rewrite (Hbefore 0%nat vd0 ltac:(lia) eq_refl).
      apply (IH i vd); [exact Hi | exact Hopen |].
      intros j vd' Hj Hlook. apply (Hbefore (S j) vd'); [lia | exact Hlook].
Qed.

Lemma resolvepath_none (fs : filesystem) vds filepath :
  (forall vd, vd ∈ vds -> fs (path_join (vpath vd) filepath) = None) ->
  resolvepath_loop fs vds filepath = None.
Proof.
  induction vds as [|vd0 rest IH]; intros Hall; [reflexivity|].
  cbn. rewrite (Hall vd0) by apply list_elem_of_here.
  apply IH. intros vd Hin. apply Hall, list_elem_of_further, Hin.
Qed.

Lemma openmem_archive_none g filepath :
  (forall pk, pk ∈ paks g -> pak_findfile pk filepath = None) ->
  openmem_archive g filepath false = None.
Proof.
  intros Hall. unfold openmem_archive.
  destruct (negb false && negb (arr_isempty (paks g))); [|reflexivity].
  apply openmem_paks_none, Hall.
Qed.

(** C2, as the code has it.  For an open that does not bypass virtual
    resolution:
    - the archives are asked in mount order and the first one that has
      the path serves it;
    - when no archive has it, the virtual directories are tried in
      registration order, each by opening its root joined with the
      path, and the first that opens serves it;
    - when no archive has it, some virtual directory is registered and
      none of them opens, the open fails: the handle slot is given back
      and null is returned, whatever is at the raw path;
    - the path is opened as a raw path when no archive has it and no
      virtual directory is registered. *)
Theorem open_resolution_order
  (g : file_mgr) (fs : filesystem) (s : sys) (a : allocator)
  (filepath : string) (id : Z) :
  (forall (i : nat) pk file_id,
     paks g !! i = Some pk ->
     pak_findfile pk filepath = Some file_id ->
     (forall (j : nat) pk', (j < i)%nat -> paks g !! j = Some pk' ->
        pak_findfile pk' filepath = None) ->
     fio_openmem g fs s a filepath false id = pak_getfile pk a file_id id s)
  /\ ((forall pk, pk ∈ paks g -> pak_findfile pk filepath = None) ->
      forall file_buf s1,
      fio_alloc_membuff s = Some (file_buf, s1) ->
      (forall (i : nat) vd content,
         vdirs g !! i = Some vd ->
         fs (path_join (vpath vd) filepath) = Some content ->
         (forall (j : nat) vd', (j < i)%nat -> vdirs g !! j = Some vd' ->
            fs (path_join (vpath vd') filepath) = None) ->
         fio_openmem g fs s a filepath false id
         = openmem_load s1 file_buf a filepath id (Some content))
      /\ (vdirs g <> [] ->
          (forall vd, vd ∈ vdirs g ->
             fs (path_join (vpath vd) filepath) = None) ->
          fio_openmem g fs s a filepath false id
          = (fio_free_membuff s1 file_buf, None))
      /\ (vdirs g = [] ->
          fio_openmem g fs s a filepath false id
          = openmem_load s1 file_buf a filepath id (fs filepath))).
Proof.
  split.
  - intros i pk file_id Hi Hfind Hbefore. unfold fio_openmem, openmem_archive.
    destruct (paks g) as [|pk0 rest] eqn:Hpaks; [discriminate Hi|].
    cbn [negb andb arr_isempty].
    rewrite (openmem_paks_first _ filepath i pk file_id Hi Hfind Hbefore).
    reflexivity.
  - intros Hmiss file_buf s1 Hslot. unfold fio_openmem.
    rewrite (openmem_archive_none g filepath Hmiss), Hslot.
    unfold openmem_stream, open_resolvepath.
    split; [|split].
    + intros i vd content Hi Hopen Hbefore.
      destruct (vdirs g) as [|vd0 rest] eqn:Hvd; [discriminate Hi|].
      cbn [negb andb arr_isempty].
      rewrite (resolvepath_first fs _ filepath i vd content Hi Hopen Hbefore).
      reflexivity.
    + intros Hne Hall.
      destruct (vdirs g) as [|vd0 rest] eqn:Hvd; [contradiction|].
      cbn [negb andb arr_isempty].
      rewrite (resolvepath_none fs _ filepath Hall). reflexivity.
    + intros ->. reflexivity.
Qed.

End WithPlatform.



Lemma memfile_write_seek_read_roundtrip_witness :
  exists s1 f1 s2 f2 f3 f4,
    fio_createmem sys0 heap_alloc "tmp" 0 = (s1, Some f1)
    /\ fio_write (P:=lp64_debug) s1 f1 ["d"; "h"; "c"]%byte 1 3
       = Some (s2, f2, 3)
    /\ fio_seek (P:=lp64_debug) f2 SEEK_MODE_START 0 = Some f3
    /\ fio_read (P:=lp64_debug) s2 f3 1 3 = Some (f4, ["d"; "h"; "c"]%byte, 3).
Proof.
  apply (memfile_write_seek_read_roundtrip (P:=lp64_debug)
           sys0 heap_alloc "tmp" 0 ["d"; "h"; "c"]%byte).
  - intros h sz. reflexivity.
  - unfold pool_room. vm_compute. lia.
  - vm_compute. reflexivity.
Defined.

Lemma detach_then_close_keeps_buffer_witness :
  det_buffer (fio_detachmem attached_file true) = Some 5%N
  /\ fio_isopen (det_file (fio_detachmem attached_file true)) = false
  /\ exists s',
       fio_close attached_sys (det_file (fio_detachmem attached_file true))
         = Some s'
       /\ heap s' = heap attached_sys.
Proof.
  destruct (detach_then_close_keeps_buffer attached_sys attached_file 5%N true
              eq_refl) as (Hb & _ & _ & Hopen & s' & Hclose & Hheap & _).
  split; [exact Hb|]. split; [exact Hopen|].
  exists s'. split; [exact Hclose | exact Hheap].
Defined.

(** A handle attached to a four-byte buffer: one write inside the
    buffer, then a write that ends three bytes beyond it; the capacity
    goes from 4 to 4 + 4096. *)
Lemma write_capacity_growth_witness :
  match write_all (P:=lp64_debug) attached_sys attached_file
          [(["w"; "x"]%byte, 1, 2)] with
  | Some (s1, f1) =>
      match write_all (P:=lp64_debug) s1 f1
              [(["a"; "b"; "c"; "d"; "e"]%byte, 1, 5)] with
      | Some (s2, f2) =>
          max_size (fdata f1) <= max_size (fdata f2)
          /\ size (header f2) <= max_size (fdata f2)
          /\ max_size (fdata f2) = 4100
      | None => False
      end
  | None => False
  end.
Proof.
  destruct (write_all (P:=lp64_debug) attached_sys attached_file _)
    as [[s1 f1]|] eqn:H1; [|vm_compute in H1; discriminate].
  assert (Hopen : forall s2 f2,
    write_all (P:=lp64_debug) s1 f1
      [(["a"; "b"; "c"; "d"; "e"]%byte, 1, 5)] = Some (s2, f2) ->
    buffer (fdata f2) <> None).
  { intros s2 f2 H2. pose proof H1 as H1'.
    vm_compute in H1'. injection H1' as <- <-.
    vm_compute in H2. injection H2 as <- <-. discriminate. }
  destruct (write_all (P:=lp64_debug) s1 f1 _) as [[s2 f2]|] eqn:H2;
    [|pose proof H1 as H1'; vm_compute in H1'; injection H1' as <- <-;
      vm_compute in H2; discriminate].
  assert (Hinv : mem_inv attached_file) by (unfold mem_inv; cbn; lia).
  destruct (write_capacity_growth (P:=lp64_debug) _ _ _ _ _ _ s1 f1 s2 f2
              Hinv H1 H2) as ((_ & Hmono) & (_ & Hcap) & Hgrow).
  split; [exact Hmono|]. split; [exact Hcap|].
  specialize (Hopen s2 f2 eq_refl).
  vm_compute in H1. injection H1 as <- <-.
  rewrite Hgrow; [reflexivity| | | | |exact Hopen]; vm_compute; easy.
Defined.

(** C6, as the specification words it, fails where the shortfall is a
    whole number of blocks: a write of 8192 bytes to a fresh file is
    4096 bytes short of the capacity 4096, and the capacity becomes
    12288, not 4096 plus 4096 "rounded up to a multiple" of 4096. *)
Lemma capacity_growth_exceeds_rounded_shortfall :
  match created_roomy with
  | (s1, Some f1) =>
      match fio_writemem (P:=lp64_debug) s1 f1
              (replicate (Z.to_nat 8192) "b"%byte) 1 8192 with
      | Some (_, f2, _) =>
          max_size (fdata f2) = 12288
          /\ max_size (fdata f2) <>
             max_size (fdata f1)
             + round_up_to_multiple
                 (offset (fdata f1) + 1 * 8192 - max_size (fdata f1))
                 MEM_BLOCK_SIZE
      | None => False
      end
  | _ => False
  end.
Proof. vm_compute. split; [reflexivity | discriminate]. Qed.

(** C3 on a fresh memory file whose allocator cannot grow the buffer:
    a write of 5000 bytes returns 0 and leaves size, position and
    capacity as they were, and the memory too -- the block is still
    allocated -- but the handle no longer points to it: its buffer
    pointer is null and the file reads as closed. *)
Theorem writemem_failed_growth_loses_buffer :
  match created_tight with
  | (s1, Some f1) =>
      match fio_writemem (P:=lp64_debug) s1 f1
              (replicate (Z.to_nat 5000) "x"%byte) 1 5000 with
      | Some (s2, f2, n) =>
          n = 0
          /\ s2 = s1
          /\ header f2 = header f1
          /\ offset (fdata f2) = offset (fdata f1)
          /\ max_size (fdata f2) = max_size (fdata f1)
          /\ fio_isopen f1 = true
          /\ (exists buf, buffer (fdata f1) = Some buf
                          /\ is_Some (heap s2 !! buf))
          /\ buffer (fdata f2) = None
          /\ fio_isopen f2 = false
      | None => False
      end
  | _ => False
  end.
Proof.
  vm_compute. repeat (split; [reflexivity|]).
  split; [|split; reflexivity].
  eexists. split; [reflexivity|]. eexists. reflexivity.
Qed.

(** On [demo_mgr] the path [b.txt] is served by the virtual directory
    [data], and [a.txt], which only exists as a raw path, is not found. *)
Lemma open_resolution_order_witness :
  exists file_buf s1,
    fio_alloc_membuff sys0 = Some (file_buf, s1)
    /\ fio_openmem (P:=lp64_debug) demo_mgr demo_fs sys0 heap_alloc "b.txt"
         false 0
       = openmem_load (P:=lp64_debug) s1 file_buf heap_alloc "b.txt" 0
           (Some ["v"; "d"]%byte)
    /\ fio_openmem (P:=lp64_debug) demo_mgr demo_fs sys0 heap_alloc "a.txt"
         false 0
       = (fio_free_membuff s1 file_buf, None).
Proof.
  destruct (fio_alloc_membuff sys0) as [[file_buf s1]|] eqn:Hslot;
    [|vm_compute in Hslot; discriminate].
  exists file_buf, s1. split; [reflexivity|].
  assert (Hpaks : forall (fp : string) pk,
            pk ∈ paks demo_mgr -> pak_findfile pk fp = None).
  { intros fp pk Hin. cbn in Hin. inversion Hin. }
  split.
  - destruct (open_resolution_order (P:=lp64_debug) demo_mgr demo_fs sys0
                heap_alloc "b.txt" 0) as [_ Hvd].
    destruct (Hvd (Hpaks "b.txt") file_buf s1 Hslot) as (Hfirst & _ & _).
    apply (Hfirst 0%nat demo_vdir); [reflexivity | reflexivity |].
    intros j vd' Hj. lia.
  - destruct (open_resolution_order (P:=lp64_debug) demo_mgr demo_fs sys0
                heap_alloc "a.txt" 0) as [_ Hvd].
    destruct (Hvd (Hpaks "a.txt") file_buf s1 Hslot) as (_ & Hnone & _).
    apply Hnone; [discriminate|].
    intros vd Hin. cbn in Hin. apply list_elem_of_singleton in Hin as ->.
    reflexivity.
Defined.

(** C2, as the specification words it, fails on its last clause: with
    the directory [data] registered, no archive mounted and [a.txt]
    present only as a raw path, every tier before the raw path misses
    and the open returns null, while the raw path itself opens (as the
    bypassing open shows). *)
Lemma open_does_not_fall_back_to_raw_path :
  paks demo_mgr = []
  /\ (forall vd, vd ∈ vdirs demo_mgr ->
        demo_fs (path_join (Platform:=lp64_debug) (vpath vd) "a.txt") = None)
  /\ demo_fs "a.txt" = Some ["r"; "a"; "w"]%byte
  /\ snd (fio_openmem (P:=lp64_debug) demo_mgr demo_fs sys0 heap_alloc
            "a.txt" false 0) = None
  /\ (exists f, snd (fio_openmem (P:=lp64_debug) demo_mgr demo_fs sys0
                       heap_alloc "a.txt" true 0) = Some f
                /\ fio_getsize f = 3).
Proof.
  split; [reflexivity|]. split.
  { intros vd Hin. cbn in Hin. apply list_elem_of_singleton in Hin as ->.
    reflexivity. }
  split; [reflexivity|]. split; [vm_compute; reflexivity|].
  eexists. split; [vm_compute; reflexivity | reflexivity].
Qed.

Lemma loadtext_empty_file_returns_null_witness :
  (exists s',
     fio_loadtext (P:=lp64_debug) demo_mgr demo_fs sys0 heap_alloc
       "empty.txt" false 0 true = Some (s', None, None)
     /\ heap s' = heap sys0)
  /\ (exists s'',
        fio_loadtext (P:=lp64_debug) demo_mgr demo_fs sys0 heap_alloc
          "missing.txt" false 0 true = Some (s'', None, None)).
Proof.
  split.
  - destruct (loadtext_empty_file_returns_null (P:=lp64_debug)
                demo_mgr demo_fs sys0 heap_alloc "empty.txt" false 0 true)
      as (_ & Hempty & _).
    destruct Hempty as (s' & Hload & Hheap & _).
    + reflexivity.
    + reflexivity.
    + unfold pool_room. vm_compute. lia.
    + reflexivity.
    + exists s'. split; [exact Hload | exact Hheap].
  - destruct (loadtext_empty_file_returns_null (P:=lp64_debug)
                demo_mgr demo_fs sys0 heap_alloc "missing.txt" false 0 true)
      as (_ & _ & Hfail).
    apply Hfail. vm_compute. reflexivity.
Defined.

End FileIOProps.

(** ** Memory-backed files as byte sequences with a position *)

Module FileIOExtra.
Import FileIO FileIOExt Examples.

(** Overwriting [n = length data] bytes at [o] in a block and looking at
    its first [max sz (o + n)] bytes is overwriting (or extending) the
    first [sz] bytes of the block. *)
Lemma splice_take (block data : list byte) (o sz : nat) :
  (o <= sz)%nat -> (sz <= length block)%nat ->
  (o + length data <= length block)%nat ->
  take (Nat.max sz (o + length data))
       (take o block ++ data ++ drop (o + length data) block)
  = take o (take sz block) ++ data ++ drop (o + length data) (take sz block).
Proof.
  intros Ho Hsz Hfit.
  rewrite take_take, (Nat.min_l o sz) by lia.
  rewrite take_app_ge by (rewrite length_take; lia).
  rewrite length_take, (Nat.min_l o (length block)) by lia.
  rewrite take_app_ge by lia.
  do 2 f_equal.
  rewrite take_drop_commute.
  destruct (Nat.le_gt_cases (o + length data) sz) as [Hle|Hgt].
  - f_equal. f_equal. lia.
  - rewrite !drop_ge; [reflexivity | rewrite length_take; lia
                       | rewrite length_take; lia].
Qed.

Section WithPlatform.
Context {P : Platform}.

Lemma file_block_inv s f block :
  file_block s f = Some block ->
  exists p, buffer (fdata f) = Some p /\ heap s !! p = Some block.
Proof.
  unfold file_block. destruct (buffer (fdata f)) as [p|]; [|discriminate].
  intros H. exists p. split; [reflexivity | exact H].
Qed.

Lemma file_contents_block s f block :
  file_block s f = Some block ->
  file_contents s f = Some (take (Z.to_nat (size (header f))) block).
Proof. intros H. unfold file_contents. rewrite H. reflexivity. Qed.

Lemma size_mod_pos : 4096 < 2 ^ size_bits.
Proof. pose proof FileIOProps.size_mod_ge. lia. Qed.

(** [writemem_copy] on a handle whose buffer is the block [block]. *)
Lemma writemem_copy_spec s f p (block data : list byte) items_cnt :
  buffer (fdata f) = Some p ->
  heap s !! p = Some block ->
  0 <= offset (fdata f) <= size (header f) ->
  size (header f) <= Z.of_nat (length block) ->
  offset (fdata f) + Z.of_nat (length data) <= Z.of_nat (length block) ->
  offset (fdata f) + Z.of_nat (length data) < 2 ^ size_bits ->
  exists s' f' block',
    writemem_copy s f data (Z.of_nat (length data)) items_cnt
      = Some (s', f', items_cnt)
    /\ file_block s' f' = Some block'
    /\ length block' = length block
    /\ take (Z.to_nat (size (header f'))) block'
       = take (Z.to_nat (offset (fdata f)))
              (take (Z.to_nat (size (header f))) block)
         ++ data
         ++ drop (Z.to_nat (offset (fdata f) + Z.of_nat (length data)))
                 (take (Z.to_nat (size (header f))) block)
    /\ offset (fdata f') = offset (fdata f) + Z.of_nat (length data)
    /\ size (header f')
       = Z.max (size (header f))
               (offset (fdata f) + Z.of_nat (length data))
    /\ max_size (fdata f') = max_size (fdata f)
    /\ alloc (fdata f') = alloc (fdata f)
    /\ read_fn (header f') = read_fn (header f)
    /\ write_fn (header f') = write_fn (header f)
    /\ path (header f') = path (header f)
    /\ slot f' = slot f
    /\ memfile_alloc s' = memfile_alloc s.
Proof.
  intros Hbuf Hblock Hofs Hsz Hfit Hsmall.
  set (o := offset (fdata f)) in *. set (n := Z.of_nat (length data)) in *.
  unfold writemem_copy, memcpy_to. rewrite Hbuf, Hblock. fold o.
  rewrite (FileIOProps.szt_small (o + n)) by (unfold n; lia).
  destruct (Z.leb_spec n (Z.of_nat (length data))) as [_|?]; [|unfold n in *; lia].
  destruct (Z.leb_spec (o + n) (Z.of_nat (length block))) as [_|?]; [|lia].
  cbn [andb]. do 3 eexists. split; [reflexivity|].
  unfold file_block. cbn [fdata buffer heap header size offset max_size alloc
                          read_fn write_fn path slot memfile_alloc].
  rewrite lookup_insert_eq.
  assert (Hnn : Z.to_nat n = length data) by (unfold n; apply Nat2Z.id).
  assert (Hon : Z.to_nat (o + n) = (Z.to_nat o + length data)%nat)
    by (rewrite Z2Nat.inj_add, Hnn by (unfold n; lia); reflexivity).
  rewrite Hnn, Hon, firstn_all.
  split; [reflexivity|]. split.
  { rewrite !length_app, length_take, length_drop. lia. }
  split.
  { assert (Hsize' : Z.to_nat (if size (header f) <? o + n
                               then o + n else size (header f))
                     = Nat.max (Z.to_nat (size (header f)))
                               (Z.to_nat o + length data)).
    { destruct (Z.ltb_spec (size (header f)) (o + n)); lia. }
    rewrite Hsize'. apply splice_take; lia. }
  split; [reflexivity|]. split.
  { destruct (Z.ltb_spec (size (header f)) (o + n)); lia. }
  repeat split; reflexivity.
Qed.

Lemma writemem_contents
  (s : sys) (f : file) (c data : list byte) (item_size items_cnt : Z) :
  handle_ok s f ->
  file_contents s f = Some c ->
  Z.of_nat (length data) = item_size * items_cnt ->
  offset (fdata f) + Z.of_nat (length data) + MEM_BLOCK_SIZE
    < 2 ^ size_bits ->
  (max_size (fdata f) < offset (fdata f) + Z.of_nat (length data) ->
   exists a, alloc (fdata f) = Some a
             /\ forall sz, can_alloc a (heap s) sz = true) ->
  exists s' f',
    fio_writemem s f data item_size items_cnt = Some (s', f', items_cnt)
    /\ handle_ok s' f'
    /\ file_contents s' f'
       = Some (take (Z.to_nat (offset (fdata f))) c ++ data
               ++ drop (Z.to_nat (offset (fdata f)
                                  + Z.of_nat (length data))) c)
    /\ fio_getpos f' = offset (fdata f) + Z.of_nat (length data)
    /\ fio_getsize f'
       = Z.max (size (header f))
               (offset (fdata f) + Z.of_nat (length data))
    /\ max_size (fdata f) <= max_size (fdata f')
    /\ alloc (fdata f') = alloc (fdata f)
    /\ read_fn (header f') = read_fn (header f)
    /\ write_fn (header f') = write_fn (header f)
    /\ slot f' = slot f
    /\ memfile_alloc s' = memfile_alloc s.
Proof.
  intros (block & Hblock & Hofs & Hcap & Hlen) Hc Hdata Hfit Hgrow.
  rewrite (file_contents_block _ _ _ Hblock) in Hc. injection Hc as <-.
  destruct (file_block_inv _ _ _ Hblock) as (p & Hbuf & Hheap).
  unfold MEM_BLOCK_SIZE in Hfit.
  set (o := offset (fdata f)) in *. set (n := Z.of_nat (length data)) in *.
  unfold fio_writemem. rewrite <- Hdata. fold n o.
  rewrite (FileIOProps.szt_small n) by (unfold n in *; lia).
  rewrite (FileIOProps.szt_small (n + o)) by (unfold n in *; lia).
  unfold fio_getpos, fio_getsize.
  destruct (Z.ltb_spec (max_size (fdata f)) (n + o)) as [Hover|Hin].
  - destruct Hgrow as (a & Halloc & Hcan); [lia|].
    rewrite Halloc. unfold MEM_BLOCK_SIZE.
    set (g := n + o - max_size (fdata f)).
    assert (Hdiv : 0 <= g / 4096 /\ 4096 * (g / 4096) <= g
                   /\ g < 4096 * (g / 4096) + 4096).
    { split; [apply Z.div_pos; unfold g; lia|].
      split; [apply Z.mul_div_le; lia|].
      pose proof (Z.mul_succ_div_gt g 4096 ltac:(lia)). lia. }
    rewrite (FileIOProps.szt_small g) by (unfold g, n in *; lia).
    rewrite (FileIOProps.szt_small (g / 4096 + 1)) by (unfold g, n in *; lia).
    rewrite (FileIOProps.szt_small ((g / 4096 + 1) * 4096))
      by (unfold g, n in *; lia).
    rewrite (FileIOProps.szt_small ((g / 4096 + 1) * 4096 + max_size (fdata f)))
      by (unfold g, n in *; lia).
    rewrite (FileIOProps.szt_small (max_size (fdata f) + (g / 4096 + 1) * 4096))
      by (unfold g, n in *; lia).
    unfold A_REALLOC. rewrite Hcan, Hbuf, Hheap. cbn [default].
    set (cap := (g / 4096 + 1) * 4096 + max_size (fdata f)).
    set (h0 := delete p (heap s)). set (p' := fresh (dom h0)).
    set (block_r := resize (Z.to_nat cap) "000"%byte block).
    assert (Hlen_r : Z.of_nat (length block_r) = cap).
    { unfold block_r. rewrite length_resize. unfold cap, g, n in *. lia. }
    destruct (writemem_copy_spec
                {| heap := <[p' := block_r]> h0;
                   memfile_alloc := memfile_alloc s |}
                (set_buffer f (Some p')
                   (max_size (fdata f) + (g / 4096 + 1) * 4096))
                p' block_r data items_cnt)
      as (s' & f' & block' & Hcopy & Hblock' & Hlen' & Htake & Ho & Hs
          & Hm & Ha & Hr & Hw & _ & Hslot & Hpool).
    { reflexivity. }
    { cbn [heap]. apply lookup_insert_eq. }
    { exact Hofs. }
    { cbn [set_buffer header]. unfold cap, g, n in *. lia. }
    { cbn [set_buffer fdata offset]. fold o n. unfold cap, g in *. lia. }
    { cbn [set_buffer fdata offset]. fold o n. unfold n in *. lia. }
    cbn [set_buffer fdata header offset max_size alloc slot memfile_alloc]
      in Htake, Ho, Hs, Hm, Ha, Hr, Hw, Hslot, Hpool.
    fold o n in Htake, Ho, Hs.
    exists s', f'. split; [exact Hcopy|].
    assert (Htk : take (Z.to_nat (size (header f))) block_r
                  = take (Z.to_nat (size (header f))) block).
    { unfold block_r. rewrite take_resize_le by (unfold cap, g, n in *; lia).
      apply resize_le. lia. }
    rewrite Htk in Htake.
    split.
    { exists block'. split; [exact Hblock'|].
      rewrite Ho, Hs, Hm, Hlen'. unfold cap, g, n in *. lia. }
    split.
    { rewrite (file_contents_block _ _ _ Hblock'). f_equal. exact Htake. }
    split; [exact Ho|]. split; [exact Hs|].
    split; [rewrite Hm; unfold g, n in *; lia|].
    repeat split; congruence.
  - destruct (writemem_copy_spec s f p block data items_cnt)
      as (s' & f' & block' & Hcopy & Hblock' & Hlen' & Htake & Ho & Hs
          & Hm & Ha & Hr & Hw & _ & Hslot & Hpool);
      try assumption; fold o n; try (unfold n in *; lia).
    fold o n in Htake, Ho, Hs, Hcopy.
    exists s', f'. split; [exact Hcopy|].
    split.
    { exists block'. split; [exact Hblock'|].
      rewrite Ho, Hs, Hm, Hlen'. unfold n in *. lia. }
    split.
    { rewrite (file_contents_block _ _ _ Hblock'). f_equal. exact Htake. }
    split; [exact Ho|]. split; [exact Hs|].
    split; [rewrite Hm; lia|].
    repeat split; assumption.
Qed.

(** X1: what a write does to the file as a sequence of bytes.  On a
    handle in order, a write of [data] at position [o] (its buffer
    grown first when it must be, the reallocation being served)
    returns the item count and leaves the bytes before [o] as they
    were, puts [data] at [o] and keeps the bytes beyond [o + n]; the
    position is then [o + n] and the size the larger of the old size
    and [o + n]. *)
Theorem writemem_overwrites_or_extends
  (s : sys) (f : file) (c data : list byte) (item_size items_cnt : Z) :
  handle_ok s f ->
  file_contents s f = Some c ->
  Z.of_nat (length data) = item_size * items_cnt ->
  offset (fdata f) + Z.of_nat (length data) + MEM_BLOCK_SIZE
    < 2 ^ size_bits ->
  (max_size (fdata f) < offset (fdata f) + Z.of_nat (length data) ->
   exists a, alloc (fdata f) = Some a
             /\ forall sz, can_alloc a (heap s) sz = true) ->
  exists s' f',
    fio_writemem s f data item_size items_cnt = Some (s', f', items_cnt)
    /\ handle_ok s' f'
    /\ file_contents s' f'
       = Some (take (Z.to_nat (offset (fdata f))) c ++ data
               ++ drop (Z.to_nat (offset (fdata f)
                                  + Z.of_nat (length data))) c)
    /\ fio_getpos f' = offset (fdata f) + Z.of_nat (length data)
    /\ fio_getsize f'
       = Z.max (size (header f))
               (offset (fdata f) + Z.of_nat (length data))
    /\ max_size (fdata f) <= max_size (fdata f')
    /\ alloc (fdata f') = alloc (fdata f)
    /\ read_fn (header f') = read_fn (header f)
    /\ write_fn (header f') = write_fn (header f)
    /\ slot f' = slot f
    /\ memfile_alloc s' = memfile_alloc s.
Proof. exact (writemem_contents s f c data item_size items_cnt). Qed.

Lemma handle_ok_contents_length s f c :
  handle_ok s f -> file_contents s f = Some c ->
  Z.of_nat (length c) = size (header f).
Proof.
  intros (block & Hblock & Hofs & Hcap & Hlen) Hc.
  rewrite (file_contents_block _ _ _ Hblock) in Hc. injection Hc as <-.
  rewrite length_take. lia.
Qed.

Lemma handle_ok_set_offset s f o :
  handle_ok s f -> 0 <= o <= size (header f) ->
  handle_ok s (set_offset f o) /\ file_contents s (set_offset f o) = file_contents s f.
Proof.
  intros (block & Hblock & Hofs & Hcap & Hlen) Ho. split.
  - exists block. repeat split; try assumption; cbn; lia.
  - reflexivity.
Qed.

Lemma readmem_items
  (s : sys) (f : file) (c : list byte) (item_size items_cnt : Z) :
  handle_ok s f ->
  file_contents s f = Some c ->
  size (header f) < 2 ^ size_bits ->
  0 < item_size -> 0 <= items_cnt ->
  item_size * items_cnt + offset (fdata f) < 2 ^ size_bits ->
  exists f',
    fio_readmem s f item_size items_cnt
    = Some (f',
            take (Z.to_nat (Z.min items_cnt
                              ((size (header f) - offset (fdata f))
                                 / item_size) * item_size))
                 (drop (Z.to_nat (offset (fdata f))) c),
            Z.min items_cnt
              ((size (header f) - offset (fdata f)) / item_size))
    /\ fio_getpos f'
       = offset (fdata f)
         + Z.min items_cnt
             ((size (header f) - offset (fdata f)) / item_size) * item_size
    /\ header f' = header f
    /\ handle_ok s f'
    /\ file_contents s f' = Some c.
Proof.
  intros Hok Hc Hsize Hisz Hcnt Hfit.
  pose proof Hok as (block & Hblock & Hofs & Hcap & Hlen).
  destruct (file_block_inv _ _ _ Hblock) as (p & Hbuf & Hheap).
  set (o := offset (fdata f)) in *. set (sz := size (header f)) in *.
  set (k := Z.min items_cnt ((sz - o) / item_size)).
  assert (Hq : 0 <= (sz - o) / item_size
               /\ item_size * ((sz - o) / item_size) <= sz - o
               /\ sz - o < item_size * ((sz - o) / item_size) + item_size).
  { split; [apply Z.div_pos; lia|].
    split; [apply Z.mul_div_le; lia|].
    pose proof (Z.mul_succ_div_gt (sz - o) item_size ltac:(lia)). lia. }
  assert (Hk : 0 <= k /\ k * item_size <= sz - o) by (unfold k; nia).
  assert (Hread : (if sz <? FileIO.szt (FileIO.szt (item_size * items_cnt) + o)
                   then FileIO.szt (FileIO.szt (sz - o)
                                    - FileIO.szt (sz - o) mod item_size)
                   else FileIO.szt (item_size * items_cnt))
                  = k * item_size).
  { rewrite (FileIOProps.szt_small (item_size * items_cnt)) by nia.
    rewrite (FileIOProps.szt_small (item_size * items_cnt + o)) by nia.
    destruct (Z.ltb_spec sz (item_size * items_cnt + o)) as [Hshort|Hall].
    - rewrite (FileIOProps.szt_small (sz - o)) by lia.
      rewrite Z.mod_eq by lia.
      rewrite FileIOProps.szt_small by lia.
      unfold k. rewrite Z.min_r by nia. lia.
    - unfold k. rewrite Z.min_l; [lia|].
      apply Z.div_le_lower_bound; lia. }
  unfold fio_readmem.
  destruct (Z.eqb_spec item_size 0) as [?|_]; [lia|].
  fold o sz. rewrite Hread. rewrite Z.div_mul by lia.
  unfold fio_getpos.
  destruct (Z.eqb_spec (k * item_size) 0) as [Hz|Hnz].
  - rewrite Hz. cbn [Z.to_nat take]. rewrite take_0.
    exists f. split; [reflexivity|]. split; [fold o; lia|].
    split; [reflexivity|]. split; [exact Hok | exact Hc].
  - rewrite Hbuf, Hheap. unfold memcpy_from.
    destruct (Z.leb_spec (o + k * item_size) (Z.of_nat (length block)));
      [|lia].
    rewrite (FileIOProps.szt_small (o + k * item_size)) by lia.
    eexists. split.
    + f_equal. f_equal. f_equal.
      rewrite (file_contents_block _ _ _ Hblock) in Hc. injection Hc as <-.
      fold sz. rewrite !take_drop_commute, take_take. do 2 f_equal. lia.
    + cbn [set_offset fdata offset header].
      split; [reflexivity|]. split; [reflexivity|].
      destruct (handle_ok_set_offset s f (o + k * item_size) Hok) as [H1 H2];
        [fold sz; lia|].
      split; [exact H1|]. rewrite H2. exact Hc.
Qed.

(** X2: what a read returns.  On a handle in order, a read of
    [items_cnt] items of [item_size] bytes ([item_size] not 0, the
    bytes asked for and the position together within [size_t])
    returns the number of whole items that fit between the position
    and the end of the file, at most [items_cnt], copies exactly these
    items and advances the position by their bytes; the file is not
    changed.  At the end of the file the count is 0. *)
Theorem readmem_returns_whole_items
  (s : sys) (f : file) (c : list byte) (item_size items_cnt : Z) :
  handle_ok s f ->
  file_contents s f = Some c ->
  size (header f) < 2 ^ size_bits ->
  0 < item_size -> 0 <= items_cnt ->
  item_size * items_cnt + offset (fdata f) < 2 ^ size_bits ->
  exists f',
    fio_readmem s f item_size items_cnt
    = Some (f',
            take (Z.to_nat (Z.min items_cnt
                              ((size (header f) - offset (fdata f))
                                 / item_size) * item_size))
                 (drop (Z.to_nat (offset (fdata f))) c),
            Z.min items_cnt
              ((size (header f) - offset (fdata f)) / item_size))
    /\ fio_getpos f'
       = offset (fdata f)
         + Z.min items_cnt
             ((size (header f) - offset (fdata f)) / item_size) * item_size
    /\ header f' = header f
    /\ handle_ok s f'
    /\ file_contents s f' = Some c.
Proof. exact (readmem_items s f c item_size items_cnt). Qed.

Lemma seek_exact (f : file) (seek : seek_mode) (ofs : Z) :
  size (header f) < 2 ^ size_bits ->
  (assert_enabled = true -> seek = SEEK_MODE_END -> 0 < ofs) ->
  0 <= match seek with
       | SEEK_MODE_START => ofs
       | SEEK_MODE_CUR => offset (fdata f) + ofs
       | SEEK_MODE_END => size (header f) - ofs
       end <= size (header f) ->
  fio_seek f seek ofs
  = Some (set_offset f match seek with
                       | SEEK_MODE_START => ofs
                       | SEEK_MODE_CUR => offset (fdata f) + ofs
                       | SEEK_MODE_END => size (header f) - ofs
                       end).
Proof.
  intros Hsize Hassert Htarget. unfold fio_seek.
  assert (Hclamp : forall t, 0 <= t <= size (header f) ->
            clampsz (FileIO.szt t) 0 (size (header f)) = t).
  { intros t Ht. rewrite FileIOProps.szt_small by lia. unfold clampsz.
    destruct (Z.ltb_spec t 0); [lia|].
    destruct (Z.ltb_spec (size (header f)) t); lia. }
  destruct seek.
  - rewrite Hclamp by exact Htarget. reflexivity.
  - destruct (assert_enabled && negb (0 <? ofs)) eqn:Htrap.
    + apply andb_true_iff in Htrap as [Hen Hofs].
      apply negb_true_iff, Z.ltb_ge in Hofs.
      specialize (Hassert Hen eq_refl). lia.
    + rewrite Hclamp by exact Htarget. reflexivity.
  - rewrite Hclamp by exact Htarget. reflexivity.
Qed.

(** X3: a seek whose target -- the offset for [SEEK_MODE_START], the
    position plus the offset for [SEEK_MODE_CUR], the size minus the
    offset for [SEEK_MODE_END] -- lies inside the file moves the
    position exactly there and changes nothing else. *)
Theorem seek_inside_file_is_exact (f : file) (seek : seek_mode) (ofs : Z) :
  size (header f) < 2 ^ size_bits ->
  (assert_enabled = true -> seek = SEEK_MODE_END -> 0 < ofs) ->
  0 <= match seek with
       | SEEK_MODE_START => ofs
       | SEEK_MODE_CUR => offset (fdata f) + ofs
       | SEEK_MODE_END => size (header f) - ofs
       end <= size (header f) ->
  fio_seek f seek ofs
  = Some (set_offset f match seek with
                       | SEEK_MODE_START => ofs
                       | SEEK_MODE_CUR => offset (fdata f) + ofs
                       | SEEK_MODE_END => size (header f) - ofs
                       end).
Proof. exact (seek_exact f seek ofs). Qed.

(** X4: a seek whose target is before the start of the file does not
    stop at position 0: the target wraps around as a [size_t] and the
    clamp puts the position at the end of the file.  So does a seek
    whose target is beyond the end.  (The target as in X3, with a
    positive offset for [SEEK_MODE_END] where assertions are compiled
    in, and not further below 0 than [size_t] is wide.) *)
Theorem seek_outside_file_lands_at_end
  (f : file) (seek : seek_mode) (ofs : Z) :
  0 <= size (header f) ->
  (assert_enabled = true -> seek = SEEK_MODE_END -> 0 < ofs) ->
  (size (header f) - 2 ^ size_bits
   < match seek with
     | SEEK_MODE_START => ofs
     | SEEK_MODE_CUR => offset (fdata f) + ofs
     | SEEK_MODE_END => size (header f) - ofs
     end < 0
   \/ size (header f)
      < match seek with
        | SEEK_MODE_START => ofs
        | SEEK_MODE_CUR => offset (fdata f) + ofs
        | SEEK_MODE_END => size (header f) - ofs
        end < 2 ^ size_bits) ->
  fio_seek f seek ofs = Some (set_offset f (size (header f))).
Proof.
  intros Hsize Hassert Htarget. unfold fio_seek.
  assert (Hclamp : forall t,
            size (header f) - 2 ^ size_bits < t < 0
            \/ size (header f) < t < 2 ^ size_bits ->
            clampsz (FileIO.szt t) 0 (size (header f)) = size (header f)).
  { intros t Ht. unfold clampsz.
    assert (Hbig : size (header f) < FileIO.szt t).
    { destruct Ht as [Hneg|Hpos].
      - unfold FileIO.szt.
        rewrite <- (Z.mod_add t 1) by (pose proof size_mod_pos; lia).
        rewrite Z.mod_small; lia.
      - rewrite FileIOProps.szt_small; lia. }
    destruct (Z.ltb_spec (FileIO.szt t) 0); [lia|].
    destruct (Z.ltb_spec (size (header f)) (FileIO.szt t)); lia. }
  destruct seek.
  - rewrite Hclamp by exact Htarget. reflexivity.
  - destruct (assert_enabled && negb (0 <? ofs)) eqn:Htrap.
    + apply andb_true_iff in Htrap as [Hen Hofs].
      apply negb_true_iff, Z.ltb_ge in Hofs.
      specialize (Hassert Hen eq_refl). lia.
    + rewrite Hclamp by exact Htarget. reflexivity.
  - rewrite Hclamp by exact Htarget. reflexivity.
Qed.

(** X5: read your writes, at any position a seek can name.  On a
    handle in order whose position [o] is a value of [int] -- the type
    of the offset [fio_seek] takes, so that [o] can be passed to it --
    writing [data] at [o], seeking back to [o] from the start and
    reading as many bytes returns [data]. *)
Theorem write_then_read_back
  (s : sys) (f : file) (c data : list byte) :
  handle_ok s f ->
  file_contents s f = Some c ->
  int_range (offset (fdata f)) ->
  size (header f) < 2 ^ size_bits ->
  offset (fdata f) + Z.of_nat (length data) + MEM_BLOCK_SIZE
    < 2 ^ size_bits ->
  (max_size (fdata f) < offset (fdata f) + Z.of_nat (length data) ->
   exists a, alloc (fdata f) = Some a
             /\ forall sz, can_alloc a (heap s) sz = true) ->
  exists s1 f1 f2 f3,
    fio_writemem s f data 1 (Z.of_nat (length data))
      = Some (s1, f1, Z.of_nat (length data))
    /\ fio_seek f1 SEEK_MODE_START (offset (fdata f)) = Some f2
    /\ fio_readmem s1 f2 1 (Z.of_nat (length data))
       = Some (f3, data, Z.of_nat (length data)).
Proof.
  intros Hok Hc _ Hsz Hfit Hgrow.
  pose proof (handle_ok_contents_length _ _ _ Hok Hc) as Hlenc.
  pose proof Hok as (_ & _ & Hofs & _ & _).
  set (o := offset (fdata f)) in *. set (n := Z.of_nat (length data)) in *.
  destruct (writemem_contents s f c data 1 n Hok Hc)
    as (s1 & f1 & Hw & Hok1 & Hc1 & Hpos1 & Hsize1 & _);
    [fold n; lia | exact Hfit | exact Hgrow |].
  fold o n in Hc1, Hpos1, Hsize1. unfold fio_getsize in Hsize1.
  unfold MEM_BLOCK_SIZE in Hfit.
  assert (Hseek : fio_seek f1 SEEK_MODE_START o = Some (set_offset f1 o)).
  { apply (seek_exact f1 SEEK_MODE_START o).
    - rewrite Hsize1. unfold n in *. lia.
    - intros _ Hmode. discriminate Hmode.
    - rewrite Hsize1. lia. }
  destruct (handle_ok_set_offset s1 f1 o Hok1) as [Hok2 Hc2];
    [rewrite Hsize1; lia|].
  rewrite Hc1 in Hc2.
  destruct (readmem_items s1 (set_offset f1 o) _ 1 n Hok2 Hc2)
    as (f3 & Hread & _); cbn [set_offset header fdata offset];
    try (rewrite Hsize1; unfold n in *; lia); try (unfold n in *; lia).
  exists s1, f1, (set_offset f1 o), f3.
  split; [exact Hw|]. split; [exact Hseek|].
  cbn [set_offset header fdata offset] in Hread. rewrite Hsize1 in Hread.
  rewrite Hread. f_equal. f_equal; [f_equal|].
  - rewrite Z.div_1_r, Z.mul_1_r, Z.min_l by lia.
    rewrite drop_app_length'
      by (rewrite length_take; unfold o in *; lia).
    unfold n. rewrite Nat2Z.id. apply take_app_length.
  - rewrite Z.div_1_r. lia.
Qed.

Lemma writes_append_gen a (ds : list (list byte)) : forall s f c,
  handle_ok s f ->
  file_contents s f = Some c ->
  offset (fdata f) = size (header f) ->
  alloc (fdata f) = Some a ->
  (forall h sz, can_alloc a h sz = true) ->
  size (header f) + Z.of_nat (length (concat ds)) + MEM_BLOCK_SIZE
    < 2 ^ size_bits ->
  exists s' f',
    write_all s f (byte_writes ds) = Some (s', f')
    /\ handle_ok s' f'
    /\ file_contents s' f' = Some (c ++ concat ds)
    /\ fio_getpos f' = size (header f) + Z.of_nat (length (concat ds))
    /\ fio_getsize f' = size (header f) + Z.of_nat (length (concat ds)).
Proof.
  induction ds as [|d ds IH]; intros s f c Hok Hc Hend Halloc Hcan Hfit.
  - exists s, f. cbn. rewrite app_nil_r, Z.add_0_r.
    repeat split; try assumption; reflexivity.
  - cbn [byte_writes map write_all concat] in *.
    rewrite length_app, Nat2Z.inj_add in Hfit.
    pose proof (handle_ok_contents_length _ _ _ Hok Hc) as Hlenc.
    destruct (writemem_contents s f c d 1 (Z.of_nat (length d))
                Hok Hc)
      as (s1 & f1 & Hw & Hok1 & Hc1 & Hpos1 & Hsize1 & _ & Ha1 & _);
      [lia | lia | intros _; exists a; split; [exact Halloc | apply Hcan] |].
    rewrite Hw. rewrite Hend in Hc1, Hpos1, Hsize1.
    unfold fio_getpos, fio_getsize in *.
    rewrite Z.max_r in Hsize1 by lia.
    rewrite take_ge, drop_ge, app_nil_r in Hc1 by lia.
    destruct (IH s1 f1 (c ++ d) Hok1 Hc1)
      as (s' & f' & Hrun & Hok' & Hc' & Hpos' & Hsize');
      [congruence | congruence | exact Hcan | rewrite Hsize1; lia |].
    exists s', f'. split; [exact Hrun|]. split; [exact Hok'|].
    rewrite <- app_assoc in Hc'. split; [exact Hc'|].
    rewrite Hpos', Hsize', Hsize1, length_app, Nat2Z.inj_add. lia.
Qed.

(** X6: consecutive writes append.  On a handle in order that stands at
    the end of its file, with an allocator that serves every request, a
    run of writes (the new size staying one block below the end of
    [size_t]) leaves the file holding its old bytes followed by the
    written strings in order, with the position at the new end. *)
Theorem writes_at_end_append
  (a : allocator) (ds : list (list byte)) (s : sys) (f : file)
  (c : list byte) :
  handle_ok s f ->
  file_contents s f = Some c ->
  offset (fdata f) = size (header f) ->
  alloc (fdata f) = Some a ->
  (forall h sz, can_alloc a h sz = true) ->
  size (header f) + Z.of_nat (length (concat ds)) + MEM_BLOCK_SIZE
    < 2 ^ size_bits ->
  exists s' f',
    write_all s f (byte_writes ds) = Some (s', f')
    /\ file_contents s' f' = Some (c ++ concat ds)
    /\ fio_getpos f' = size (header f) + Z.of_nat (length (concat ds))
    /\ fio_getsize f' = size (header f) + Z.of_nat (length (concat ds)).
Proof.
  intros Hok Hc Hend Halloc Hcan Hfit.
  destruct (writes_append_gen a ds s f c Hok Hc Hend Halloc Hcan Hfit)
    as (s' & f' & Hrun & _ & Hrest).
  exists s', f'. split; [exact Hrun | exact Hrest].
Qed.

(** *** Handles and the memory they take *)

Lemma alloc_fresh a (h : gmap N (list byte)) sz p h1 :
  A_ALLOC a h sz = Some (p, h1) ->
  h !! p = None
  /\ h1 = <[p := replicate (Z.to_nat sz) "000"%byte]> h.
Proof.
  unfold A_ALLOC. destruct (can_alloc a h sz); [|discriminate].
  intros [= <- <-]. split; [|reflexivity].
  apply not_elem_of_dom, is_fresh.
Qed.

Lemma alloc_free_same a (h : gmap N (list byte)) sz p h1 :
  A_ALLOC a h sz = Some (p, h1) -> A_FREE a h1 p = h.
Proof.
  intros Ha. destruct (alloc_fresh _ _ _ _ _ Ha) as [Hnone ->].
  unfold A_FREE. rewrite delete_insert_eq. apply delete_id, Hnone.
Qed.

(** X7: [fio_createmem] and [fio_close] take and give back the same
    memory.  A created file is an empty file in order, positioned at
    0, and closing it leaves the heap and the set of used handle slots
    as they were before the creation; a creation that fails (no slot,
    or no buffer) leaves them as they were too. *)
Theorem createmem_close_leaves_no_trace
  (s : sys) (a : allocator) (name : string) (id : Z) :
  match fio_createmem s a name id with
  | (s1, Some f) =>
      handle_ok s1 f
      /\ file_contents s1 f = Some []
      /\ fio_getpos f = 0
      /\ (slot f ∉ live (memfile_alloc s))
      /\ exists s2,
           fio_close s1 f = Some s2
           /\ heap s2 = heap s
           /\ live (memfile_alloc s2) = live (memfile_alloc s)
  | (s1, None) =>
      heap s1 = heap s
      /\ live (memfile_alloc s1) = live (memfile_alloc s)
  end.
Proof.
  unfold fio_createmem, fio_alloc_membuff.
  destruct (mem_pool_alloc (memfile_alloc s)) as [[file_buf pool]|] eqn:Hpool;
    [|split; reflexivity].
  destruct (FileIOProps.pool_alloc_free_live _ _ _ Hpool) as [Hlive _].
  cbn [heap memfile_alloc].
  destruct (A_ALLOC a (heap s) MEM_BLOCK_SIZE) as [[buf h2]|] eqn:Halloc.
  - destruct (alloc_fresh _ _ _ _ _ Halloc) as [Hnone ->].
    split.
    { eexists. unfold file_block. cbn. rewrite lookup_insert_eq.
      split; [reflexivity|]. rewrite length_replicate.
      unfold MEM_BLOCK_SIZE. lia. }
    split.
    { unfold file_contents, file_block. cbn. rewrite lookup_insert_eq.
      reflexivity. }
    split; [reflexivity|]. split.
    { unfold mem_pool_alloc in Hpool.
      destruct (decide _); [|discriminate].
      injection Hpool as <- <-. cbn. apply is_fresh. }
    unfold fio_close. cbn. eexists. split; [reflexivity|]. cbn.
    split; [|exact Hlive].
    unfold A_FREE. rewrite delete_insert_eq. apply delete_id, Hnone.
  - cbn. split; [reflexivity | exact Hlive].
Qed.

(** X8: attach and detach hand the same buffer in and out.  A handle
    attached to a buffer of a given size detaches to that buffer, that
    size and the allocator given at the attach, without touching the
    heap; a second detach returns null and stores nothing. *)
Theorem attach_then_detach_returns_buffer
  (s : sys) (a : allocator) (buf : N) (sz : Z) (name : string) (id : Z) :
  pool_room (memfile_alloc s) ->
  exists s1 f,
    fio_attachmem s a (Some buf) sz name id = (s1, Some f)
    /\ heap s1 = heap s
    /\ fio_getsize f = sz /\ fio_getpos f = 0
    /\ det_buffer (fio_detachmem f true) = Some buf
    /\ det_outsize (fio_detachmem f true) = Some sz
    /\ det_palloc (fio_detachmem f true) = Some (Some a)
    /\ det_buffer (fio_detachmem (det_file (fio_detachmem f true)) true)
       = None
    /\ det_outsize (fio_detachmem (det_file (fio_detachmem f true)) true)
       = None.
Proof.
  intros Hroom. unfold fio_attachmem, fio_alloc_membuff, mem_pool_alloc.
  destruct (decide _) as [_|?]; [|contradiction].
  do 2 eexists. split; [reflexivity|]. cbn. repeat split; reflexivity.
Qed.

(** *** Opening and loading *)

Lemma openmem_load_some (s1 : sys) file_buf a filepath id content :
  can_alloc a (heap s1) (Z.of_nat (length content) + 1) = true ->
  Z.of_nat (length content) + 1 < 2 ^ size_bits ->
  exists buf last,
    heap s1 !! buf = None
    /\ openmem_load s1 file_buf a filepath id (Some content)
       = ({| heap := <[buf := content ++ [last]]> (heap s1);
             memfile_alloc := memfile_alloc s1 |},
          Some {| slot := file_buf;
                  header := {| type := FILE_TYPE_MEM; path := filepath;
                               size := Z.of_nat (length content);
                               mode := FILE_MODE_READ;
                               read_fn := Some READ_MEM; write_fn := None |};
                  fdata := {| alloc := Some a; buffer := Some buf;
                              offset := 0;
                              max_size := Z.of_nat (length content);
                              mem_id := id |} |}).
Proof.
  intros Hcan Hfit. unfold openmem_load.
  rewrite (FileIOProps.szt_small (Z.of_nat (length content))) by lia.
  rewrite (FileIOProps.szt_small (Z.of_nat (length content) + 1)) by lia.
  destruct (A_ALLOC a (heap s1) (Z.of_nat (length content) + 1))
    as [[buf h2]|] eqn:Halloc.
  2: { unfold A_ALLOC in Halloc. rewrite Hcan in Halloc. discriminate. }
  destruct (alloc_fresh _ _ _ _ _ Halloc) as [Hnone ->].
  rewrite lookup_insert_eq.
  change (default [] (Some ?b)) with b.
  assert (Hlen : (length content
                  < length (replicate
                              (Z.to_nat (Z.of_nat (length content) + 1))
                              "000"%byte))%nat)
    by (rewrite length_replicate; lia).
  destruct (lookup_lt_is_Some_2 _ _ Hlen) as [last Hlast].
  exists buf, last. split; [exact Hnone|].
  rewrite insert_insert_eq, Nat2Z.id, firstn_all.
  rewrite (drop_S _ _ _ Hlast), drop_ge by (rewrite length_replicate; lia).
  reflexivity.
Qed.

(** X9: what [fio_openmem] builds from a file.  For a path that no
    archive serves and whose stream opens with [content], with a slot
    and a buffer to be had, the open returns a read-only handle in
    order that carries the logical path, stands at position 0 and
    holds exactly [content]; its buffer is one byte longer than the
    file, and nothing is said of that last byte, which the open never
    writes.  Reading the whole size returns [content], and a write
    through the handle goes through a null function pointer. *)
Theorem openmem_holds_file_contents
  (g : file_mgr) (fs : filesystem) (s : sys) (a : allocator)
  (filepath : string) (ignore_vfs : bool) (id : Z) (content : list byte) :
  openmem_archive g filepath ignore_vfs = None ->
  openmem_stream g fs filepath ignore_vfs = Some content ->
  pool_room (memfile_alloc s) ->
  can_alloc a (heap s) (Z.of_nat (length content) + 1) = true ->
  Z.of_nat (length content) + 1 < 2 ^ size_bits ->
  exists s1 f,
    fio_openmem g fs s a filepath ignore_vfs id = (s1, Some f)
    /\ handle_ok s1 f
    /\ file_contents s1 f = Some content
    /\ (exists last, file_block s1 f = Some (content ++ [last]))
    /\ fio_getsize f = Z.of_nat (length content)
    /\ fio_getpos f = 0
    /\ path (header f) = filepath
    /\ (exists f',
          fio_read s1 f 1 (Z.of_nat (length content))
          = Some (f', content, Z.of_nat (length content)))
    /\ (forall data isz cnt, fio_write s1 f data isz cnt = None).
Proof.
  intros Harch Hstream Hroom Hcan Hfit.
  unfold fio_openmem, fio_alloc_membuff, mem_pool_alloc.
  rewrite Harch, Hstream.
  destruct (decide _) as [_|?]; [|contradiction].
  destruct (openmem_load_some
              {| heap := heap s;
                 memfile_alloc :=
                   {| live := {[fresh (live (memfile_alloc s))]}
                              ∪ live (memfile_alloc s);
                      slots_max := slots_max (memfile_alloc s) |} |}
              (fresh (live (memfile_alloc s))) a filepath id content
              Hcan Hfit) as (buf & last & Hnone & Hload).
  rewrite Hload.
  match goal with
  | |- exists s1 f, (?S, Some ?F) = _ /\ _ =>
      set (s1 := S); set (f0 := F); exists s1, f0
  end.
  split; [reflexivity|].
  assert (Hblock : file_block s1 f0 = Some (content ++ [last])).
  { unfold file_block. cbn. apply lookup_insert_eq. }
  assert (Hok : handle_ok s1 f0).
  { exists (content ++ [last]). split; [exact Hblock|]. cbn.
    rewrite length_app. cbn. lia. }
  assert (Hc : file_contents s1 f0 = Some content).
  { rewrite (file_contents_block _ _ _ Hblock). cbn.
    rewrite Nat2Z.id, take_app_length. reflexivity. }
  split; [exact Hok|]. split; [exact Hc|].
  split; [exists last; exact Hblock|].
  split; [reflexivity|]. split; [reflexivity|]. split; [reflexivity|].
  split; [|intros; reflexivity].
  destruct (readmem_items s1 f0 content 1
              (Z.of_nat (length content)) Hok Hc)
    as (f' & Hread & _); [cbn; lia | lia | lia | cbn; lia |].
  exists f'. unfold fio_read.
  change (read_fn (header f0)) with (Some READ_MEM). cbv iota.
  rewrite Hread.
  change (size (header f0)) with (Z.of_nat (length content)).
  change (offset (fdata f0)) with 0.
  rewrite Z.sub_0_r, Z.div_1_r, Z.min_id, Z.mul_1_r, Nat2Z.id.
  change (Z.to_nat 0) with 0%nat. rewrite drop_0, firstn_all. reflexivity.
Qed.

(** X10: a failed [fio_openmem] leaves no trace.  When no archive serves
    the path and the open returns null -- the path does not resolve,
    no handle slot is free, or the buffer cannot be allocated -- the
    heap and the set of used handle slots are as before. *)
Theorem openmem_failure_leaves_no_trace
  (g : file_mgr) (fs : filesystem) (s : sys) (a : allocator)
  (filepath : string) (ignore_vfs : bool) (id : Z) :
  openmem_archive g filepath ignore_vfs = None ->
  snd (fio_openmem g fs s a filepath ignore_vfs id) = None ->
  heap (fst (fio_openmem g fs s a filepath ignore_vfs id)) = heap s
  /\ live (memfile_alloc (fst (fio_openmem g fs s a filepath ignore_vfs id)))
     = live (memfile_alloc s).
Proof.
  intros Harch. unfold fio_openmem, fio_alloc_membuff. rewrite Harch.
  destruct (mem_pool_alloc (memfile_alloc s)) as [[file_buf pool]|] eqn:Hpool;
    [|intros _; split; reflexivity].
  destruct (FileIOProps.pool_alloc_free_live _ _ _ Hpool) as [Hlive _].
  unfold openmem_load.
  destruct (openmem_stream g fs filepath ignore_vfs) as [content|];
    [|intros _; cbn; split; [reflexivity | exact Hlive]].
  cbn [heap].
  destruct (A_ALLOC _ _ _) as [[buf h2]|];
    [intros Hsome; discriminate Hsome|].
  intros _. cbn. split; [reflexivity | exact Hlive].
Qed.


(** *** The callers in zip.c and json.c *)

(** X12: what [zip_getfile] returns for a file of the archive.  When the
    archive has the path, the buffer is allocated, the extraction
    stores the uncompressed bytes and a handle slot is free, the
    result is a handle in order, positioned at 0, whose contents are
    the extracted bytes and whose size is the uncompressed size. *)
Theorem zip_getfile_holds_extracted_bytes
  (s : sys) (zip : mz_zip_archive) (filepath : string) (a : allocator)
  (idx : Z) (bytes : list byte) :
  mz_locate_file zip filepath = Some idx ->
  mz_extract_to_mem zip idx = Some bytes ->
  Z.of_nat (length bytes) = mz_uncomp_size zip idx ->
  Z.of_nat (length bytes) < 2 ^ size_bits ->
  can_alloc a (heap s) (Z.of_nat (length bytes)) = true ->
  pool_room (memfile_alloc s) ->
  exists s1 f,
    zip_getfile s zip filepath a = (s1, Some f)
    /\ handle_ok s1 f
    /\ file_contents s1 f = Some bytes
    /\ fio_getsize f = Z.of_nat (length bytes)
    /\ fio_getpos f = 0
    /\ path (header f) = filepath.
Proof.
  intros Hloc Hext Hlen Hfit Hcan Hroom. unfold zip_getfile.
  rewrite Hloc, Hext, <- Hlen.
  rewrite (FileIOProps.szt_small (Z.of_nat (length bytes))) by lia.
  destruct (A_ALLOC a (heap s) (Z.of_nat (length bytes)))
    as [[buff h1]|] eqn:Halloc.
  2: { unfold A_ALLOC in Halloc. rewrite Hcan in Halloc. discriminate. }
  unfold fio_attachmem, fio_alloc_membuff, mem_pool_alloc.
  cbn [memfile_alloc]. destruct (decide _) as [_|?]; [|contradiction].
  do 2 eexists. split; [reflexivity|].
  assert (Hres : resize (Z.to_nat (Z.of_nat (length bytes))) "000"%byte bytes
                 = bytes) by (rewrite Nat2Z.id; apply resize_all).
  rewrite Hres. unfold handle_ok, file_contents, file_block.
  cbn [fdata buffer heap header size offset max_size].
  rewrite lookup_insert_eq. split.
  { exists bytes. split; [reflexivity|]. lia. }
  split; [rewrite Nat2Z.id, firstn_all; reflexivity|].
  repeat split; reflexivity.
Qed.


Lemma readmem_buffer s f item_size items_cnt f' out k :
  fio_readmem s f item_size items_cnt = Some (f', out, k) ->
  buffer (fdata f') = buffer (fdata f).
Proof.
  unfold fio_readmem. destruct (item_size =? 0); [discriminate|].
  match goal with |- context [if ?c =? 0 then _ else _] =>
    destruct (c =? 0) end; [intros [= <- _ _]; reflexivity|].
  destruct (buffer (fdata f)) as [buf|] eqn:Hb; [|discriminate].
  destruct (heap s !! buf) as [block|]; [|discriminate].
  destruct (memcpy_from _ _ _); [|discriminate].
  intros [= <- _ _]. exact Hb.
Qed.

Lemma c_string_app_nul (c rest : list byte) :
  c_string (c ++ "000"%byte :: rest) = c_string c.
Proof.
  induction c as [|b c IH]; cbn; [reflexivity|].
  destruct (Byte.eqb b "000"); [reflexivity | f_equal; exact IH].
Qed.

(** X14: what [json_parsefilef] gives the parser.  For a handle in order
    that stands at the start of a file that is not empty, the parser
    is called on the contents of the file, as a C string; the result
    is the parser's, the handle then stands at the end of the file,
    and the temporary buffer has been freed: the memory is as before.
    For an empty file the parser is not called and null is returned. *)
Theorem json_parsefilef_parses_contents
  {J : Type} (cJSON_Parse : list byte -> option J)
  (s : sys) (f : file) (tmp_alloc : allocator) (c : list byte) :
  handle_ok s f ->
  file_contents s f = Some c ->
  read_fn (header f) = Some READ_MEM ->
  offset (fdata f) = 0 ->
  size (header f) + 1 < 2 ^ size_bits ->
  can_alloc tmp_alloc (heap s) (size (header f) + 1) = true ->
  (size (header f) = 0 ->
   json_parsefilef cJSON_Parse s f tmp_alloc = Some (s, f, None))
  /\ (0 < size (header f) ->
      exists s' f',
        json_parsefilef cJSON_Parse s f tmp_alloc
        = Some (s', f', cJSON_Parse (c_string c))
        /\ heap s' = heap s
        /\ memfile_alloc s' = memfile_alloc s
        /\ fio_getpos f' = size (header f)
        /\ file_contents s' f' = Some c).
Proof.
  intros Hok Hc Hrd Hofs Hfit Hcan. unfold json_parsefilef, fio_getsize.
  split; [intros ->; reflexivity|]. intros Hpos.
  pose proof (handle_ok_contents_length _ _ _ Hok Hc) as Hlenc.
  set (sz := size (header f)) in *.
  destruct (Z.eqb_spec sz 0) as [?|_]; [lia|].
  rewrite (FileIOProps.szt_small (sz + 1)) by lia.
  destruct (A_ALLOC tmp_alloc (heap s) (sz + 1)) as [[buff h1]|] eqn:Halloc.
  2: { unfold A_ALLOC in Halloc. rewrite Hcan in Halloc. discriminate. }
  destruct (alloc_fresh _ _ _ _ _ Halloc) as [Hnone Hh1].
  set (s1 := {| heap := h1; memfile_alloc := memfile_alloc s |}).
  assert (Hblock1 : file_block s1 f = file_block s f).
  { unfold file_block. destruct (buffer (fdata f)) as [p|] eqn:Hp;
      [|reflexivity].
    cbn [s1 heap]. rewrite Hh1. apply lookup_insert_ne.
    intros ->. destruct Hok as (block & Hb & _).
    unfold file_block in Hb. rewrite Hp in Hb. congruence. }
  assert (Hok1 : handle_ok s1 f).
  { destruct Hok as (block & Hb & Hrest). exists block.
    rewrite Hblock1. split; assumption. }
  assert (Hc1 : file_contents s1 f = Some c).
  { unfold file_contents in *. rewrite Hblock1. exact Hc. }
  destruct (readmem_items s1 f c sz 1 Hok1 Hc1)
    as (f' & Hread & Hpos' & Hhdr & Hok' & Hc');
    [fold sz; lia | lia | lia | rewrite Hofs; lia |].
  pose proof (alloc_free_same _ _ _ _ _ Halloc) as Hfree.
  assert (Hlk : h1 !! buff = Some (replicate (Z.to_nat (sz + 1)) "000"%byte))
    by (rewrite Hh1; apply lookup_insert_eq).
  unfold fio_read. rewrite Hrd, Hread. fold sz. rewrite Hofs.
  rewrite Z.sub_0_r, Z.div_same, Z.min_id, Z.mul_1_l by lia.
  change (Z.to_nat 0) with 0%nat. rewrite drop_0.
  rewrite take_ge by lia.
  rewrite Hlk, length_replicate, Hfree.
  destruct (Z.ltb_spec sz (Z.of_nat (Z.to_nat (sz + 1)))) as [_|?]; [|lia].
  rewrite drop_replicate.
  replace (Z.to_nat (sz + 1) - length c)%nat with 1%nat by lia.
  cbn [replicate].
  replace (Z.to_nat sz) with (length c + 0)%nat by lia.
  rewrite insert_app_r. cbn [insert list_insert].
  rewrite c_string_app_nul.
  do 2 eexists. split; [reflexivity|]. cbn [heap memfile_alloc].
  split; [reflexivity|]. split; [reflexivity|].
  rewrite Hofs, Z.sub_0_r, Z.div_same, Z.min_id in Hpos' by lia.
  split; [fold sz in Hpos'; lia|].
  pose proof (readmem_buffer _ _ _ _ _ _ _ Hread) as Hbuf.
  clear Hc1 Hc'. unfold file_contents in *. rewrite Hhdr.
  replace (file_block {| heap := heap s; memfile_alloc := memfile_alloc s |}
             f') with (file_block s f); [exact Hc|].
  unfold file_block. rewrite Hbuf. reflexivity.
Qed.

(** *** The monitor, one thread at a time *)

Lemma mon_update_vdir_spec tbl vd :
  snd (mon_update_vdir tbl vd) = vdir_calls tbl vd
  /\ monitor (fst (mon_update_vdir tbl vd)) = monitor vd
  /\ vpath (fst (mon_update_vdir tbl vd)) = vpath vd
  /\ (monitor vd = true -> vdir_idle vd ->
      vdir_idle (fst (mon_update_vdir tbl vd))
      /\ back_list (fst (mon_update_vdir tbl vd)) = []).
Proof.
  unfold mon_update_vdir, vdir_calls.
  destruct (monitor vd) eqn:Hmon; cbn [negb fst snd].
  2: { repeat split; try assumption; discriminate. }
  fold (front_list (mon_swap vd)). rewrite MonitorProps.mon_swap_front.
  split; [reflexivity|].
  split; [destruct (frontbuff (mon_swap vd)); exact Hmon|].
  split; [destruct (frontbuff (mon_swap vd)); reflexivity|].
  intros _ [Hne Hfront].
  assert (Hne' : frontbuff (mon_swap vd) <> backbuff (mon_swap vd))
    by (cbn; exact Hne).
  unfold vdir_idle, front_list, back_list.
  rewrite MonitorProps.arr_store_backbuff, MonitorProps.arr_store_frontbuff,
    MonitorProps.arr_deref_store_eq,
    (MonitorProps.arr_deref_store_ne _ _ _ _ Hne').
  split; [split; [congruence | reflexivity]|].
  fold (back_list (mon_swap vd)). rewrite MonitorProps.mon_swap_back.
  exact Hfront.
Qed.

Lemma mon_update_loop_spec tbl vds :
  snd (mon_update_loop tbl vds) = flat_map (vdir_calls tbl) vds
  /\ map monitor (fst (mon_update_loop tbl vds)) = map monitor vds
  /\ map vpath (fst (mon_update_loop tbl vds)) = map vpath vds
  /\ (Forall (fun vd => monitor vd = true -> vdir_idle vd) vds ->
      Forall (fun vd => monitor vd = true ->
                        vdir_idle vd /\ back_list vd = [])
             (fst (mon_update_loop tbl vds))).
Proof.
  induction vds as [|vd vds (IHc & IHm & IHp & IHi)];
    [repeat split; constructor|].
  cbn [mon_update_loop flat_map map].
  destruct (mon_update_vdir_spec tbl vd) as (Hc & Hm & Hp & Hi).
  destruct (mon_update_vdir tbl vd) as [vd' cs].
  destruct (mon_update_loop tbl vds) as [rest' cs'].
  cbn [fst snd map] in *.
  split; [congruence|]. split; [congruence|]. split; [congruence|].
  intros Hall. apply Forall_cons in Hall as [Hvd Hall].
  constructor; [|exact (IHi Hall)].
  intros Hmon'. rewrite Hm in Hmon'. exact (Hi Hmon' (Hvd Hmon')).
Qed.

Lemma flat_map_nil {A B} (f : A -> list B) (l : list A) :
  Forall (fun x => f x = []) l -> flat_map f l = [].
Proof.
  induction 1 as [|x l Hx _ IH]; [reflexivity|].
  cbn. rewrite Hx, IH. reflexivity.
Qed.

(** X15: what one [fio_mon_update] does when no watcher runs between
    its steps.  It makes, directory by directory in registration
    order, the registered callbacks of the paths of each monitored
    directory's back list, in the order they were reported, and leaves
    archives, registry and the directories' paths and monitor flags as
    they were.  When the monitored directories were between two polls,
    they are so afterwards with nothing reported, and a second update
    right after makes no call. *)
Theorem mon_update_dispatches_reported (g : file_mgr) :
  Forall (fun vd => monitor vd = true -> vdir_idle vd) (vdirs g) ->
  snd (fio_mon_update g) = flat_map (vdir_calls (mon_table g)) (vdirs g)
  /\ paks (fst (fio_mon_update g)) = paks g
  /\ mon_table (fst (fio_mon_update g)) = mon_table g
  /\ map vpath (vdirs (fst (fio_mon_update g))) = map vpath (vdirs g)
  /\ map monitor (vdirs (fst (fio_mon_update g))) = map monitor (vdirs g)
  /\ Forall (fun vd => monitor vd = true ->
                       vdir_idle vd /\ back_list vd = [])
            (vdirs (fst (fio_mon_update g)))
  /\ snd (fio_mon_update (fst (fio_mon_update g))) = [].
Proof.
  intros Hall. unfold fio_mon_update at 1 2 3 4 5 6.
  destruct (mon_update_loop_spec (mon_table g) (vdirs g))
    as (Hc & Hm & Hp & Hi).
  destruct (mon_update_loop (mon_table g) (vdirs g)) as [vds cs] eqn:Hloop.
  cbn [fst snd vdirs paks mon_table] in *.
  repeat (split; [first [assumption | reflexivity | exact (Hi Hall)]|]).
  unfold fio_mon_update. rewrite Hloop. cbn [fst vdirs mon_table].
  destruct (mon_update_loop_spec (mon_table g) vds) as (Hc2 & _).
  destruct (mon_update_loop (mon_table g) vds) as [vds2 cs2].
  cbn [fst snd] in *. rewrite Hc2. apply flat_map_nil.
  eapply Forall_impl; [exact (Hi Hall)|].
  intros vd Hvd. unfold vdir_calls.
  destruct (monitor vd) eqn:E; [|reflexivity].
  destruct (Hvd E) as [_ ->]. reflexivity.
Qed.

Lemma flat_map_alter_only {A B} (f : A -> list B) (h : A -> A) :
  forall (l : list A) (i : nat) (x : A),
  Forall (fun y => f y = []) l ->
  l !! i = Some x ->
  flat_map f (alter h i l) = f (h x).
Proof.
  induction l as [|y l IH]; intros i x Hall Hi; [discriminate Hi|].
  apply Forall_cons in Hall as [Hy Hall].
  destruct i as [|i]; cbn in Hi |- *.
  - injection Hi as ->. rewrite (flat_map_nil _ _ Hall). apply app_nil_r.
  - rewrite Hy. apply (IH i x Hall Hi).
Qed.

Lemma callback_monitor vd action filename :
  monitor (fio_mon_callback vd action filename) = monitor vd.
Proof.
  unfold fio_mon_callback.
  destruct action; try reflexivity;
    destruct (negb _); try reflexivity;
    destruct (backbuff vd); reflexivity.
Qed.

(** X16: registration, report and poll, end to end, and the key of the
    registry.  In a manager whose monitored directories are between
    two polls with nothing reported, after [fio_mon_reg] of a path
    whose hash is not yet in the registry, a change (modified or
    moved) that the watcher reports in a monitored directory for a
    file name whose unix form has the hash of the registered path
    makes the next [fio_mon_update] call the registered function once,
    with the reported path; only the hash of the registered path is
    compared, not the path.  [fio_mon_unreg] of the path gives back
    the manager as it was, in which the same report makes the update
    call nothing. *)
Theorem registered_change_is_dispatched
  (g : file_mgr) (i : nat) (vd : vdir) (regpath filename : string)
  (action : efsw_action) (fn' hdl' param1' param2' : Z) :
  vdirs g !! i = Some vd ->
  monitor vd = true ->
  Forall (fun vd => monitor vd = true -> vdir_idle vd /\ back_list vd = [])
         (vdirs g) ->
  action = EFSW_MODIFIED \/ action = EFSW_MOVED ->
  Hash.hash_str regpath = Hash.hash_str (path_tounix filename) ->
  mon_table g !! Hash.hash_str regpath = None ->
  snd (fio_mon_update
         (mon_notify (fio_mon_reg g regpath fn' hdl' param1' param2')
                     i action filename))
  = [{| call_path := path_tounix filename;
        call_item := {| fn := fn'; hdl := hdl'; param1 := param1';
                        param2 := param2' |} |}]
  /\ fio_mon_unreg (fio_mon_reg g regpath fn' hdl' param1' param2') regpath
     = g
  /\ snd (fio_mon_update (mon_notify g i action filename)) = [].
Proof.
  intros Hi Hmon Hall Hact Hhash Hnone.
  assert (Hquiet : forall tbl,
             Forall (fun y => vdir_calls tbl y = []) (vdirs g)).
  { intros tbl. eapply Forall_impl; [exact Hall|].
    intros y Hy. unfold vdir_calls.
    destruct (monitor y) eqn:E; [|reflexivity].
    destruct (Hy E) as [_ ->]. reflexivity. }
  assert (Hcalls : forall tbl,
             flat_map (vdir_calls tbl)
               (alter (fun vd => fio_mon_callback vd action filename) i
                      (vdirs g))
             = mon_dispatch tbl (path_tounix filename)).
  { intros tbl. rewrite (flat_map_alter_only _ _ _ i vd (Hquiet tbl) Hi).
    unfold vdir_calls. rewrite callback_monitor, Hmon.
    destruct (Forall_lookup_1 _ _ _ _ Hall Hi Hmon) as [[Hne _] Hback].
    destruct (MonitorProps.callback_lists vd action filename Hne)
      as (_ & _ & _ & ->).
    rewrite Hback. cbn [fio_find_file app].
    destruct Hact as [-> | ->]; cbn; apply app_nil_r. }
  split; [|split].
  - unfold fio_mon_update.
    destruct (mon_update_loop_spec
                (mon_table (mon_notify
                   (fio_mon_reg g regpath fn' hdl' param1' param2')
                   i action filename))
                (vdirs (mon_notify
                   (fio_mon_reg g regpath fn' hdl' param1' param2')
                   i action filename))) as (Hc & _).
    destruct (mon_update_loop _ _) as [vds cs]. cbn [fst snd] in *.
    rewrite Hc. cbn [mon_notify fio_mon_reg vdirs mon_table].
    rewrite Hcalls. unfold mon_dispatch.
    rewrite <- Hhash, lookup_insert_eq. reflexivity.
  - unfold fio_mon_unreg, fio_mon_reg. cbn [mon_table vdirs paks].
    rewrite lookup_insert_eq, delete_insert_eq, (delete_id _ _ Hnone).
    destruct g; reflexivity.
  - unfold fio_mon_update.
    destruct (mon_update_loop_spec
                (mon_table (mon_notify g i action filename))
                (vdirs (mon_notify g i action filename))) as (Hc & _).
    destruct (mon_update_loop _ _) as [vds cs]. cbn [fst snd] in *.
    rewrite Hc. cbn [mon_notify vdirs mon_table].
    rewrite Hcalls. unfold mon_dispatch.
    rewrite <- Hhash, Hnone. reflexivity.
Qed.

End WithPlatform.

Section WithDirEnv.
Context {P : Platform} {D : DirEnv}.

Lemma resolvepath_loop_app fs vds1 vds2 p :
  resolvepath_loop fs (vds1 ++ vds2) p
  = match resolvepath_loop fs vds1 p with
    | Some c => Some c
    | None => resolvepath_loop fs vds2 p
    end.
Proof.
  induction vds1 as [|vd vds1 IH]; [reflexivity|].
  cbn. destruct (fs _); [reflexivity | exact IH].
Qed.


Lemma arr_isempty_app {A} (l : list A) (x : A) :
  arr_isempty (l ++ [x]) = false.
Proof. destruct l; reflexivity. Qed.

(** X17: [fio_addvdir], for a name that is not empty.  A directory
    that is not one on disk is refused, and so is any when the array
    of directories cannot grow: the call returns [FALSE] and the
    manager stays as it is.  Else the directory is appended after the
    directories registered before it.  Not monitored, the call returns
    [TRUE].  Monitored, and with a watcher to be had, the directory
    gets its two empty arrays (it is between two polls, nothing
    reported) and the call returns what [efsw_addwatch] on its path
    allows: [FALSE] comes back with the directory appended all the
    same.  In both cases archives and
    registry are untouched, and from then on an open that does not
    bypass resolution looks in the directories registered before, in
    their order, and in the new one only when none of them opens the
    path -- and never at the raw path.  Monitored with no watcher to
    be had, the call returns [FALSE] with the directory appended
    before its arrays exist. *)
Theorem addvdir_appends_directory
  (g : file_mgr) (directory : string) (mon : bool) :
  directory <> ""%string ->
  (util_pathisdir (path_norm directory) = false
   \/ arr_add_ok (vdirs g) = false ->
   fio_addvdir g directory mon = ADDVDIR_RET false g)
  /\ (util_pathisdir (path_norm directory) = true ->
      arr_add_ok (vdirs g) = true ->
      (mon = true -> watcher_ready = false ->
       fio_addvdir g directory mon
       = ADDVDIR_NOWATCHER g (path_norm (path_norm directory)))
      /\ ((mon = true -> watcher_ready = true) ->
          exists g' vd,
            fio_addvdir g directory mon
            = ADDVDIR_RET
                (if mon then efsw_addwatch (path_norm (path_norm directory))
                 else true) g'
            /\ vdirs g' = vdirs g ++ [vd]
            /\ vpath vd = path_norm (path_norm directory)
            /\ monitor vd = mon
            /\ (mon = true -> vdir_idle vd /\ back_list vd = [])
            /\ paks g' = paks g
            /\ mon_table g' = mon_table g
            /\ forall fs p,
                 openmem_stream g' fs p false
                 = match open_resolvepath g fs p with
                   | Some c => Some c
                   | None =>
                       fs (path_join (path_norm (path_norm directory)) p)
                   end)).
Proof.
  intros Hdir. unfold fio_addvdir.
  destruct (String.eqb_spec directory "") as [?|_]; [contradiction|].
  rewrite andb_false_r.
  split.
  { intros [-> | Hfull]; cbn [negb]; [reflexivity|].
    destruct (util_pathisdir _); cbn [negb]; [|reflexivity].
    rewrite Hfull. reflexivity. }
  intros -> ->. cbn [negb]. split.
  { intros -> ->. reflexivity. }
  intros Hwatch.
  assert (Hopen : forall vd fs p,
            openmem_stream
              {| vdirs := vdirs g ++ [vd]; paks := paks g;
                 mon_table := mon_table g |} fs p false
            = match open_resolvepath g fs p with
              | Some c => Some c
              | None => fs (path_join (vpath vd) p)
              end).
  { intros vd fs p. unfold openmem_stream, open_resolvepath.
    cbn [vdirs negb]. rewrite arr_isempty_app, resolvepath_loop_app.
    cbn [negb andb]. destruct (resolvepath_loop fs (vdirs g) p);
      [reflexivity|].
    cbn [resolvepath_loop]. destruct (fs _); reflexivity. }
  destruct mon.
  - rewrite (Hwatch eq_refl). cbn [negb].
    do 2 eexists. split; [reflexivity|]. cbn [vdirs paks mon_table].
    split; [reflexivity|]. split; [reflexivity|]. split; [reflexivity|].
    split; [intros _; split; [split; [discriminate|]|]; reflexivity|].
    split; [reflexivity|]. split; [reflexivity|].
    intros fs p. apply Hopen.
  - do 2 eexists. split; [reflexivity|]. cbn [vdirs paks mon_table].
    split; [reflexivity|]. split; [reflexivity|]. split; [reflexivity|].
    split; [intros Hmon; discriminate Hmon|].
    split; [reflexivity|]. split; [reflexivity|].
    intros fs p. apply Hopen.
Qed.


End WithDirEnv.

(** Instances on the 64 bit debug build. *)

Lemma attached_handle_ok (o : Z) :
  0 <= o <= 4 -> handle_ok attached_sys (set_offset attached_file o).
Proof.
  intros Ho. exists ["p"; "q"; "r"; "s"]%byte.
  split; [reflexivity|]. cbn. lia.
Qed.

Lemma writemem_overwrites_or_extends_witness :
  exists s' f',
    fio_writemem (P:=lp64_debug) attached_sys (set_offset attached_file 2)
      ["a"; "b"; "c"]%byte 1 3 = Some (s', f', 3)
    /\ file_contents s' f' = Some ["p"; "q"; "a"; "b"; "c"]%byte
    /\ fio_getpos f' = 5
    /\ fio_getsize f' = 5.
Proof.
  destruct (writemem_overwrites_or_extends (P:=lp64_debug) attached_sys
              (set_offset attached_file 2) ["p"; "q"; "r"; "s"]%byte
              ["a"; "b"; "c"]%byte 1 3)
    as (s' & f' & Hw & _ & Hc & Hp & Hs & _).
  - apply attached_handle_ok. lia.
  - reflexivity.
  - reflexivity.
  - vm_compute. reflexivity.
  - intros _. exists heap_alloc. split; [reflexivity|].
    intros sz. reflexivity.
  - exists s', f'. split; [exact Hw|]. split; [exact Hc|].
    split; [exact Hp | exact Hs].
Defined.

Lemma readmem_returns_whole_items_witness :
  exists f',
    fio_readmem (P:=lp64_debug) attached_sys attached_file 3 2
    = Some (f', ["p"; "q"; "r"]%byte, 1)
    /\ fio_getpos f' = 3.
Proof.
  destruct (readmem_returns_whole_items (P:=lp64_debug) attached_sys
              attached_file ["p"; "q"; "r"; "s"]%byte 3 2)
    as (f' & Hr & Hp & _).
  - apply (attached_handle_ok 0). lia.
  - reflexivity.
  - vm_compute. reflexivity.
  - lia.
  - lia.
  - vm_compute. reflexivity.
  - exists f'. split; [exact Hr | exact Hp].
Defined.

Lemma seek_inside_file_is_exact_witness :
  fio_seek (P:=lp64_debug) attached_file SEEK_MODE_END 1
  = Some (set_offset attached_file 3).
Proof.
  apply (seek_inside_file_is_exact (P:=lp64_debug) attached_file
           SEEK_MODE_END 1).
  - vm_compute. reflexivity.
  - intros _ _. lia.
  - cbn. lia.
Defined.

Lemma seek_outside_file_lands_at_end_witness :
  fio_seek (P:=lp64_debug) attached_file SEEK_MODE_START (-5)
  = Some (set_offset attached_file 4).
Proof.
  apply (seek_outside_file_lands_at_end (P:=lp64_debug) attached_file
           SEEK_MODE_START (-5)).
  - cbn. lia.
  - intros _ H. discriminate H.
  - left. cbn. lia.
Defined.

Lemma write_then_read_back_witness :
  exists s1 f1 f2 f3,
    fio_writemem (P:=lp64_debug) attached_sys (set_offset attached_file 2)
      ["a"; "b"; "c"]%byte 1 3 = Some (s1, f1, 3)
    /\ fio_seek (P:=lp64_debug) f1 SEEK_MODE_START 2 = Some f2
    /\ fio_readmem (P:=lp64_debug) s1 f2 1 3
       = Some (f3, ["a"; "b"; "c"]%byte, 3).
Proof.
  apply (write_then_read_back (P:=lp64_debug) attached_sys
           (set_offset attached_file 2) ["p"; "q"; "r"; "s"]%byte
           ["a"; "b"; "c"]%byte).
  - apply attached_handle_ok. lia.
  - reflexivity.
  - unfold int_range, INT_MIN, INT_MAX. cbn. lia.
  - vm_compute. reflexivity.
  - vm_compute. reflexivity.
  - intros _. exists heap_alloc. split; [reflexivity|].
    intros sz. reflexivity.
Defined.

Lemma writes_at_end_append_witness :
  exists s' f',
    write_all (P:=lp64_debug) attached_sys (set_offset attached_file 4)
      (byte_writes [["a"; "b"]; []; ["c"]]%byte) = Some (s', f')
    /\ file_contents s' f' = Some ["p"; "q"; "r"; "s"; "a"; "b"; "c"]%byte
    /\ fio_getpos f' = 7
    /\ fio_getsize f' = 7.
Proof.
  apply (writes_at_end_append (P:=lp64_debug) heap_alloc
           [["a"; "b"]; []; ["c"]]%byte attached_sys
           (set_offset attached_file 4) ["p"; "q"; "r"; "s"]%byte).
  - apply attached_handle_ok. lia.
  - reflexivity.
  - reflexivity.
  - reflexivity.
  - intros h sz. reflexivity.
  - vm_compute. reflexivity.
Defined.

Lemma attach_then_detach_returns_buffer_witness :
  exists s1 f,
    fio_attachmem sys0 heap_alloc (Some 9%N) 16 "blob" 0 = (s1, Some f)
    /\ det_buffer (fio_detachmem f true) = Some 9%N
    /\ det_outsize (fio_detachmem f true) = Some 16
    /\ det_buffer (fio_detachmem (det_file (fio_detachmem f true)) true)
       = None.
Proof.
  destruct (attach_then_detach_returns_buffer sys0 heap_alloc 9%N 16
              "blob" 0)
    as (s1 & f & Ha & _ & _ & _ & Hb & Hs & _ & Hb2 & _).
  - unfold pool_room. vm_compute. lia.
  - exists s1, f. split; [exact Ha|]. split; [exact Hb|].
    split; [exact Hs | exact Hb2].
Defined.

Lemma openmem_holds_file_contents_witness :
  exists s1 f f',
    fio_openmem (P:=lp64_debug) demo_mgr demo_fs sys0 heap_alloc "b.txt"
      false 0 = (s1, Some f)
    /\ file_contents s1 f = Some ["v"; "d"]%byte
    /\ (exists last, file_block s1 f = Some ["v"; "d"; last]%byte)
    /\ fio_getsize f = 2
    /\ fio_read (P:=lp64_debug) s1 f 1 2 = Some (f', ["v"; "d"]%byte, 2).
Proof.
  destruct (openmem_holds_file_contents (P:=lp64_debug) demo_mgr demo_fs
              sys0 heap_alloc "b.txt" false 0 ["v"; "d"]%byte)
    as (s1 & f & Ho & _ & Hc & Hb & Hs & _ & _ & (f' & Hr) & _).
  - reflexivity.
  - reflexivity.
  - unfold pool_room. vm_compute. lia.
  - reflexivity.
  - vm_compute. reflexivity.
  - exists s1, f, f'. split; [exact Ho|]. split; [exact Hc|].
    split; [exact Hb|]. split; [exact Hs | exact Hr].
Defined.

Lemma openmem_failure_leaves_no_trace_witness :
  heap (fst (fio_openmem (P:=lp64_debug) demo_mgr demo_fs sys0 heap_alloc
               "a.txt" false 0)) = heap sys0
  /\ live (memfile_alloc
             (fst (fio_openmem (P:=lp64_debug) demo_mgr demo_fs sys0
                     heap_alloc "a.txt" false 0)))
     = live (memfile_alloc sys0).
Proof.
  apply (openmem_failure_leaves_no_trace (P:=lp64_debug) demo_mgr demo_fs
           sys0 heap_alloc "a.txt" false 0).
  - reflexivity.
  - vm_compute. reflexivity.
Defined.


Lemma zip_getfile_holds_extracted_bytes_witness :
  exists s1 f,
    zip_getfile (P:=lp64_debug) sys0 demo_zip "cfg.json" heap_alloc
    = (s1, Some f)
    /\ file_contents s1 f = Some ["{"; "}"]%byte
    /\ fio_getsize f = 2.
Proof.
  destruct (zip_getfile_holds_extracted_bytes (P:=lp64_debug) sys0 demo_zip
              "cfg.json" heap_alloc 0 ["{"; "}"]%byte)
    as (s1 & f & Hz & _ & Hc & Hs & _).
  - reflexivity.
  - reflexivity.
  - reflexivity.
  - vm_compute. reflexivity.
  - reflexivity.
  - unfold pool_room. vm_compute. lia.
  - exists s1, f. split; [exact Hz|]. split; [exact Hc | exact Hs].
Defined.


Lemma json_parsefilef_parses_contents_witness :
  exists s' f',
    json_parsefilef (P:=lp64_debug) (fun text => Some (length text))
      attached_sys attached_file heap_alloc = Some (s', f', Some 4%nat)
    /\ heap s' = heap attached_sys
    /\ fio_getpos f' = 4.
Proof.
  destruct (json_parsefilef_parses_contents (P:=lp64_debug)
              (fun text => Some (length text)) attached_sys attached_file
              heap_alloc ["p"; "q"; "r"; "s"]%byte) as [_ Hparse].
  - apply (attached_handle_ok 0). lia.
  - reflexivity.
  - reflexivity.
  - reflexivity.
  - vm_compute. reflexivity.
  - reflexivity.
  - destruct Hparse as (s' & f' & Hj & Hh & _ & Hp & _); [cbn; lia|].
    exists s', f'. split; [exact Hj|]. split; [exact Hh | exact Hp].
Defined.

Lemma mon_update_dispatches_reported_witness :
  map call_path (snd (fio_mon_update reported_mgr))
  = ["tex/a.dds"; "fx/b.glsl"]%string
  /\ snd (fio_mon_update (fst (fio_mon_update reported_mgr))) = [].
Proof.
  destruct (mon_update_dispatches_reported reported_mgr)
    as (Hc & _ & _ & _ & _ & _ & Hagain).
  - constructor; [intros _; split; [discriminate | reflexivity]|].
    constructor; [intros H; discriminate H | constructor].
  - split; [rewrite Hc; vm_compute; reflexivity | exact Hagain].
Defined.

Lemma registered_change_is_dispatched_witness :
  snd (fio_mon_update
         (mon_notify (P:=lp64_debug)
            (fio_mon_reg quiet_mgr "tex/t12775.dds" 7 70 0 0)
            1 EFSW_MODIFIED "tex/t32615.dds"))
  = [{| call_path := "tex/t32615.dds";
        call_item := {| fn := 7; hdl := 70; param1 := 0; param2 := 0 |} |}]
  /\ fio_mon_unreg (fio_mon_reg quiet_mgr "tex/t12775.dds" 7 70 0 0)
       "tex/t12775.dds" = quiet_mgr
  /\ snd (fio_mon_update
            (mon_notify (P:=lp64_debug) quiet_mgr 1 EFSW_MODIFIED
               "tex/t32615.dds")) = [].
Proof.
  apply (registered_change_is_dispatched (P:=lp64_debug) quiet_mgr 1
           (fio_vdir_initmon "data") "tex/t12775.dds" "tex/t32615.dds"
           EFSW_MODIFIED 7 70 0 0).
  - reflexivity.
  - reflexivity.
  - constructor; [intros H; discriminate H|].
    constructor; [|constructor].
    intros _. split; [split; [discriminate | reflexivity] | reflexivity].
  - left. reflexivity.
  - vm_compute. reflexivity.
  - reflexivity.
Defined.

Lemma addvdir_appends_directory_witness :
  fio_addvdir (P:=lp64_debug) (D:=demo_dirs) demo_mgr "nowhere" false
  = ADDVDIR_RET false demo_mgr
  /\ fio_addvdir (P:=lp64_debug) (D:=unwatched_dirs) demo_mgr "mods" true
     = ADDVDIR_NOWATCHER demo_mgr "mods"
  /\ (exists g',
        fio_addvdir (P:=lp64_debug) (D:=demo_dirs) demo_mgr "mods" true
        = ADDVDIR_RET true g'
        /\ openmem_stream (P:=lp64_debug) g' demo_fs "b.txt" false
           = Some ["v"; "d"]%byte
        /\ openmem_stream (P:=lp64_debug) g' demo_fs "a.txt" false = None)
  /\ (exists g',
        fio_addvdir (P:=lp64_debug) (D:=demo_dirs) demo_mgr "tmp" true
        = ADDVDIR_RET false g'
        /\ map vpath (vdirs g') = ["data"; "tmp"]%string).
Proof.
  split; [|split; [|split]].
  - apply (addvdir_appends_directory (P:=lp64_debug) (D:=demo_dirs)
             demo_mgr "nowhere" false); [discriminate | left; reflexivity].
  - destruct (addvdir_appends_directory (P:=lp64_debug) (D:=unwatched_dirs)
                demo_mgr "mods" true) as [_ Hadd]; [discriminate|].
    destruct (Hadd eq_refl eq_refl) as [Hnone _].
    apply Hnone; reflexivity.
  - destruct (addvdir_appends_directory (P:=lp64_debug) (D:=demo_dirs)
                demo_mgr "mods" true) as [_ Hadd]; [discriminate|].
    destruct (Hadd eq_refl eq_refl) as [_ Hsome].
    destruct Hsome as (g' & vd & Ha & _ & _ & _ & _ & _ & _ & Hopen);
      [reflexivity|].
    exists g'. split; [exact Ha|].
    split; rewrite Hopen; reflexivity.
  - destruct (addvdir_appends_directory (P:=lp64_debug) (D:=demo_dirs)
                demo_mgr "tmp" true) as [_ Hadd]; [discriminate|].
    destruct (Hadd eq_refl eq_refl) as [_ Hsome].
    destruct Hsome as (g' & vd & Ha & Hv & Hp & _); [reflexivity|].
    exists g'. split; [exact Ha|].
    rewrite Hv, map_app. cbn [map]. rewrite Hp. reflexivity.
Defined.


End FileIOExtra.

(** ** hash.c: the mixing steps are permutations of the 32-bit words *)

Module HashExtra.
Import Hash.

(** Words of [w] bits. *)

Lemma mod_testbit (w x i : Z) :
  0 <= w -> 0 <= i ->
  Z.testbit (x mod 2 ^ w) i = (i <? w) && Z.testbit x i.
Proof.
  intros Hw Hi. destruct (Z.ltb_spec i w) as [Hlt|Hge].
  - rewrite Z.mod_pow2_bits_low by lia. reflexivity.
  - rewrite Z.mod_pow2_bits_high by lia. reflexivity.
Qed.

Lemma high_bit (w x i : Z) :
  0 <= w -> 0 <= x < 2 ^ w -> w <= i -> Z.testbit x i = false.
Proof.
  intros Hw Hx Hi. rewrite <- (Z.mod_small x (2 ^ w) Hx).
  apply Z.mod_pow2_bits_high. lia.
Qed.

Lemma eq_bits (w x y : Z) :
  0 <= w -> 0 <= x < 2 ^ w -> 0 <= y < 2 ^ w ->
  (forall i, 0 <= i < w -> Z.testbit x i = Z.testbit y i) -> x = y.
Proof.
  intros Hw Hx Hy Hbits. apply Z.bits_inj'. intros i Hi.
  destruct (Z.lt_ge_cases i w) as [Hlt|Hge]; [apply Hbits; lia|].
  rewrite !(high_bit w) by assumption. reflexivity.
Qed.

(** [k *= c] for a constant with an inverse modulo 2^w. *)
Lemma mul_inj_mod (w c cinv x y : Z) :
  (c * cinv) mod 2 ^ w = 1 ->
  0 <= x < 2 ^ w -> 0 <= y < 2 ^ w ->
  (x * c) mod 2 ^ w = (y * c) mod 2 ^ w -> x = y.
Proof.
  intros Hinv Hx Hy H.
  assert (Hback : forall z, 0 <= z < 2 ^ w ->
            (((z * c) mod 2 ^ w) * cinv) mod 2 ^ w = z).
  { intros z Hz. rewrite Zmult_mod_idemp_l.
    rewrite <- Z.mul_assoc, <- Zmult_mod_idemp_r, Hinv, Z.mul_1_r.
    apply Z.mod_small. exact Hz. }
  rewrite <- (Hback x Hx), <- (Hback y Hy), H. reflexivity.
Qed.

(** [h ^= h >> s] *)
Lemma xorshift_inj_mod (w s x y : Z) :
  0 <= w -> 0 < s -> 0 <= x < 2 ^ w -> 0 <= y < 2 ^ w ->
  (Z.lxor x (Z.shiftr x s)) mod 2 ^ w = (Z.lxor y (Z.shiftr y s)) mod 2 ^ w ->
  x = y.
Proof.
  intros Hw Hs Hx Hy H.
  assert (Hbits : forall (n : nat) i,
             w - i <= Z.of_nat n -> 0 <= i ->
             Z.testbit x i = Z.testbit y i).
  { induction n as [|n IH]; intros i Hn Hi.
    - rewrite !(high_bit w) by (assumption || lia). reflexivity.
    - destruct (Z.lt_ge_cases i w) as [Hlt|Hge].
      2: { rewrite !(high_bit w) by (assumption || lia). reflexivity. }
      pose proof (f_equal (fun z => Z.testbit z i) H) as Hb.
      cbv beta in Hb.
      rewrite !mod_testbit, !Z.lxor_spec, !Z.shiftr_spec in Hb by lia.
      rewrite (IH (i + s)) in Hb by lia.
      destruct (Z.ltb_spec i w); [|lia]. cbn [andb] in Hb.
      destruct (Z.testbit x i), (Z.testbit y i), (Z.testbit y (i + s));
        cbn in Hb; congruence. }
  apply (eq_bits w); [assumption..|].
  intros i Hi. apply (Hbits (Z.to_nat w)); lia.
Qed.

(** The same for [uint]. *)

Lemma u32_testbit (x i : Z) :
  0 <= i -> Z.testbit (u32 x) i = (i <? 32) && Z.testbit x i.
Proof. intros Hi. apply mod_testbit; lia. Qed.

Lemma word_high_bit (x i : Z) :
  0 <= x < 2 ^ 32 -> 32 <= i -> Z.testbit x i = false.
Proof. apply high_bit. lia. Qed.

Lemma word_eq (x y : Z) :
  0 <= x < 2 ^ 32 -> 0 <= y < 2 ^ 32 ->
  (forall i, 0 <= i < 32 -> Z.testbit x i = Z.testbit y i) -> x = y.
Proof. apply eq_bits. lia. Qed.

Lemma mul_inj (c cinv x y : Z) :
  u32 (c * cinv) = 1 ->
  0 <= x < 2 ^ 32 -> 0 <= y < 2 ^ 32 ->
  u32 (x * c) = u32 (y * c) -> x = y.
Proof. apply mul_inj_mod. Qed.

Lemma xorshift_inj (s x y : Z) :
  0 < s -> 0 <= x < 2 ^ 32 -> 0 <= y < 2 ^ 32 ->
  u32 (Z.lxor x (Z.shiftr x s)) = u32 (Z.lxor y (Z.shiftr y s)) -> x = y.
Proof. apply xorshift_inj_mod. lia. Qed.

Lemma rotl32_bit (x r i : Z) :
  0 < r < 32 -> 0 <= x < 2 ^ 32 -> 0 <= i < 32 ->
  Z.testbit (rotl32 x r) i
  = Z.testbit x (if r <=? i then i - r else i + 32 - r).
Proof.
  intros Hr Hx Hi. unfold rotl32.
  rewrite u32_testbit, Z.lor_spec, Z.shiftl_spec, Z.shiftr_spec by lia.
  destruct (Z.ltb_spec i 32); [|lia]. cbn [andb].
  destruct (Z.leb_spec r i).
  - rewrite (word_high_bit x (i + (32 - r))) by (assumption || lia).
    apply orb_false_r.
  - rewrite (Z.testbit_neg_r x (i - r)) by lia. cbn [orb].
    f_equal. lia.
Qed.

Lemma rotl32_inj (r x y : Z) :
  0 < r < 32 -> 0 <= x < 2 ^ 32 -> 0 <= y < 2 ^ 32 ->
  rotl32 x r = rotl32 y r -> x = y.
Proof.
  intros Hr Hx Hy H. apply word_eq; [assumption | assumption |].
  intros j Hj.
  set (i := if j + r <? 32 then j + r else j + r - 32).
  assert (Hi : 0 <= i < 32) by (unfold i; destruct (Z.ltb_spec (j + r) 32); lia).
  pose proof (f_equal (fun z => Z.testbit z i) H) as Hb. cbv beta in Hb.
  rewrite !rotl32_bit in Hb by assumption.
  replace (if r <=? i then i - r else i + 32 - r) with j in Hb; [exact Hb|].
  unfold i. destruct (Z.ltb_spec (j + r) 32);
    match goal with |- context [?a <=? ?b] => destruct (Z.leb_spec a b) end;
    lia.
Qed.

(** [h ^= k] *)
Lemma xor_inj (h x y : Z) :
  0 <= x < 2 ^ 32 -> 0 <= y < 2 ^ 32 ->
  u32 (Z.lxor h x) = u32 (Z.lxor h y) -> x = y.
Proof.
  intros Hx Hy H. apply word_eq; [assumption | assumption |].
  intros i Hi.
  pose proof (f_equal (fun z => Z.testbit z i) H) as Hb. cbv beta in Hb.
  rewrite !u32_testbit, !Z.lxor_spec in Hb by lia.
  destruct (Z.ltb_spec i 32); [|lia]. cbn [andb] in Hb.
  destruct (Z.testbit h i), (Z.testbit x i), (Z.testbit y i);
    cbn in Hb; congruence.
Qed.

Lemma xor_inj_l (k x y : Z) :
  0 <= x < 2 ^ 32 -> 0 <= y < 2 ^ 32 ->
  u32 (Z.lxor x k) = u32 (Z.lxor y k) -> x = y.
Proof.
  intros Hx Hy H. rewrite !(Z.lxor_comm _ k) in H.
  exact (xor_inj k x y Hx Hy H).
Qed.

(** [h = h*5 + 0xe6546b64] *)
Lemma affine_inj (c x y : Z) :
  0 <= x < 2 ^ 32 -> 0 <= y < 2 ^ 32 ->
  u32 (x * 5 + c) = u32 (y * 5 + c) -> x = y.
Proof.
  intros Hx Hy H. apply (mul_inj 5 3435973837); [reflexivity | assumption..|].
  assert (Hback : forall z, u32 (u32 (z * 5 + c) - c) = u32 (z * 5)).
  { intros z. unfold u32. rewrite Zminus_mod_idemp_l. f_equal. lia. }
  rewrite <- (Hback x), <- (Hback y), H. reflexivity.
Qed.

Lemma fmix32_inj (x y : Z) :
  0 <= x < 2 ^ 32 -> 0 <= y < 2 ^ 32 -> fmix32 x = fmix32 y -> x = y.
Proof.
  intros Hx Hy H. unfold fmix32 in H.
  apply xorshift_inj in H; [|lia | apply u32_range..].
  apply (mul_inj _ 2127672349) in H; [|reflexivity | apply u32_range..].
  apply xorshift_inj in H; [|lia | apply u32_range..].
  apply (mul_inj _ 2781581891) in H; [|reflexivity | apply u32_range..].
  apply xorshift_inj in H; [|lia | assumption..].
  exact H.
Qed.

(** The bytes of a key, as the words the hash is computed from. *)

Lemma byte_val_inj (a b : byte) : byte_val a = byte_val b -> a = b.
Proof.
  unfold byte_val. intros H. apply N2Z.inj in H.
  pose proof (Byte.of_to_N a) as Ha. rewrite H, Byte.of_to_N in Ha.
  congruence.
Qed.

Lemma byte_bit_out (b : byte) (j : Z) :
  j < 0 \/ 8 <= j -> Z.testbit (byte_val b) j = false.
Proof.
  intros [Hj|Hj]; [apply Z.testbit_neg_r; exact Hj|].
  pose proof (byte_val_range b) as Hb.
  rewrite <- (Z.mod_small (byte_val b) (2 ^ 8)) by (change (2 ^ 8) with 256; lia).
  apply Z.mod_pow2_bits_high. lia.
Qed.

Lemma byte_eq_bits (a b : byte) :
  (forall i, 0 <= i < 8 -> Z.testbit (byte_val a) i = Z.testbit (byte_val b) i)
  -> a = b.
Proof.
  intros Hbits. apply byte_val_inj, Z.bits_inj'. intros i Hi.
  destruct (Z.lt_ge_cases i 8) as [Hlt|Hge]; [apply Hbits; lia|].
  rewrite !byte_bit_out by lia. reflexivity.
Qed.

(** The word made of up to four bytes, low byte first, by [|] or by
    [^]: bit [i] of it is bit [i - 8k] of its byte [k]. *)
Lemma getblock32_bit (b0 b1 b2 b3 : byte) (i : Z) :
  0 <= i ->
  Z.testbit (getblock32 b0 b1 b2 b3) i
  = Z.testbit (byte_val b0) i || Z.testbit (byte_val b1) (i - 8)
    || Z.testbit (byte_val b2) (i - 16) || Z.testbit (byte_val b3) (i - 24).
Proof.
  intros Hi. unfold getblock32.
  rewrite !Z.lor_spec, !Z.shiftl_spec by lia. reflexivity.
Qed.

Lemma getblock32_range (b0 b1 b2 b3 : byte) :
  0 <= getblock32 b0 b1 b2 b3 < 2 ^ 32.
Proof.
  assert (H : u32 (getblock32 b0 b1 b2 b3) = getblock32 b0 b1 b2 b3).
  { apply Z.bits_inj'. intros i Hi. rewrite u32_testbit by lia.
    destruct (Z.ltb_spec i 32) as [?|Hge]; [reflexivity|].
    rewrite getblock32_bit by lia.
    rewrite !byte_bit_out by lia. reflexivity. }
  rewrite <- H. apply u32_range.
Qed.

Lemma getblock32_inj (a0 a1 a2 a3 b0 b1 b2 b3 : byte) :
  getblock32 a0 a1 a2 a3 = getblock32 b0 b1 b2 b3 ->
  [a0; a1; a2; a3] = [b0; b1; b2; b3].
Proof.
  intros H.
  assert (Hbit : forall i, 0 <= i ->
            Z.testbit (getblock32 a0 a1 a2 a3) i
            = Z.testbit (getblock32 b0 b1 b2 b3) i) by (intros; rewrite H; reflexivity).
  assert (H0 : a0 = b0).
  { apply byte_eq_bits. intros i Hi. specialize (Hbit i ltac:(lia)).
    rewrite !getblock32_bit in Hbit by lia.
    rewrite !(byte_bit_out _ (i - 8)), !(byte_bit_out _ (i - 16)),
      !(byte_bit_out _ (i - 24)), !orb_false_r in Hbit by lia.
    exact Hbit. }
  assert (H1 : a1 = b1).
  { apply byte_eq_bits. intros i Hi. specialize (Hbit (i + 8) ltac:(lia)).
    rewrite !getblock32_bit in Hbit by lia.
    rewrite !(byte_bit_out _ (i + 8)), !(byte_bit_out _ (i + 8 - 16)),
      !(byte_bit_out _ (i + 8 - 24)), !orb_false_r in Hbit by lia.
    cbn [orb] in Hbit. replace (i + 8 - 8) with i in Hbit by lia.
    exact Hbit. }
  assert (H2 : a2 = b2).
  { apply byte_eq_bits. intros i Hi. specialize (Hbit (i + 16) ltac:(lia)).
    rewrite !getblock32_bit in Hbit by lia.
    rewrite !(byte_bit_out _ (i + 16)), !(byte_bit_out _ (i + 16 - 8)),
      !(byte_bit_out _ (i + 16 - 24)), !orb_false_r in Hbit by lia.
    cbn [orb] in Hbit. replace (i + 16 - 16) with i in Hbit by lia.
    exact Hbit. }
  assert (H3 : a3 = b3).
  { apply byte_eq_bits. intros i Hi. specialize (Hbit (i + 24) ltac:(lia)).
    rewrite !getblock32_bit in Hbit by lia.
    rewrite !(byte_bit_out _ (i + 24)), !(byte_bit_out _ (i + 24 - 8)),
      !(byte_bit_out _ (i + 24 - 16)) in Hbit by lia.
    cbn [orb] in Hbit. replace (i + 24 - 24) with i in Hbit by lia.
    exact Hbit. }
  congruence.
Qed.

(** The word the [switch] of [hash_murmur32] builds from a tail of
    three bytes (a shorter tail is one whose last bytes are absent):
    the bytes are disjoint in it, so [^] builds what [|] builds. *)
Lemma tail3_word (t0 t1 t2 : byte) :
  u32 (Z.lxor (u32 (Z.lxor (u32 (Z.lxor 0 (Z.shiftl (byte_val t2) 16)))
                           (Z.shiftl (byte_val t1) 8)))
              (byte_val t0))
  = getblock32 t0 t1 t2 "000".
Proof.
  apply Z.bits_inj'. intros i Hi.
  rewrite getblock32_bit by lia.
  rewrite !u32_testbit, !Z.lxor_spec, !u32_testbit, !Z.lxor_spec,
    !u32_testbit, !Z.lxor_spec, !Z.shiftl_spec, Z.testbit_0_l by lia.
  change (byte_val "000") with 0. rewrite Z.testbit_0_l, orb_false_r.
  destruct (Z.ltb_spec i 32) as [Hlt|Hge]; cbn [andb xorb].
  2: { rewrite !byte_bit_out by lia. reflexivity. }
  destruct (Z.lt_ge_cases i 8); [|destruct (Z.lt_ge_cases i 16)].
  - rewrite (byte_bit_out t1), (byte_bit_out t2) by lia.
    destruct (Z.testbit (byte_val t0) i); reflexivity.
  - rewrite (byte_bit_out t0), (byte_bit_out t2) by lia.
    destruct (Z.testbit (byte_val t1) (i - 8)); reflexivity.
  - rewrite (byte_bit_out t0), (byte_bit_out t1) by lia.
    destruct (Z.testbit (byte_val t2) (i - 16)); reflexivity.
Qed.

Lemma tail2_word (t0 t1 : byte) :
  u32 (Z.lxor (u32 (Z.lxor 0 (Z.shiftl (byte_val t1) 8))) (byte_val t0))
  = getblock32 t0 t1 "000" "000".
Proof.
  rewrite <- tail3_word. change (byte_val "000") with 0.
  rewrite Z.shiftl_0_l. reflexivity.
Qed.

Lemma tail1_word (t0 : byte) :
  u32 (Z.lxor 0 (byte_val t0)) = getblock32 t0 "000" "000" "000".
Proof.
  rewrite <- tail2_word. change (byte_val "000") with 0.
  rewrite Z.shiftl_0_l. reflexivity.
Qed.

(** [k1 *= c1; k1 = rotl32(k1,15); k1 *= c2; h1 ^= k1] *)
Lemma mix_inj (h x y : Z) :
  0 <= x < 2 ^ 32 -> 0 <= y < 2 ^ 32 ->
  u32 (Z.lxor h (u32 (rotl32 (u32 (x * c1)) 15 * c2)))
  = u32 (Z.lxor h (u32 (rotl32 (u32 (y * c1)) 15 * c2))) ->
  x = y.
Proof.
  intros Hx Hy H.
  apply xor_inj in H; [|apply u32_range..].
  apply (mul_inj _ 1458385051) in H;
    [|reflexivity | apply u32_range | apply u32_range].
  apply rotl32_inj in H; [|lia | apply u32_range..].
  apply (mul_inj _ 3739302833) in H; [|reflexivity | assumption..].
  exact H.
Qed.

(** [hash_murmur32] on a key of one to three bytes, and of four. *)
Lemma murmur32_tail_key (t0 t1 t2 : byte) (seed : Z) :
  let hashed n :=
    fmix32 (u32 (Z.lxor
      (u32 (Z.lxor (u32 seed)
         (u32 (rotl32 (u32 (getblock32 t0 t1 t2 "000" * c1)) 15 * c2))))
      n)) in
  (t1 = "000"%byte -> t2 = "000"%byte ->
   hash_murmur32 [t0] seed = hashed 1)
  /\ (t2 = "000"%byte -> hash_murmur32 [t0; t1] seed = hashed 2)
  /\ hash_murmur32 [t0; t1; t2] seed = hashed 3.
Proof.
  cbv zeta. split; [|split].
  - intros -> ->. rewrite <- tail1_word. reflexivity.
  - intros ->. rewrite <- tail2_word. reflexivity.
  - rewrite <- tail3_word. reflexivity.
Qed.

Lemma murmur32_word_key (b0 b1 b2 b3 : byte) (seed : Z) :
  hash_murmur32 [b0; b1; b2; b3] seed
  = fmix32 (u32 (Z.lxor
      (u32 (rotl32
              (u32 (Z.lxor (u32 seed)
                 (u32 (rotl32 (u32 (getblock32 b0 b1 b2 b3 * c1)) 15 * c2))))
              13 * 5 + 0xe6546b64))
      4)).
Proof. reflexivity. Qed.

(** [h1 ^= size_bytes; h1 = fmix32(h1)] *)
Ltac undo_final_mix H :=
  apply fmix32_inj in H; [|apply u32_range..];
  apply xor_inj_l in H; [|apply u32_range..].

(** X19: [hash_murmur32] has no collision among keys of one length up
    to four bytes.  Every step it applies to such a key -- the
    multiplications by odd constants, the rotations, the xors with the
    running hash and with the length, the shifts-and-xors of [fmix32]
    -- is a permutation of the 32-bit words, so under one seed two
    different keys of the same length, at most four bytes, get
    different hashes. *)
Theorem murmur32_short_keys_do_not_collide
  (key1 key2 : list byte) (seed : Z) :
  length key1 = length key2 ->
  (length key1 <= 4)%nat ->
  key1 <> key2 ->
  hash_murmur32 key1 seed <> hash_murmur32 key2 seed.
Proof.
  intros Hlen Hshort Hne H. apply Hne. clear Hne.
  destruct key1 as [|a0 [|a1 [|a2 [|a3 [|a4 key1]]]]];
    destruct key2 as [|b0 [|b1 [|b2 [|b3 [|b4 key2]]]]];
    try discriminate Hlen; try (exfalso; cbn in Hshort; lia);
    clear Hlen Hshort.
  - reflexivity.
  - destruct (murmur32_tail_key a0 "000" "000" seed) as [Ha _].
    destruct (murmur32_tail_key b0 "000" "000" seed) as [Hb _].
    rewrite (Ha eq_refl eq_refl), (Hb eq_refl eq_refl) in H.
    undo_final_mix H.
    apply mix_inj in H; [|apply getblock32_range..].
    apply getblock32_inj in H. congruence.
  - destruct (murmur32_tail_key a0 a1 "000" seed) as (_ & Ha & _).
    destruct (murmur32_tail_key b0 b1 "000" seed) as (_ & Hb & _).
    rewrite (Ha eq_refl), (Hb eq_refl) in H.
    undo_final_mix H.
    apply mix_inj in H; [|apply getblock32_range..].
    apply getblock32_inj in H. congruence.
  - destruct (murmur32_tail_key a0 a1 a2 seed) as (_ & _ & Ha).
    destruct (murmur32_tail_key b0 b1 b2 seed) as (_ & _ & Hb).
    rewrite Ha, Hb in H.
    undo_final_mix H.
    apply mix_inj in H; [|apply getblock32_range..].
    apply getblock32_inj in H. congruence.
  - rewrite !murmur32_word_key in H.
    undo_final_mix H.
    apply affine_inj in H; [|apply u32_range..].
    apply rotl32_inj in H; [|lia | apply u32_range..].
    apply mix_inj in H; [|apply getblock32_range..].
    apply getblock32_inj in H. exact H.
Qed.

Lemma murmur32_short_keys_do_not_collide_witness :
  hash_murmur32 ["a"; "b"; "c"]%byte HSEED
  <> hash_murmur32 ["a"; "c"; "b"]%byte HSEED.
Proof.
  apply (murmur32_short_keys_do_not_collide ["a"; "b"; "c"]%byte
           ["a"; "c"; "b"]%byte HSEED).
  - reflexivity.
  - cbn. lia.
  - discriminate.
Defined.

(** *** The incremental interface *)

Lemma mixtail_step_cnt (h : hash_incr) (b : byte) :
  pending_ok h -> cnt (mixtail_step h b) = (cnt h + 1) mod 4.
Proof.
  unfold pending_ok, mixtail_step, MMIX.
  intros [[Hc _] | [Hc | [Hc | Hc]]]; rewrite Hc; reflexivity.
Qed.

Lemma feed_cnt (bs : list byte) : forall h,
  pending_ok h ->
  cnt (feed h bs) = (cnt h + Z.of_nat (length bs)) mod 4.
Proof.
  induction bs as [|b bs IH]; intros h Hok.
  - cbn [feed fold_left length Z.of_nat]. rewrite Z.add_0_r.
    symmetry. apply Z.mod_small.
    destruct Hok as [[Hc _] | [Hc | [Hc | Hc]]]; lia.
  - change (feed h (b :: bs)) with (feed (mixtail_step h b) bs).
    rewrite IH by (apply HashFacts.mixtail_step_pending_ok; exact Hok).
    rewrite mixtail_step_cnt by exact Hok.
    rewrite Zplus_mod_idemp_l. f_equal. cbn [length]. lia.
Qed.

(** X20: what the fields of the incremental state hold.  After [begin]
    and any sequence of [add]s (chunks and total below 2^32 bytes),
    [size] is the number of bytes added, [cnt] is that number modulo
    four -- the bytes still waiting in [tail] for a full word -- and
    [tail] is clear when none is waiting. *)
Theorem incremental_state_counts (seed : Z) (chunks : list (list byte)) :
  Forall (fun c => Z.of_nat (length c) < 2 ^ 32) chunks ->
  Z.of_nat (length (concat chunks)) < 2 ^ 32 ->
  let h := fold_left hash_murmurincr_add chunks (hash_murmurincr_begin seed) in
  size h = Z.of_nat (length (concat chunks))
  /\ cnt h = Z.of_nat (length (concat chunks)) mod 4
  /\ (cnt h = 0 -> tail h = 0)
  /\ 0 <= cnt h < 4.
Proof.
  intros Hall Hlen h. unfold h.
  rewrite HashFacts.fold_add_feed;
    [|apply HashFacts.begin_pending_ok | cbn; lia | exact Hall].
  set (h0 := with_size _ _).
  assert (Hok0 : pending_ok h0) by (left; split; reflexivity).
  pose proof (HashFacts.feed_pending_ok (concat chunks) h0 Hok0) as Hok.
  split; [|split; [|split]].
  - rewrite HashFacts.feed_size. unfold h0. cbn [with_size size].
    cbn [hash_murmurincr_begin size]. rewrite Z.add_0_l.
    apply u32_small. lia.
  - rewrite feed_cnt by exact Hok0. reflexivity.
  - destruct Hok as [[_ Ht] | Hc]; [intros _; exact Ht | lia].
  - destruct Hok as [[Hc _] | [Hc | [Hc | Hc]]]; lia.
Qed.

Lemma incremental_state_counts_witness :
  let h := fold_left hash_murmurincr_add
             [["a"; "b"]; []; ["c"; "d"; "e"; "f"; "g"]]%byte
             (hash_murmurincr_begin HSEED) in
  size h = 7 /\ cnt h = 3.
Proof.
  destruct (incremental_state_counts HSEED
              [["a"; "b"]; []; ["c"; "d"; "e"; "f"; "g"]]%byte)
    as (Hs & Hc & _).
  - repeat constructor; cbn; lia.
  - cbn; lia.
  - split; [exact Hs | exact Hc].
Defined.

(** The mixing macro and the end of the incremental hash. *)

Lemma MMIX_fst (h k : Z) :
  fst (MMIX h k)
  = u32 (Z.lxor (u32 (h * HASH_M))
           (u32 (u32 (Z.lxor (u32 (k * HASH_M))
                             (Z.shiftr (u32 (k * HASH_M)) HASH_R))
                 * HASH_M))).
Proof. reflexivity. Qed.

Lemma MMIX_range (h k : Z) : 0 <= fst (MMIX h k) < 2 ^ 32.
Proof. rewrite MMIX_fst. apply u32_range. Qed.

Lemma MMIX_inj_k (h x y : Z) :
  0 <= x < 2 ^ 32 -> 0 <= y < 2 ^ 32 ->
  fst (MMIX h x) = fst (MMIX h y) -> x = y.
Proof.
  intros Hx Hy H. rewrite !MMIX_fst in H.
  apply xor_inj in H; [|apply u32_range..].
  apply (mul_inj _ 3852147133) in H; [|reflexivity | apply u32_range..].
  apply xorshift_inj in H; [|reflexivity | apply u32_range..].
  apply (mul_inj _ 3852147133) in H; [|reflexivity | assumption..].
  exact H.
Qed.

Lemma MMIX_inj_h (k x y : Z) :
  0 <= x < 2 ^ 32 -> 0 <= y < 2 ^ 32 ->
  fst (MMIX x k) = fst (MMIX y k) -> x = y.
Proof.
  intros Hx Hy H. rewrite !MMIX_fst in H.
  apply xor_inj_l in H; [|apply u32_range..].
  apply (mul_inj _ 3852147133) in H; [|reflexivity | assumption..].
  exact H.
Qed.

Lemma end_mixes (h : hash_incr) :
  hash_murmurincr_end h
  = u32 (Z.lxor
      (u32 (u32 (Z.lxor
                   (fst (MMIX (fst (MMIX (hash h) (tail h))) (size h)))
                   (Z.shiftr
                      (fst (MMIX (fst (MMIX (hash h) (tail h))) (size h)))
                      13))
            * HASH_M))
      (Z.shiftr
         (u32 (u32 (Z.lxor
                      (fst (MMIX (fst (MMIX (hash h) (tail h))) (size h)))
                      (Z.shiftr
                         (fst (MMIX (fst (MMIX (hash h) (tail h))) (size h)))
                         13))
               * HASH_M))
         15)).
Proof. reflexivity. Qed.

Lemma end_inj (h1 h2 : hash_incr) :
  size h1 = size h2 ->
  hash_murmurincr_end h1 = hash_murmurincr_end h2 ->
  fst (MMIX (hash h1) (tail h1)) = fst (MMIX (hash h2) (tail h2)).
Proof.
  intros Hsz H. rewrite !end_mixes in H.
  apply xorshift_inj in H; [|lia | apply u32_range..].
  apply (mul_inj _ 3852147133) in H; [|reflexivity | apply u32_range..].
  apply xorshift_inj in H; [|lia | apply MMIX_range..].
  rewrite Hsz in H.
  apply MMIX_inj_h in H; [|apply MMIX_range..].
  exact H.
Qed.

(** One to three bytes fed into a clear accumulator wait in [tail],
    low byte first. *)
Lemma feed_pending (h : hash_incr) (b0 b1 b2 : byte) :
  cnt h = 0 -> tail h = 0 ->
  feed h [b0]
  = {| hash := hash h; tail := getblock32 b0 "000" "000" "000"; cnt := 1;
       size := size h |}
  /\ feed h [b0; b1]
     = {| hash := hash h; tail := getblock32 b0 b1 "000" "000"; cnt := 2;
          size := size h |}
  /\ feed h [b0; b1; b2]
     = {| hash := hash h; tail := getblock32 b0 b1 b2 "000"; cnt := 3;
          size := size h |}.
Proof.
  intros Hc Ht.
  assert (H1 : mixtail_step h b0
               = {| hash := hash h; tail := byte_val b0; cnt := 1;
                    size := size h |}).
  { unfold mixtail_step. rewrite Hc, Ht.
    change (u32 (0 + 1) =? 4) with false. cbv iota.
    change (0 * 8) with 0. rewrite Z.lor_0_l, Z.shiftl_0_r.
    rewrite (u32_small (byte_val b0))
      by (pose proof (byte_val_range b0); lia).
    reflexivity. }
  assert (H2 : mixtail_step (mixtail_step h b0) b1
               = {| hash := hash h;
                    tail := Z.lor (byte_val b0) (Z.shiftl (byte_val b1) 8);
                    cnt := 2; size := size h |}).
  { rewrite H1. unfold mixtail_step. cbn [hash tail cnt size].
    change (u32 (1 + 1) =? 4) with false. cbv iota.
    change (1 * 8) with 8.
    rewrite u32_lor, byte_shift_u32 by lia.
    rewrite (u32_small (byte_val b0))
      by (pose proof (byte_val_range b0); lia).
    reflexivity. }
  assert (H3 : mixtail_step (mixtail_step (mixtail_step h b0) b1) b2
               = {| hash := hash h;
                    tail := Z.lor (Z.lor (byte_val b0)
                                         (Z.shiftl (byte_val b1) 8))
                                  (Z.shiftl (byte_val b2) 16);
                    cnt := 3; size := size h |}).
  { rewrite H2. unfold mixtail_step. cbn [hash tail cnt size].
    change (u32 (2 + 1) =? 4) with false. cbv iota.
    change (2 * 8) with 16.
    rewrite !u32_lor, !byte_shift_u32 by lia.
    rewrite (u32_small (byte_val b0))
      by (pose proof (byte_val_range b0); lia).
    reflexivity. }
  unfold feed, getblock32. cbn [fold_left].
  change (byte_val "000") with 0.
  rewrite H3, H2, H1, !Z.shiftl_0_l, !Z.lor_0_r.
  repeat split; reflexivity.
Qed.

Lemma concat_chunk_lengths (chunks : list (list byte)) :
  Forall (fun c => (length c <= length (concat chunks))%nat) chunks.
Proof.
  induction chunks as [|c chunks IH]; constructor.
  - cbn. rewrite length_app. lia.
  - eapply Forall_impl; [exact IH|].
    intros c' Hc'. cbn. rewrite length_app. cbv beta in Hc'. lia.
Qed.

Lemma end_feed_inj (h0 : hash_incr) (key1 key2 : list byte) :
  cnt h0 = 0 -> tail h0 = 0 ->
  length key1 = length key2 ->
  (length key1 <= 4)%nat ->
  hash_murmurincr_end (feed h0 key1) = hash_murmurincr_end (feed h0 key2) ->
  key1 = key2.
Proof.
  intros Hc0 Ht0 Hlen Hshort H.
  apply end_inj in H; [|rewrite !HashFacts.feed_size; reflexivity].
  destruct key1 as [|a0 [|a1 [|a2 [|a3 [|a4 key1]]]]];
    destruct key2 as [|b0 [|b1 [|b2 [|b3 [|b4 key2]]]]];
    try discriminate Hlen; try (exfalso; cbn in Hshort; lia);
    clear Hlen Hshort.
  - reflexivity.
  - destruct (feed_pending h0 a0 "000" "000" Hc0 Ht0) as (Ha & _).
    destruct (feed_pending h0 b0 "000" "000" Hc0 Ht0) as (Hb & _).
    rewrite Ha, Hb in H.
    apply MMIX_inj_k in H; [|apply getblock32_range..].
    apply getblock32_inj in H. congruence.
  - destruct (feed_pending h0 a0 a1 "000" Hc0 Ht0) as (_ & Ha & _).
    destruct (feed_pending h0 b0 b1 "000" Hc0 Ht0) as (_ & Hb & _).
    rewrite Ha, Hb in H.
    apply MMIX_inj_k in H; [|apply getblock32_range..].
    apply getblock32_inj in H. congruence.
  - destruct (feed_pending h0 a0 a1 a2 Hc0 Ht0) as (_ & _ & Ha).
    destruct (feed_pending h0 b0 b1 b2 Hc0 Ht0) as (_ & _ & Hb).
    rewrite Ha, Hb in H.
    apply MMIX_inj_k in H; [|apply getblock32_range..].
    apply getblock32_inj in H. congruence.
  - rewrite !HashFacts.feed_word in H by assumption.
    apply MMIX_inj_h in H; [|apply MMIX_range..].
    apply MMIX_inj_k in H; [|apply getblock32_range..].
    apply getblock32_inj in H. exact H.
Qed.

Lemma incremental_is_feed (seed : Z) (chunks : list (list byte)) :
  (length (concat chunks) <= 4)%nat ->
  hash_incremental seed chunks
  = hash_murmurincr_end
      (feed (with_size (hash_murmurincr_begin seed)
               (u32 (0 + Z.of_nat (length (concat chunks)))))
            (concat chunks)).
Proof.
  intros Hshort. unfold hash_incremental.
  rewrite HashFacts.fold_add_feed; [reflexivity | | |].
  - apply HashFacts.begin_pending_ok.
  - change (size (hash_murmurincr_begin seed)) with 0. lia.
  - eapply Forall_impl; [apply concat_chunk_lengths|].
    intros c Hle. cbv beta in Hle. lia.
Qed.

(** X21: the incremental hash has no collision among keys of one length
    up to four bytes either, however the keys are cut into chunks:
    [MMIX] is a permutation of the 32-bit words in each operand, and
    so are the steps of [hash_murmurincr_end]. *)
Theorem incremental_short_keys_do_not_collide
  (seed : Z) (chunks1 chunks2 : list (list byte)) :
  length (concat chunks1) = length (concat chunks2) ->
  (length (concat chunks1) <= 4)%nat ->
  concat chunks1 <> concat chunks2 ->
  hash_incremental seed chunks1 <> hash_incremental seed chunks2.
Proof.
  intros Hlen Hshort Hne H. apply Hne. clear Hne.
  rewrite !incremental_is_feed in H by lia.
  rewrite <- Hlen in H.
  apply end_feed_inj in H;
    [exact H | reflexivity | reflexivity | exact Hlen | exact Hshort].
Qed.

Lemma incremental_short_keys_do_not_collide_witness :
  hash_incremental HSEED [["a"]; ["b"; "c"]]%byte
  <> hash_incremental HSEED [["a"; "c"]; ["b"]]%byte.
Proof.
  apply (incremental_short_keys_do_not_collide HSEED
           [["a"]; ["b"; "c"]]%byte [["a"; "c"]; ["b"]]%byte).
  - reflexivity.
  - cbn. lia.
  - discriminate.
Defined.

(** *** [hash_u64] *)

Lemma u64_range (x : Z) : 0 <= u64 x < 2 ^ 64.
Proof. unfold u64. apply Z.mod_pos_bound. lia. Qed.

(** [n = (~n) + (n << 18)] is [n = n * (2^18 - 1) - 1], and
    [n = n + (n << 6)] is [n = n * 65]. *)
Lemma u64_not_plus_shift (n : Z) :
  u64 (u64 (Z.lnot n) + u64 (Z.shiftl n 18)) = u64 (n * 262143 - 1).
Proof.
  unfold u64. rewrite <- Zplus_mod. f_equal.
  rewrite Z.shiftl_mul_pow2 by lia. unfold Z.lnot.
  change (2 ^ 18) with 262144. lia.
Qed.

Lemma u64_plus_shift (n : Z) :
  u64 (n + u64 (Z.shiftl n 6)) = u64 (n * 65).
Proof.
  unfold u64. rewrite Zplus_mod_idemp_r. f_equal.
  rewrite Z.shiftl_mul_pow2 by lia. change (2 ^ 6) with 64. lia.
Qed.

Lemma u64_inverses :
  u64 (262143 * 18428729606480330751) = 1
  /\ u64 (21 * 14933078535860113213) = 1
  /\ u64 (65 * 1135184250689818561) = 1.
Proof. vm_compute. repeat split. Qed.

Lemma u64_mul_inj (c cinv x y : Z) :
  u64 (c * cinv) = 1 ->
  0 <= x < 2 ^ 64 -> 0 <= y < 2 ^ 64 ->
  u64 (x * c) = u64 (y * c) -> x = y.
Proof. apply mul_inj_mod. Qed.

Lemma u64_xorshift_inj (s x y : Z) :
  0 < s -> 0 <= x < 2 ^ 64 -> 0 <= y < 2 ^ 64 ->
  u64 (Z.lxor x (Z.shiftr x s)) = u64 (Z.lxor y (Z.shiftr y s)) -> x = y.
Proof. apply xorshift_inj_mod. lia. Qed.

Lemma u64_pred_inj (x y : Z) : u64 (x - 1) = u64 (y - 1) -> u64 x = u64 y.
Proof.
  intros H.
  assert (Hback : forall z, u64 (u64 (z - 1) + 1) = u64 z).
  { intros z. unfold u64. rewrite Zplus_mod_idemp_l. f_equal. lia. }
  rewrite <- (Hback x), <- (Hback y), H. reflexivity.
Qed.

(** The values [n] takes in [hash_u64], one assignment after the
    other. *)
Lemma hash_u64_mix_stages (n : Z) :
  exists a1 a2 a3 a4 a5,
    a1 = u64 (n * 262143 - 1)
    /\ a2 = u64 (Z.lxor a1 (Z.shiftr a1 31))
    /\ a3 = u64 (a2 * 21)
    /\ a4 = u64 (Z.lxor a3 (Z.shiftr a3 11))
    /\ a5 = u64 (a4 * 65)
    /\ hash_u64_mix n = u64 (Z.lxor a5 (Z.shiftr a5 22)).
Proof.
  unfold hash_u64_mix.
  set (a1 := u64 (u64 (Z.lnot n) + u64 (Z.shiftl n 18))).
  set (a2 := u64 (Z.lxor a1 (Z.shiftr a1 31))).
  set (a3 := u64 (a2 * 21)).
  set (a4 := u64 (Z.lxor a3 (Z.shiftr a3 11))).
  set (a5 := u64 (a4 + u64 (Z.shiftl a4 6))).
  exists a1, a2, a3, a4, a5.
  split; [apply u64_not_plus_shift|].
  split; [reflexivity|]. split; [reflexivity|]. split; [reflexivity|].
  split; [apply u64_plus_shift | reflexivity].
Qed.

Lemma hash_u64_mix_inj (n1 n2 : Z) :
  0 <= n1 < 2 ^ 64 -> 0 <= n2 < 2 ^ 64 ->
  hash_u64_mix n1 = hash_u64_mix n2 -> n1 = n2.
Proof.
  intros H1 H2 H.
  destruct u64_inverses as (Hi1 & Hi2 & Hi3).
  destruct (hash_u64_mix_stages n1)
    as (a1 & a2 & a3 & a4 & a5 & Ea1 & Ea2 & Ea3 & Ea4 & Ea5 & Ea).
  destruct (hash_u64_mix_stages n2)
    as (b1 & b2 & b3 & b4 & b5 & Eb1 & Eb2 & Eb3 & Eb4 & Eb5 & Eb).
  rewrite Ea, Eb in H. clear Ea Eb.
  assert (Hr : forall z t, z = u64 t -> 0 <= z < 2 ^ 64)
    by (intros z t ->; apply u64_range).
  apply u64_xorshift_inj in H; [|lia | eapply Hr; eassumption..].
  rewrite Ea5, Eb5 in H.
  apply (u64_mul_inj _ _ _ _ Hi3) in H; [|eapply Hr; eassumption..].
  rewrite Ea4, Eb4 in H.
  apply u64_xorshift_inj in H; [|lia | eapply Hr; eassumption..].
  rewrite Ea3, Eb3 in H.
  apply (u64_mul_inj _ _ _ _ Hi2) in H; [|eapply Hr; eassumption..].
  rewrite Ea2, Eb2 in H.
  apply u64_xorshift_inj in H; [|lia | eapply Hr; eassumption..].
  rewrite Ea1, Eb1 in H.
  apply u64_pred_inj in H.
  apply (u64_mul_inj _ _ _ _ Hi1) in H; [|assumption..].
  exact H.
Qed.

Lemma hash_u64_cast (n : Z) : hash_u64 n = u32 (hash_u64_mix n).
Proof. reflexivity. Qed.

Lemma halves_eq (x y : Z) :
  u32 x = u32 y -> Z.shiftr x 32 = Z.shiftr y 32 -> x = y.
Proof.
  intros Hlow Hhigh. unfold u32 in Hlow.
  rewrite !Z.shiftr_div_pow2 in Hhigh by lia.
  pose proof (Z.div_mod x (2 ^ 32) ltac:(lia)) as Hx.
  pose proof (Z.div_mod y (2 ^ 32) ltac:(lia)) as Hy.
  rewrite Hlow, Hhigh in Hx. congruence.
Qed.

(** X22: the six assignments of [hash_u64] are a permutation of the
    64-bit words: two different arguments have different values of [n]
    when the return statement is reached, so two arguments collide
    only through the cast to [uint] -- and then their 64-bit values
    differ in the upper half. *)
Theorem hash_u64_mixing_is_injective (n1 n2 : Z) :
  0 <= n1 < 2 ^ 64 -> 0 <= n2 < 2 ^ 64 ->
  n1 <> n2 ->
  hash_u64_mix n1 <> hash_u64_mix n2
  /\ (hash_u64 n1 = hash_u64 n2 ->
      Z.shiftr (hash_u64_mix n1) 32 <> Z.shiftr (hash_u64_mix n2) 32).
Proof.
  intros H1 H2 Hne.
  assert (Hmix : hash_u64_mix n1 <> hash_u64_mix n2).
  { intros H. apply Hne. exact (hash_u64_mix_inj n1 n2 H1 H2 H). }
  split; [exact Hmix|].
  intros Hlow Hhigh. apply Hmix.
  rewrite !hash_u64_cast in Hlow.
  exact (halves_eq _ _ Hlow Hhigh).
Qed.

Lemma hash_u64_mixing_is_injective_witness :
  hash_u64_mix 0 <> hash_u64_mix 1.
Proof.
  apply (proj1 (hash_u64_mixing_is_injective 0 1 ltac:(lia) ltac:(lia)
                  ltac:(discriminate))).
Defined.

End HashExtra.

(** ** Handles own their buffers: open and close *)

Module LifecycleExtra.
Import FileIO FileIOExt Examples.

Section WithPlatform.
Context {P : Platform}.

(** X23: an open and the close of its handle give back what they took.
    For a path that no archive serves and whose stream opens, with a
    slot and a buffer to be had, [fio_openmem] returns a handle and
    [fio_close] of it returns, leaving the heap and the set of used
    handle slots as they were before the open. *)
Theorem openmem_close_leaves_no_trace
  (g : file_mgr) (fs : filesystem) (s : sys) (a : allocator)
  (filepath : string) (ignore_vfs : bool) (id : Z) (content : list byte) :
  openmem_archive g filepath ignore_vfs = None ->
  openmem_stream g fs filepath ignore_vfs = Some content ->
  pool_room (memfile_alloc s) ->
  can_alloc a (heap s) (Z.of_nat (length content) + 1) = true ->
  Z.of_nat (length content) + 1 < 2 ^ size_bits ->
  exists s1 f s2,
    fio_openmem g fs s a filepath ignore_vfs id = (s1, Some f)
    /\ fio_close s1 f = Some s2
    /\ heap s2 = heap s
    /\ live (memfile_alloc s2) = live (memfile_alloc s).
Proof.
  intros Harch Hstream Hroom Hcan Hfit.
  unfold fio_openmem. rewrite Harch, Hstream.
  unfold fio_alloc_membuff.
  destruct (mem_pool_alloc (memfile_alloc s)) as [[file_buf pool]|] eqn:Hpool.
  2: { unfold mem_pool_alloc in Hpool.
       destruct (decide _); [discriminate | contradiction]. }
  destruct (FileIOProps.pool_alloc_free_live _ _ _ Hpool) as [Hlive _].
  destruct (FileIOExtra.openmem_load_some
              {| heap := heap s; memfile_alloc := pool |} file_buf a filepath
              id content Hcan Hfit) as (buf & last & Hnone & ->).
  do 3 eexists. split; [reflexivity|].
  unfold fio_close. cbn. split; [reflexivity|]. cbn.
  split; [|exact Hlive].
  unfold A_FREE. rewrite delete_insert_eq. apply delete_id, Hnone.
Qed.

(** X24: the handle [zip_getfile] returns owns the extraction buffer.
    When the archive has the path, the buffer is allocated, the
    extraction succeeds and a handle slot is free, [fio_close] of the
    returned handle frees the buffer with the allocator given to
    [zip_getfile] and gives the slot back: heap and used slots are as
    before the call. *)
Theorem zip_getfile_close_leaves_no_trace
  (s : sys) (zip : mz_zip_archive) (filepath : string) (a : allocator)
  (idx : Z) (bytes : list byte) :
  mz_locate_file zip filepath = Some idx ->
  mz_extract_to_mem zip idx = Some bytes ->
  can_alloc a (heap s) (FileIO.szt (mz_uncomp_size zip idx)) = true ->
  pool_room (memfile_alloc s) ->
  exists s1 f s2,
    zip_getfile s zip filepath a = (s1, Some f)
    /\ fio_close s1 f = Some s2
    /\ heap s2 = heap s
    /\ live (memfile_alloc s2) = live (memfile_alloc s).
Proof.
  intros Hloc Hext Hcan Hroom. unfold zip_getfile. rewrite Hloc, Hext.
  destruct (A_ALLOC a (heap s) _) as [[buff h1]|] eqn:Halloc.
  2: { unfold A_ALLOC in Halloc. rewrite Hcan in Halloc. discriminate. }
  unfold fio_attachmem, fio_alloc_membuff. cbn [memfile_alloc].
  destruct (mem_pool_alloc (memfile_alloc s)) as [[file_buf pool]|] eqn:Hpool.
  2: { unfold mem_pool_alloc in Hpool.
       destruct (decide _); [discriminate | contradiction]. }
  destruct (FileIOProps.pool_alloc_free_live _ _ _ Hpool) as [Hlive _].
  do 3 eexists. split; [reflexivity|].
  unfold fio_close. cbn. split; [reflexivity|]. cbn.
  split; [|exact Hlive].
  apply (FileIOProps.alloc_free_heap _ _ _ _ _ _ Halloc).
Qed.

End WithPlatform.

Lemma openmem_close_leaves_no_trace_witness :
  exists s1 f s2,
    fio_openmem (P:=lp64_debug) demo_mgr demo_fs sys0 heap_alloc "b.txt"
      false 0 = (s1, Some f)
    /\ fio_close s1 f = Some s2
    /\ heap s2 = heap sys0
    /\ live (memfile_alloc s2) = live (memfile_alloc sys0).
Proof.
  apply (openmem_close_leaves_no_trace (P:=lp64_debug) demo_mgr demo_fs sys0
           heap_alloc "b.txt" false 0 ["v"; "d"]%byte).
  - reflexivity.
  - reflexivity.
  - unfold pool_room. vm_compute. lia.
  - reflexivity.
  - vm_compute. reflexivity.
Defined.

Lemma zip_getfile_close_leaves_no_trace_witness :
  exists s1 f s2,
    zip_getfile (P:=lp64_debug) sys0 demo_zip "cfg.json" heap_alloc
    = (s1, Some f)
    /\ fio_close s1 f = Some s2
    /\ heap s2 = heap sys0
    /\ live (memfile_alloc s2) = live (memfile_alloc sys0).
Proof.
  apply (zip_getfile_close_leaves_no_trace (P:=lp64_debug) sys0 demo_zip
           "cfg.json" heap_alloc 0 ["{"; "}"]%byte).
  - reflexivity.
  - reflexivity.
  - reflexivity.
  - unfold pool_room. vm_compute. lia.
Defined.

End LifecycleExtra.
